(** * nrinsights: the event-batching and delivery pipeline

    A shallow embedding of [nrinsights.go]: the Aggregator ([makeBatches],
    [makeBatch]), the hand-off channels, the Dispatcher ([sendBatches],
    [sendUnsent], [sendBatch]), [RegisterEvent] and [StopAndFlush], and the
    making of events from requests ([Start], [NewEvent],
    [MakeEventFromRequest], [Middleware]).

    Go values are modelled as follows.
    - [string] is a byte sequence: [String.string]; [len(s)] is [len s : Z].
    - [int] is a 64-bit signed integer: a [Z] with the wrap-around of [+=]
      written out ([int_add]).
    - a buffered [chan T] is a record of its buffer, capacity and closed flag;
      an operation on it completes, parks the goroutine or panics ([outcome]).
    - [container/list] is a sequence of elements, each with the identity of
      its [*Element] pointer.
    - [encoding/json] and [net/http] are outside the repository: they are
      parameters of the development ([json_Marshal], [http_NewRequest],
      [client_Do]).
    - [log.Printf] only writes to the log and is left out. *)

From Stdlib Require Import ZArith Ascii Lia DecimalString.
From stdpp Require Import base tactics option list relations gmap strings.

Local Open Scope Z_scope.

(** ** Constants (lines 22-41) *)

(** [time.Duration] counts nanoseconds. *)
Definition Second : Z := 1000000000.

Definition sendInterval : Z := 60 * Second.
Definition sendQueueSize : nat := 20.
Definition maxEventsPerCall : Z := 1000.
Definition maxSizePerCall : Z := 5000000.
Definition defaultHttpTimeout : Z := 10 * Second.
Definition fastHttpTimeout : Z := 2 * Second.

(** The untyped constant expressions [maxEventsPerCall*0.90] and
    [maxSizePerCall*0.90] of line 262.  Go evaluates them exactly, and the
    comparison with an [int] needs the value to be an integer, which it is:
    the division below is exact ([thresholds_exact]). *)
Definition eventsThreshold : Z := maxEventsPerCall * 90 / 100.
Definition sizeThreshold : Z := maxSizePerCall * 90 / 100.

(** ** Go integers and strings *)

Definition maxInt : Z := 2 ^ 63 - 1.
Definition minInt : Z := - 2 ^ 63.

(** Two's complement wrap-around of a 64-bit [int]. *)
Definition wrap (z : Z) : Z := (z + 2 ^ 63) mod 2 ^ 64 - 2 ^ 63.
Definition int_add (a b : Z) : Z := wrap (a + b).

(** [len(s)] for a string. *)
Definition len (s : string) : Z := Z.of_nat (String.length s).

(** [strings.Join(elems, sep)]. *)
Definition strings_Join (elems : list string) (sep : string) : string :=
  String.concat sep elems.

(** [fmt.Sprintf("%d", n)]. *)
Definition fmt_d (n : Z) : string := NilZero.string_of_int (Z.to_int n).

(** The double quote character, for JSON text. *)
Definition dquote : string := String "034"%char EmptyString.

(** ** Outcomes of operations that may park or panic *)

Inductive outcome (A : Type) : Type :=
| Done (a : A)
| Blocked
| Panic.
Arguments Done {A} a.
Arguments Blocked {A}.
Arguments Panic {A}.

#[global] Instance outcome_ret : MRet outcome := @Done.
#[global] Instance outcome_bind : MBind outcome := λ A B f m,
  match m with
  | Done a => f a
  | Blocked => Blocked
  | Panic => Panic
  end.

(** ** Buffered channels *)

Module channel.
Record chan (A : Type) : Type := Chan { buf : list A; cap : nat; closed : bool }.
Arguments Chan {A} buf cap closed.
Arguments buf {A} c.
Arguments cap {A} c.
Arguments closed {A} c.

(** [make(chan A, n)] *)
Definition make {A} (n : nat) : chan A := Chan [] n false.

(** The zero value of a channel field, the nil channel: every send and
    receive on it parks. *)
Definition nilChan {A} : chan A := Chan [] 0 false.

(** [ch <- x]: panics on a closed channel, parks on a full buffer. *)
Definition send {A} (ch : chan A) (x : A) : outcome (chan A) :=
  if closed ch then Panic
  else if decide (length (buf ch) < cap ch)%nat
       then Done (Chan (buf ch ++ [x]) (cap ch) false)
       else Blocked.

(** [select { case ch <- x: default: }]: the send when it can proceed, the
    default branch otherwise.  The result tells whether the value was sent. *)
Definition try_send {A} (ch : chan A) (x : A) : outcome (chan A * bool) :=
  match send ch x with
  | Done ch' => Done (ch', true)
  | Blocked => Done (ch, false)
  | Panic => Panic
  end.

(** [x, open := <-ch]: buffered values are delivered also after [close];
    a closed and drained channel yields [open = false] ([None] here). *)
Definition recv {A} (ch : chan A) : outcome (option A * chan A) :=
  match buf ch with
  | x :: rest => Done (Some x, Chan rest (cap ch) (closed ch))
  | [] => if closed ch then Done (None, ch) else Blocked
  end.

(** [close(ch)] *)
Definition close {A} (ch : chan A) : outcome (chan A) :=
  if closed ch then Panic else Done (Chan (buf ch) (cap ch) true).
End channel.
Import channel.

(** ** container/list *)

Module clist.
(** An [*Element]: the identity of the pointer and the value it holds. *)
Record Element : Type := Elem { id : nat; Value : string }.

(** A [*List]: its elements front to back, and the next unused identity. *)
Record List : Type := MkList { elems : list Element; fresh : nat }.

Definition New : List := MkList [] 0.
Definition Len (l : List) : nat := length (elems l).
Definition Front (l : List) : option Element := head (elems l).

Fixpoint after (i : nat) (es : list Element) : option Element :=
  match es with
  | [] => None
  | e :: rest => if decide (id e = i) then head rest else after i rest
  end.

(** [e.Next()], for an element [e] of [l]. *)
Definition Next (l : List) (e : Element) : option Element := after (id e) (elems l).

(** [l.Remove(e)]: unlinks [e]; the other elements keep their places. *)
Definition Remove (l : List) (e : Element) : List :=
  MkList (filter (λ x, id x ≠ id e) (elems l)) (fresh l).

(** [l.PushBack(v)]: a new element at the back. *)
Definition PushBack (l : List) (v : string) : List :=
  MkList (elems l ++ [Elem (fresh l) v]) (S (fresh l)).

(** Pointers are distinct, and none was handed out beyond [fresh]. *)
Definition wf (l : List) : Prop :=
  NoDup (id <$> elems l) ∧ Forall (λ e, id e < fresh l)%nat (elems l).
End clist.
Import clist.

(** ** net/http values *)

Record Request : Type := MkRequest {
  Method : string;
  URL : string;
  Header : gmap string string;
  Body : string
}.

(** [req.Header.Set(key, value)]; both keys used below are in canonical form. *)
Definition Header_Set (req : Request) (key value : string) : Request :=
  MkRequest (Method req) (URL req) (<[key := value]> (Header req)) (Body req).

(** A response: its status code and what [ioutil.ReadAll(resp.Body)] gives,
    the body or a read error. *)
Record Response : Type := MkResponse {
  StatusCode : Z;
  ReadAll : string + string
}.

(** One call of [client.Do]: the request and the client's [Timeout]. *)
Record Attempt : Type := MkAttempt { request : Request; clientTimeout : Z }.

(** The requests handed to [client.Do] so far, oldest first. *)
Definition Wire : Type := list Attempt.

(** ** The Connection (lines 55-79)

    The fields that only serve [MakeEventFromRequest] and [Middleware]
    ([NewRelicAppId], [QueryParamsToSkip], [FlattenPosts], [FlattenStyle],
    [host], [skipParams]) play no part in the pipeline and are left out. *)

Record Connection : Type := MkConnection {
  NewRelicAccountId : Z;
  InsightsAPIKey : string;
  eventQueue : list string;
  queueBytes : Z;
  events : chan string;
  batches : chan string;
  eventsDone : chan bool;
  batchesDone : chan bool;
  unsent : List;
  httpTimeout : Z
}.

Definition set_eventQueue (c : Connection) (q : list string) : Connection :=
  MkConnection (NewRelicAccountId c) (InsightsAPIKey c) q (queueBytes c)
    (events c) (batches c) (eventsDone c) (batchesDone c) (unsent c) (httpTimeout c).
Definition set_queueBytes (c : Connection) (n : Z) : Connection :=
  MkConnection (NewRelicAccountId c) (InsightsAPIKey c) (eventQueue c) n
    (events c) (batches c) (eventsDone c) (batchesDone c) (unsent c) (httpTimeout c).
Definition set_events (c : Connection) (ch : chan string) : Connection :=
  MkConnection (NewRelicAccountId c) (InsightsAPIKey c) (eventQueue c) (queueBytes c)
    ch (batches c) (eventsDone c) (batchesDone c) (unsent c) (httpTimeout c).
Definition set_batches (c : Connection) (ch : chan string) : Connection :=
  MkConnection (NewRelicAccountId c) (InsightsAPIKey c) (eventQueue c) (queueBytes c)
    (events c) ch (eventsDone c) (batchesDone c) (unsent c) (httpTimeout c).
Definition set_eventsDone (c : Connection) (ch : chan bool) : Connection :=
  MkConnection (NewRelicAccountId c) (InsightsAPIKey c) (eventQueue c) (queueBytes c)
    (events c) (batches c) ch (batchesDone c) (unsent c) (httpTimeout c).
Definition set_batchesDone (c : Connection) (ch : chan bool) : Connection :=
  MkConnection (NewRelicAccountId c) (InsightsAPIKey c) (eventQueue c) (queueBytes c)
    (events c) (batches c) (eventsDone c) ch (unsent c) (httpTimeout c).
Definition set_unsent (c : Connection) (l : List) : Connection :=
  MkConnection (NewRelicAccountId c) (InsightsAPIKey c) (eventQueue c) (queueBytes c)
    (events c) (batches c) (eventsDone c) (batchesDone c) l (httpTimeout c).
Definition set_httpTimeout (c : Connection) (t : Z) : Connection :=
  MkConnection (NewRelicAccountId c) (InsightsAPIKey c) (eventQueue c) (queueBytes c)
    (events c) (batches c) (eventsDone c) (batchesDone c) (unsent c) t.

(** A [Connection] literal as a caller writes it: the exported fields set,
    every unexported field at its zero value. *)
Definition newConnection (account : Z) (key : string) : Connection :=
  MkConnection account key [] 0 nilChan nilChan nilChan nilChan (MkList [] 0) 0.

(** [Start] (lines 89-115), up to the two [go] statements, which the
    transition system below accounts for. *)
Definition Start (c : Connection) : Connection :=
  let c := set_events c (make 10) in
  let c := set_batches c (make sendQueueSize) in
  let c := set_eventsDone c (make 1) in
  let c := set_batchesDone c (make 1) in
  let c := set_unsent c New in
  set_httpTimeout c defaultHttpTimeout.

(** ** The Aggregator (lines 247-289) *)

(** Line 280: the batch made of the pending records. *)
Definition formBatch (q : list string) : string :=
  "[" +:+ strings_Join q "," +:+ "]".

(** [makeBatch] (lines 275-289). *)
Definition makeBatch (c : Connection) : outcome Connection :=
  if decide (length (eventQueue c) = 0%nat) then Done c
  else
    let batch := formBatch (eventQueue c) in
    '(ch, _) ← try_send (batches c) batch;
    let c := set_batches c ch in
    let c := set_eventQueue c [] in
    Done (set_queueBytes c 0).

(** What a call of [makeBatch] turns into a batch: the pending records, when
    there are any. *)
Definition flushed (c : Connection) : list (list string) :=
  match eventQueue c with
  | [] => []
  | q => [q]
  end.

(** The condition of line 262. *)
Definition nearLimits (c : Connection) : bool :=
  bool_decide (eventsThreshold < Z.of_nat (length (eventQueue c)))
  || bool_decide (sizeThreshold < queueBytes c).

(** Which case of the [select] of line 252 fired with the loop going on: an
    event was received, or the ticker fired. *)
Inductive selected : Type :=
| GotEvent (e : string)
| Ticked.

(** One iteration of the loop of [makeBatches] (lines 253-268) after the
    [select] has fired.  Next to the new state it gives the record sequences
    that this iteration turned into batches. *)
Definition loopBody (c : Connection) (sel : selected)
  : outcome (Connection * list (list string)) :=
  match sel with
  | GotEvent e =>
      let c := set_eventQueue c (eventQueue c ++ [e]) in
      let c := set_queueBytes c (int_add (queueBytes c) (len e)) in
      if nearLimits c
      then c' ← makeBatch c; Done (c', flushed c)
      else Done (c, [])
  | Ticked => c' ← makeBatch c; Done (c', flushed c)
  end.

Arguments makeBatch : simpl never.
Arguments loopBody : simpl never.

(** The Aggregator seen on its own: the loop run over the cases that fire,
    collecting the batches formed on the way. *)
Fixpoint aggregate (c : Connection) (sels : list selected)
  : outcome (Connection * list (list string)) :=
  match sels with
  | [] => Done (c, [])
  | sel :: rest =>
      '(c1, fs1) ← loopBody c sel;
      '(c2, fs2) ← aggregate c1 rest;
      Done (c2, fs1 ++ fs2)
  end.

(** ** Quantities the statements are about *)

(** The byte lengths of the records of a sequence, added up. *)
Definition bytesOf (q : list string) : Z := foldr (λ r n, len r + n) 0 q.

(** The longest record for which the addition of line 259 cannot overflow
    when the pending bytes are within [sizeThreshold].  Every string a
    64-bit process can hold is far shorter. *)
Definition maxRecordLen : Z := maxInt - sizeThreshold.

(** The pending records are accounted for and within the thresholds of
    line 262. *)
Definition pendingOk (c : Connection) : Prop :=
  queueBytes c = bytesOf (eventQueue c)
  ∧ Z.of_nat (length (eventQueue c)) ≤ eventsThreshold
  ∧ queueBytes c ≤ sizeThreshold.

(** A record sequence as [makeBatch] meets it: not empty, and within the
    thresholds before its last record arrived. *)
Definition batchShape (q : list string) : Prop :=
  ∃ q0 e, q = q0 ++ [e]
          ∧ Z.of_nat (length q0) ≤ eventsThreshold
          ∧ bytesOf q0 ≤ sizeThreshold.

(** The longest last record for which a batch is certain to stay within
    [maxSizePerCall]: what the early flush leaves of the limit, less the
    commas and the brackets. *)
Definition maxLastRecord : Z := maxSizePerCall - sizeThreshold - eventsThreshold - 2.

(** The records received in a run of the loop, in the order of arrival. *)
Fixpoint recordsOf (sels : list selected) : list string :=
  match sels with
  | [] => []
  | GotEvent e :: rest => e :: recordsOf rest
  | Ticked :: rest => recordsOf rest
  end.

(** ** Requests and handlers (lines 141-234)

    What [MakeEventFromRequest] and [Middleware] use of [net/http]. *)

(** An [io.Reader] as [ioutil.ReadAll] sees it: not read yet, with what
    reading it to the end gives, or read to its end. *)
Inductive Reader : Type :=
| Unread (content : string + string)
| Drained.

(** [ioutil.ReadAll(rd)]: the bytes or the error, and the reader afterwards.
    A reader read to its end has nothing more to give; one that failed is
    taken to fail again. *)
Definition ioutil_ReadAll (rd : Reader) : (string + string) * Reader :=
  match rd with
  | Unread (inl bytes) => (inl bytes, Drained)
  | Unread (inr err) => (inr err, Unread (inr err))
  | Drained => (inl "", Drained)
  end.

(** An [*http.Request]: [r.URL.Path], [r.Method], the map that
    [r.URL.Query()] gives, and [r.Body]. *)
Record HttpRequest : Type := MkHttpRequest {
  ReqPath : string;
  ReqMethod : string;
  ReqQuery : gmap string (list string);
  ReqBody : Reader
}.

(** [qvalues.Get(key)]: the first value of the key, or the empty string. *)
Definition Values_Get (qvalues : gmap string (list string)) (key : string) : string :=
  match qvalues !! key with
  | Some (v :: _) => v
  | _ => ""
  end.

(** What a handler does to its [http.ResponseWriter]. *)
Inductive WriterCall : Type :=
| CallWriteHeader (status : Z)
| CallWrite (data : string).

(** An [http.Handler], by the calls it makes on the writer it is given when
    it serves a request. *)
Definition Handler : Type := HttpRequest → list WriterCall.

(** [captureStatus] (lines 226-229): the calls that have reached the
    embedded [ResponseWriter], and the status. *)
Record captureStatus : Type := MkCaptureStatus {
  ResponseWriter : list WriterCall;
  status : Z
}.

(** [WriteHeader] (lines 231-234). *)
Definition WriteHeader (cs : captureStatus) (st : Z) : captureStatus :=
  let cs := MkCaptureStatus (ResponseWriter cs) st in
  MkCaptureStatus (ResponseWriter cs ++ [CallWriteHeader st]) (status cs).

(** A call on a [captureStatus]: [WriteHeader] is its own method, [Write] is
    the method of the embedded writer. *)
Definition capture (cs : captureStatus) (call : WriterCall) : captureStatus :=
  match call with
  | CallWriteHeader st => WriteHeader cs st
  | CallWrite data => MkCaptureStatus (ResponseWriter cs ++ [CallWrite data]) (status cs)
  end.

(** The last status a sequence of calls passes to [WriteHeader]. *)
Fixpoint lastStatus (calls : list WriterCall) (default : Z) : Z :=
  match calls with
  | [] => default
  | CallWriteHeader st :: rest => lastStatus rest st
  | CallWrite _ :: rest => lastStatus rest default
  end.

(** The fields of the [Connection] struct that only [Start], [NewEvent]
    and [MakeEventFromRequest] use (lines 57-70). *)
Record Options : Type := MkOptions {
  NewRelicAppId : Z;
  QueryParamsToSkip : list string;
  FlattenPosts : bool;
  FlattenStyle : Z;
  host : string;
  skipParams : gmap string bool
}.

(** What the request side takes from Go and its libraries, for event values
    of type [Value]: how a Go [int], [int64] and [string] sit in an
    [interface{}], [strings.ToLower], what [os.Hostname()] returns,
    [flatten.DotStyle], [json.Unmarshal] of a request body into a map, and
    [flatten.Flatten(nested, prefix, style)]. *)
Class Libraries (Value : Type) : Type := MkLibraries {
  ofInt : Z → Value;
  ofInt64 : Z → Value;
  ofString : string → Value;
  strings_ToLower : string → string;
  os_Hostname : string + string;
  DotStyle : Z;
  json_Unmarshal : string → gmap string Value + string;
  flatten_Flatten : gmap string Value → string → Z → gmap string Value + string
}.

(** ** Stand-ins for the libraries

    Simple instances of the parameters of the development, on which the
    statements below are exercised. *)

(** Event values: a boolean, or a channel, which JSON cannot encode. *)
Inductive sampleValue : Type :=
| VBool (b : bool)
| VChan.

(** A marshaller for events whose only field is [ok]. *)
Definition sampleMarshal (vs : gmap string sampleValue) : string + string :=
  match vs !! "ok" with
  | None => inl "{}"
  | Some (VBool true) => inl ("{" +:+ dquote +:+ "ok" +:+ dquote +:+ ":true}")
  | Some (VBool false) => inl ("{" +:+ dquote +:+ "ok" +:+ dquote +:+ ":false}")
  | Some VChan => inr "json: unsupported type: chan int"
  end.

(** [http.NewRequest] building the request it is asked for. *)
Definition acceptRequest (method url body : string) : Request + string :=
  inl (MkRequest method url ∅ body).

(** A collector that cannot be reached. *)
Definition refuseConnection (n : nat) (timeout : Z) (req : Request)
  : Response + string :=
  inr "dial tcp: connection refused".

(** A collector that answers every request with the given status. *)
Definition respondWith (status : Z) (n : nat) (timeout : Z) (req : Request)
  : Response + string :=
  inl (MkResponse status (inl "")).

(** A collector that accepts the first request made and cannot be reached
    afterwards. *)
Definition reachableOnce (n : nat) (timeout : Z) (req : Request)
  : Response + string :=
  if decide (n = 0%nat) then respondWith 200 n timeout req
  else refuseConnection n timeout req.

(** A collector that answers the first request with status 500 and a body
    that can be read, accepts the second, and cannot be reached
    afterwards. *)
Definition rejectsThenAccepts (n : nat) (timeout : Z) (req : Request)
  : Response + string :=
  match n with
  | 0%nat => respondWith 500 n timeout req
  | 1%nat => respondWith 200 n timeout req
  | _ => refuseConnection n timeout req
  end.

(** [s] repeated [2 ^ n] times. *)
Fixpoint doubled (n : nat) (s : string) : string :=
  match n with
  | O => s
  | S n' => doubled n' s +:+ doubled n' s
  end.

(** A record of more than eight million bytes: one field holding a long
    text. *)
Definition bigRecord : string :=
  "{" +:+ dquote +:+ "body" +:+ dquote +:+ ":" +:+ dquote
  +:+ doubled 23 "x" +:+ dquote +:+ "}".

(** A marshaller that meets such an event. *)
Definition bigMarshal (vs : gmap string sampleValue) : string + string :=
  inl bigRecord.

(** Event values as the request side makes them. *)
Inductive webValue : Type :=
| WInt (n : Z)
| WInt64 (n : Z)
| WString (s : string)
| WFloat (milliseconds : Z).

(** Lower case for the letters of ASCII. *)
Definition lowerAscii (a : ascii) : ascii :=
  let n := nat_of_ascii a in
  if ((65 <=? n)%nat && (n <=? 90)%nat)%bool then ascii_of_nat (n + 32) else a.

Fixpoint lowerString (s : string) : string :=
  match s with
  | EmptyString => EmptyString
  | String a s' => String (lowerAscii a) (lowerString s')
  end.

(** A decoder that knows the empty object and the object with the one
    field [n], a number of one digit. *)
Definition webUnmarshal (body : string) : gmap string webValue + string :=
  if decide (body = "{}") then inl ∅
  else match body with
       | String "{" (String q1 (String "n" (String q2 (String ":" (String d (String "}" EmptyString)))))) =>
           if decide (q1 = "034"%char ∧ q2 = "034"%char
                      ∧ (48 ≤ nat_of_ascii d ≤ 57)%nat)
           then inl {[ "n" := WInt (Z.of_nat (nat_of_ascii d) - 48) ]}
           else inr "invalid character"
       | _ => inr "invalid character"
       end.

(** Flattening a map that is flat already: every key gets the prefix. *)
Definition webFlatten (nested : gmap string webValue) (prefix : string) (style : Z)
  : gmap string webValue + string :=
  inl (list_to_map ((λ kv : string * webValue, (prefix +:+ kv.1, kv.2))
                      <$> map_to_list nested)).

(** An encoder that records how many fields the event has. *)
Definition webMarshal (vs : gmap string webValue) : string + string :=
  inl ("{" +:+ dquote +:+ "fields" +:+ dquote +:+ ":"
       +:+ fmt_d (Z.of_nat (size vs)) +:+ "}").

#[global] Instance webLibraries : Libraries webValue :=
  MkLibraries webValue WInt WInt64 WString lowerString (inl "web-1") 1
    webUnmarshal webFlatten.

(** A request [GET /cart?id=7&Token=x&empty]. *)
Definition getCart : HttpRequest :=
  MkHttpRequest "/cart" "GET"
    {[ "id" := ["7"; "8"]; "Token" := ["x"]; "empty" := [] ]} (Unread (inl "")).

(** A request [POST /cart?id=7] with the given body. *)
Definition postCart (body : Reader) : HttpRequest :=
  MkHttpRequest "/cart" "POST" {[ "id" := ["7"] ]} body.

(** A handler that answers 404 with a text. *)
Definition notFound : Handler :=
  λ _, [CallWriteHeader 404; CallWrite "not found"].

(** ** The pipeline over its libraries *)

Section Pipeline.

(** The values of an event: Go's [interface{}]. *)
Variable Value : Type.

(** [json.Marshal] on the values of an event: the JSON text, or an error. *)
Variable json_Marshal : gmap string Value → string + string.

(** [http.NewRequest(method, url, body)]: the request, or an error. *)
Variable http_NewRequest : string → string → string → Request + string.

(** [client.Do(req)] for a client with the given [Timeout]: the response
    or a transport error.  The first argument counts the calls made before
    this one, so that the same request may meet a different fate each time
    it is sent. *)
Variable client_Do : nat → Z → Request → Response + string.

Record Event : Type := MkEvent { values : gmap string Value }.

(** [RegisterEvent] (lines 236-245): the returned error, if any, and the
    connection afterwards. *)
Definition RegisterEvent (c : Connection) (e : Event)
  : outcome (option string * Connection) :=
  match json_Marshal (values e) with
  | inr err => Done (Some ("could not marshal event: " +:+ err), c)
  | inl asjson =>
      ch ← send (events c) asjson;
      Done (None, set_events c ch)
  end.

(** ** The Dispatcher (lines 291-344) *)

(** [sendBatch] (lines 314-344): the returned boolean and the wire
    afterwards. *)
Definition sendBatch (c : Connection) (w : Wire) (batch : string) : bool * Wire :=
  let url := "https://insights-collector.newrelic.com/v1/accounts/"
             +:+ fmt_d (NewRelicAccountId c) +:+ "/events" in
  match http_NewRequest "POST" url batch with
  | inr _ => (false, w)
  | inl req =>
      let req := Header_Set req "X-Insert-Key" (InsightsAPIKey c) in
      let req := Header_Set req "Content-Type" "application/json" in
      let w' := w ++ [MkAttempt req (httpTimeout c)] in
      match client_Do (length w) (httpTimeout c) req with
      | inr _ => (false, w')
      | inl resp =>
          if decide (StatusCode resp ≠ 200) then
            match ReadAll resp with
            | inr _ => (false, w')
            | inl _ => (true, w')   (* logs the status and falls through to line 343 *)
            end
          else (true, w')
      end
  end.

(** The loop of [sendUnsent] (lines 305-311) from the element [elem] on.
    [None] when the fuel runs out before the loop ends. *)
Fixpoint sendUnsent_loop (fuel : nat) (c : Connection) (w : Wire)
    (elem : option Element) : option (Connection * Wire) :=
  match elem with
  | None => Some (c, w)
  | Some e =>
      match fuel with
      | O => None
      | S fuel' =>
          let next := Next (unsent c) e in
          let '(ok, w') := sendBatch c w (clist.Value e) in
          let c' := if ok then set_unsent c (Remove (unsent c) e) else c in
          sendUnsent_loop fuel' c' w' next
      end
  end.

(** [sendUnsent] (lines 303-312); the loop visits each element at most
    once, so the length of the list is fuel enough ([sendUnsent_spec]). *)
Definition sendUnsent (c : Connection) (w : Wire) : option (Connection * Wire) :=
  sendUnsent_loop (Len (unsent c)) c w (Front (unsent c)).

Arguments RegisterEvent : simpl never.
Arguments sendBatch : simpl never.
Arguments sendUnsent : simpl never.

(** ** The running system

    Three threads of control share the connection: the goroutine of
    [makeBatches], the goroutine of [sendBatches], and the caller of
    [StopAndFlush]; any goroutine may call [RegisterEvent].  A transition
    is one channel operation together with the local work that follows it
    up to the next channel operation of the same thread. *)

(** Where [makeBatches] stands. *)
Inductive aggregatorAt : Type :=
| AtSelect          (* line 252 *)
| AtFinalFlush      (* line 271 *)
| AtEventsDone      (* line 272 *)
| AggregatorExited.

(** Where [sendBatches] stands. *)
Inductive dispatcherAt : Type :=
| AtRange           (* line 292 *)
| AtFinalPass       (* lines 297-298 *)
| AtBatchesDone     (* line 300 *)
| DispatcherExited.

(** Where the caller of [StopAndFlush] stands. *)
Inductive stopAt : Type :=
| NotStopping
| AtWaitEvents      (* line 119 *)
| AtCloseBatches    (* line 120 *)
| AtWaitBatches     (* line 121 *)
| Returned.

Record Sys : Type := MkSys {
  conn : Connection;
  wire : Wire;                     (* requests handed to client.Do *)
  formed : list (list string);     (* record sequences turned into batches *)
  aggregator : aggregatorAt;
  dispatcher : dispatcherAt;
  stop : stopAt
}.

(** The system right after [Start]. *)
Definition initial (account : Z) (key : string) : Sys :=
  MkSys (Start (newConnection account key)) [] [] AtSelect AtRange NotStopping.

Inductive step : Sys → Sys → Prop :=
(* RegisterEvent, by any goroutine *)
| step_register c w fs a d m e r c' :
    RegisterEvent c e = Done (r, c') →
    step (MkSys c w fs a d m) (MkSys c' w fs a d m)
(* makeBatches *)
| step_event c w fs d m e ch c' fs' :
    recv (events c) = Done (Some e, ch) →
    loopBody (set_events c ch) (GotEvent e) = Done (c', fs') →
    step (MkSys c w fs AtSelect d m) (MkSys c' w (fs ++ fs') AtSelect d m)
| step_tick c w fs d m c' fs' :
    loopBody c Ticked = Done (c', fs') →
    step (MkSys c w fs AtSelect d m) (MkSys c' w (fs ++ fs') AtSelect d m)
| step_events_closed c w fs d m ch :
    recv (events c) = Done (None, ch) →
    step (MkSys c w fs AtSelect d m) (MkSys (set_events c ch) w fs AtFinalFlush d m)
| step_final_flush c w fs d m c' :
    makeBatch c = Done c' →
    step (MkSys c w fs AtFinalFlush d m) (MkSys c' w (fs ++ flushed c) AtEventsDone d m)
| step_events_done c w fs d m ch :
    send (eventsDone c) true = Done ch →
    step (MkSys c w fs AtEventsDone d m)
         (MkSys (set_eventsDone c ch) w fs AggregatorExited d m)
(* sendBatches *)
| step_batch c w fs a m batch ch c' w' :
    recv (batches c) = Done (Some batch, ch) →
    sendUnsent (set_unsent (set_batches c ch) (PushBack (unsent c) batch)) w
      = Some (c', w') →
    step (MkSys c w fs a AtRange m) (MkSys c' w' fs a AtRange m)
| step_batches_closed c w fs a m ch :
    recv (batches c) = Done (None, ch) →
    step (MkSys c w fs a AtRange m) (MkSys (set_batches c ch) w fs a AtFinalPass m)
| step_final_pass c w fs a m c' w' :
    sendUnsent (set_httpTimeout c fastHttpTimeout) w = Some (c', w') →
    step (MkSys c w fs a AtFinalPass m) (MkSys c' w' fs a AtBatchesDone m)
| step_batches_done c w fs a m ch :
    send (batchesDone c) true = Done ch →
    step (MkSys c w fs a AtBatchesDone m)
         (MkSys (set_batchesDone c ch) w fs a DispatcherExited m)
(* StopAndFlush *)
| step_close_events c w fs a d ch :
    close (events c) = Done ch →
    step (MkSys c w fs a d NotStopping) (MkSys (set_events c ch) w fs a d AtWaitEvents)
| step_wait_events c w fs a d v ch :
    recv (eventsDone c) = Done (v, ch) →
    step (MkSys c w fs a d AtWaitEvents) (MkSys (set_eventsDone c ch) w fs a d AtCloseBatches)
| step_close_batches c w fs a d ch :
    close (batches c) = Done ch →
    step (MkSys c w fs a d AtCloseBatches) (MkSys (set_batches c ch) w fs a d AtWaitBatches)
| step_wait_batches c w fs a d v ch :
    recv (batchesDone c) = Done (v, ch) →
    step (MkSys c w fs a d AtWaitBatches) (MkSys (set_batchesDone c ch) w fs a d Returned).

(** The states the system can be in, for a given account and key. *)
Definition reachable (account : Z) (key : string) (s : Sys) : Prop :=
  rtc step (initial account key) s.

(** ** Quantities the statements about the Dispatcher use *)

(** The URL of line 315. *)
Definition endpoint (c : Connection) : string :=
  "https://insights-collector.newrelic.com/v1/accounts/"
  +:+ fmt_d (NewRelicAccountId c) +:+ "/events".

(** The results of [sendBatch] on the batches [bs], one after the other. *)
Fixpoint passResults (c : Connection) (w : Wire) (bs : list string) : list bool * Wire :=
  match bs with
  | [] => ([], w)
  | b :: rest =>
      let '(ok, w1) := sendBatch c w b in
      let '(oks, w2) := passResults c w1 rest in
      (ok :: oks, w2)
  end.

(** The elements whose delivery failed, in their order. *)
Fixpoint keepFailed (es : list Element) (oks : list bool) : list Element :=
  match es, oks with
  | e :: es', ok :: oks' =>
      if ok then keepFailed es' oks' else e :: keepFailed es' oks'
  | _, _ => []
  end.

(** [a] is what [sendBatch c _ batch] hands to [client.Do]. *)
Definition attemptOf (c : Connection) (batch : string) (a : Attempt) : Prop :=
  ∃ req, http_NewRequest "POST" (endpoint c) batch = inl req
         ∧ a = MkAttempt
                 (Header_Set (Header_Set req "X-Insert-Key" (InsightsAPIKey c))
                             "Content-Type" "application/json")
                 (httpTimeout c).

(** What one call of [makeBatch], or one iteration of the Aggregator's
    loop, may change besides the pending records: only the [batches]
    channel, by at most one batch, formed from the records in [fs]. *)
Definition aggEffect (c c' : Connection) (fs : list (list string)) : Prop :=
  NewRelicAccountId c' = NewRelicAccountId c
  ∧ InsightsAPIKey c' = InsightsAPIKey c
  ∧ events c' = events c
  ∧ eventsDone c' = eventsDone c
  ∧ batchesDone c' = batchesDone c
  ∧ unsent c' = unsent c
  ∧ httpTimeout c' = httpTimeout c
  ∧ cap (batches c') = cap (batches c)
  ∧ closed (batches c') = closed (batches c)
  ∧ ((fs = [] ∧ batches c' = batches c)
     ∨ (∃ q, fs = [q] ∧ q ≠ [] ∧ closed (batches c) = false
             ∧ eventQueue c' = []
             ∧ ((cap (batches c) ≤ length (buf (batches c)))%nat
                  ∧ batches c' = batches c
                ∨ (length (buf (batches c)) < cap (batches c))%nat
                  ∧ buf (batches c') = buf (batches c) ++ [formBatch q]))).

(** The batches waiting in the hand-off channel and in the [unsent] list. *)
Definition backlog (c : Connection) : list string :=
  (clist.Value <$> elems (unsent c)) ++ buf (batches c).

(** The hand-off channel is the one [Start] made, and within its capacity. *)
Definition handoffOk (s : Sys) : Prop :=
  cap (batches (conn s)) = sendQueueSize
  ∧ (length (buf (batches (conn s))) ≤ sendQueueSize)%nat.

(** The [unsent] list is well formed, every batch of the backlog was
    formed by [makeBatch] from a record sequence of the log, and no
    sequence of the log is empty. *)
Definition backlogOk (s : Sys) : Prop :=
  wf (unsent (conn s))
  ∧ Forall (λ b, ∃ q, q ∈ formed s ∧ b = formBatch q) (backlog (conn s))
  ∧ Forall (λ q, q ≠ []) (formed s).

(** The account and the key do not change. *)
Definition identityOk (account : Z) (key : string) (s : Sys) : Prop :=
  NewRelicAccountId (conn s) = account ∧ InsightsAPIKey (conn s) = key
  ∧ (httpTimeout (conn s) = defaultHttpTimeout
     ∨ httpTimeout (conn s) = fastHttpTimeout).

(** [a] is a delivery attempt for a batch of the log [fs], made for the
    given account and key. *)
Definition deliveryOf (account : Z) (key : string) (fs : list (list string))
    (a : Attempt) : Prop :=
  ∃ q req,
    q ∈ fs
    ∧ http_NewRequest "POST"
        ("https://insights-collector.newrelic.com/v1/accounts/"
         +:+ fmt_d account +:+ "/events") (formBatch q) = inl req
    ∧ request a = Header_Set (Header_Set req "X-Insert-Key" key)
                             "Content-Type" "application/json"
    ∧ (clientTimeout a = defaultHttpTimeout ∨ clientTimeout a = fastHttpTimeout).

(** The last thing the Dispatcher did: one pass of [sendUnsent] with the
    fast timeout, begun when the [batches] channel was closed and drained,
    which left the present [unsent] list and wire. *)
Definition finalPassDone (s : Sys) : Prop :=
  ∃ c0 w0,
    closed (batches c0) = true ∧ buf (batches c0) = []
    ∧ httpTimeout c0 = fastHttpTimeout
    ∧ sendUnsent c0 w0 = Some (set_unsent c0 (unsent (conn s)), wire s)
    ∧ ∃ atts, wire s = w0 ++ atts
              ∧ Forall (λ a, clientTimeout a = fastHttpTimeout) atts.

(** How the three threads of control stand to each other. *)
Definition protocolOk (s : Sys) : Prop :=
  let c := conn s in
  closed (eventsDone c) = false
  ∧ closed (batchesDone c) = false
  ∧ (buf (eventsDone c) ≠ [] → aggregator s = AggregatorExited)
  ∧ (buf (batchesDone c) ≠ [] → dispatcher s = DispatcherExited)
  ∧ (stop s = AtCloseBatches ∨ stop s = AtWaitBatches ∨ stop s = Returned →
     aggregator s = AggregatorExited)
  ∧ (aggregator s ≠ AtSelect → closed (events c) = true ∧ buf (events c) = [])
  ∧ (aggregator s = AtEventsDone ∨ aggregator s = AggregatorExited →
     eventQueue c = [])
  ∧ (closed (batches c) = true → stop s = AtWaitBatches ∨ stop s = Returned)
  ∧ (dispatcher s ≠ AtRange → closed (batches c) = true ∧ buf (batches c) = [])
  ∧ (stop s = Returned → dispatcher s = DispatcherExited)
  ∧ (dispatcher s = AtBatchesDone ∨ dispatcher s = DispatcherExited →
     finalPassDone s)
  ∧ (stop s ≠ NotStopping → closed (events c) = true).

(** No record that [json.Marshal] produces is so long that line 259 could
    overflow. *)
Definition recordsFit : Prop :=
  ∀ v asjson, json_Marshal v = inl asjson → len asjson ≤ maxRecordLen.

(** The pending records are accounted for, the records on their way to the
    Aggregator fit, and every batch formed so far had the shape
    [batchShape]. *)
Definition recordsOk (s : Sys) : Prop :=
  pendingOk (conn s)
  ∧ Forall (λ r, len r ≤ maxRecordLen) (buf (events (conn s)))
  ∧ Forall batchShape (formed s).

(** What the development assumes of [http.NewRequest]: a request it
    returns has the method, the URL and the body it was given. *)
Definition newRequestSpec : Prop :=
  ∀ method url body req,
    http_NewRequest method url body = inl req →
    Method req = method ∧ URL req = url ∧ Body req = body.

(** The connection after the records [rs] have joined the pending ones
    with no flush in between. *)
Definition withPending (c : Connection) (rs : list string) : Connection :=
  set_queueBytes (set_eventQueue c (eventQueue c ++ rs)) (queueBytes c + bytesOf rs).

(** [r] is the JSON text of an event. *)
Definition marshalled (r : string) : Prop :=
  ∃ e, json_Marshal (values e) = inl r.

(** Every record in the pipeline is the JSON text of an event. *)
Definition provenanceOk (s : Sys) : Prop :=
  Forall marshalled (buf (events (conn s)))
  ∧ Forall marshalled (eventQueue (conn s))
  ∧ Forall (Forall marshalled) (formed s).

(** What lets every thread of control take its next step: the capacities
    [Start] gave the channels, the [events] channel open until
    [StopAndFlush] closes it, and each completion signal in its channel from
    the moment it is sent until it is received. *)
Definition progressOk (s : Sys) : Prop :=
  let c := conn s in
  cap (events c) = 10%nat
  ∧ (length (buf (events c)) ≤ 10)%nat
  ∧ (stop s = NotStopping → closed (events c) = false)
  ∧ cap (eventsDone c) = 1%nat
  ∧ cap (batchesDone c) = 1%nat
  ∧ (aggregator s ≠ AggregatorExited → buf (eventsDone c) = [])
  ∧ (dispatcher s ≠ DispatcherExited → buf (batchesDone c) = [])
  ∧ (aggregator s = AggregatorExited →
     stop s = NotStopping ∨ stop s = AtWaitEvents → buf (eventsDone c) ≠ [])
  ∧ (dispatcher s = DispatcherExited → stop s ≠ Returned →
     buf (batchesDone c) ≠ [])
  ∧ (stop s = AtWaitBatches ∨ stop s = Returned → closed (batches c) = true).

(** ** What shutdown leaves behind *)

(** What one pass of [sendUnsent] with the connection [c] hands to
    [client.Do] for the batches [bs]: one request for every batch for which
    [http.NewRequest] returns a request, in the order of the batches, each
    with the two headers and the timeout of the connection. *)
Fixpoint attemptsFor (c : Connection) (bs : list string) : list Attempt :=
  match bs with
  | [] => []
  | b :: rest =>
      match http_NewRequest "POST" (endpoint c) b with
      | inl req =>
          MkAttempt (Header_Set (Header_Set req "X-Insert-Key" (InsightsAPIKey c))
                                "Content-Type" "application/json")
                    (httpTimeout c)
          :: attemptsFor c rest
      | inr _ => attemptsFor c rest
      end
  end.

(** [s0] is the state in which the Aggregator made its final flush (line
    271), and [s] a state that shows its outcome: the [events] channel was
    closed and drained, the flush ended with the pending records, if any,
    made into a batch, which went into the [batches] channel unless that
    was full, and no batch has been formed since. *)
Definition finalFlushAt (s0 s : Sys) : Prop :=
  aggregator s0 = AtFinalFlush
  ∧ closed (events (conn s0)) = true ∧ buf (events (conn s0)) = []
  ∧ (∃ c', makeBatch (conn s0) = Done c'
           ∧ eventQueue c' = []
           ∧ (eventQueue (conn s0) ≠ [] →
              (length (buf (batches (conn s0))) < sendQueueSize)%nat →
              buf (batches c')
              = buf (batches (conn s0)) ++ [formBatch (eventQueue (conn s0))]))
  ∧ formed s = formed s0 ++ flushed (conn s0).

(** [s1] is the state in which the Dispatcher began its final pass (lines
    297-298), and [s] a state that shows its outcome: the [batches] channel
    was closed and drained and the Aggregator gone, so that the [unsent]
    list was the whole backlog; the pass handed to [client.Do], with the
    fast timeout, one request for every batch of the list, front to back,
    and left in the list the elements whose delivery failed; nothing has
    been formed or sent since. *)
Definition finalPassAt (s1 s : Sys) : Prop :=
  let c1 := set_httpTimeout (conn s1) fastHttpTimeout in
  dispatcher s1 = AtFinalPass
  ∧ aggregator s1 = AggregatorExited
  ∧ closed (batches (conn s1)) = true ∧ buf (batches (conn s1)) = []
  ∧ formed s = formed s1
  ∧ wire s = wire s1 ++ attemptsFor c1 (backlog (conn s1))
  ∧ Forall (λ a, clientTimeout a = fastHttpTimeout) (attemptsFor c1 (backlog (conn s1)))
  ∧ elems (unsent (conn s))
    = keepFailed (elems (unsent (conn s1)))
        (passResults c1 (wire s1) (backlog (conn s1))).1.

(** ** Events from requests (lines 85-224) *)

(** [Set] (lines 85-87), on an event whose map has been made. *)
Definition Event_Set (e : Event) (name : string) (value : Value) : Event :=
  MkEvent (<[name := value]> (values e)).

(** The part of [Start] that prepares the options (lines 90-94 and
    103-111). *)
Definition Start_options `{!Libraries Value} (o : Options) : Options :=
  let skip := foldl (λ m p, <[strings_ToLower p := true]> m) ∅ (QueryParamsToSkip o) in
  let hostname := match os_Hostname with
                  | inr _ => "<unknown>"
                  | inl hostname => hostname
                  end in
  let style := if decide (FlattenStyle o = 0) then DotStyle else FlattenStyle o in
  MkOptions (NewRelicAppId o) (QueryParamsToSkip o) (FlattenPosts o) style hostname skip.

(** [NewEvent] (lines 124-139); [now] is [time.Now().Unix()]. *)
Definition NewEvent `{!Libraries Value} (c : Connection) (o : Options) (now : Z) : Event :=
  let e := MkEvent ∅ in
  let e := Event_Set e "accountId" (ofInt (NewRelicAccountId c)) in
  let e := if decide (NewRelicAppId o ≠ 0)
           then Event_Set e "appId" (ofInt (NewRelicAppId o)) else e in
  let e := Event_Set e "eventType" (ofString "Transaction") in
  let e := Event_Set e "timestamp" (ofInt64 now) in
  Event_Set e "host" (ofString (host o)).

(** The body of the loop of lines 152-157, for one key of the query. *)
Definition setParam `{!Libraries Value} (o : Options) (qvalues : gmap string (list string))
    (key : string) (e : Event) : Event :=
  if decide (is_Some (skipParams o !! strings_ToLower key)) then e
  else Event_Set e ("p:" +:+ key) (ofString (Values_Get qvalues key)).

(** The loop of lines 152-157 with the keys visited in the order of
    [keys], and the loop of lines 184-186 with the entries visited in the
    order of [entries]. *)
Definition setParams `{!Libraries Value} (o : Options) (qvalues : gmap string (list string))
    (keys : list string) (e : Event) : Event :=
  foldl (λ e key, setParam o qvalues key e) e keys.

Definition setFields (entries : list (string * Value)) (e : Event) : Event :=
  foldl (λ e kv, Event_Set e kv.1 kv.2) e entries.

(** Lines 147-157 of [MakeEventFromRequest]: the event before the body of
    the request is looked at. *)
Definition eventOfQuery `{!Libraries Value} (c : Connection) (o : Options) (now : Z)
    (r : HttpRequest) : Event :=
  let e := NewEvent c o now in
  let e := Event_Set e "url" (ofString (ReqPath r)) in
  let e := Event_Set e "method" (ofString (ReqMethod r)) in
  let qvalues := ReqQuery r in
  setParams o qvalues (map_to_list qvalues).*1 e.

(** [MakeEventFromRequest] (lines 146-195): the event or the error, and
    the request afterwards.  Go visits the keys of a map in an order of
    its choosing; the loops here take the order of [map_to_list], and the
    event is the same for every other order ([params_any_order],
    [fields_any_order]). *)
Definition MakeEventFromRequest `{!Libraries Value} (c : Connection) (o : Options) (now : Z)
    (r : HttpRequest) : (Event + string) * HttpRequest :=
  let e := eventOfQuery c o now r in
  if decide (ReqMethod r = "POST") then
    match ioutil_ReadAll (ReqBody r) with
    | (inr err, rd) =>
        (inr ("failed to read request body: " +:+ err),
         MkHttpRequest (ReqPath r) (ReqMethod r) (ReqQuery r) rd)
    | (inl bodybuf, _) =>
        let r := MkHttpRequest (ReqPath r) (ReqMethod r) (ReqQuery r)
                   (Unread (inl bodybuf)) in
        if FlattenPosts o then
          match json_Unmarshal bodybuf with
          | inr _ => (inl (Event_Set e "body" (ofString bodybuf)), r)
          | inl nested =>
              match flatten_Flatten nested "p:" (FlattenStyle o) with
              | inr _ => (inl (Event_Set e "body" (ofString bodybuf)), r)
              | inl flat => (inl (setFields (map_to_list flat) e), r)
              end
          end
        else (inl (Event_Set e "body" (ofString bodybuf)), r)
    end
  else (inl e, r).

(** A [Mutator] (line 197), by what it does to the request and to the
    event it is given pointers to. *)
Definition Mutator : Type := HttpRequest → Event → HttpRequest * Event.

(** The handler that [Middleware] returns (lines 202-223), serving one
    request: the calls that reach the writer [w], and how registering the
    event ends, with the connection afterwards.  [fn] is [None] for a nil
    mutator; [now] is the clock when the event is made and [seconds] is
    [time.Since(start).Seconds()] in an [interface{}]. *)
Definition Middleware `{!Libraries Value} (c : Connection) (o : Options) (h : Handler)
    (fn : option Mutator) (now : Z) (seconds : Value) (r : HttpRequest)
  : list WriterCall * outcome Connection :=
  match MakeEventFromRequest c o now r with
  | (inr _, r) => (h r, Done c)
  | (inl event, r) =>
      let '(r, event) := match fn with
                         | Some fn => fn r event
                         | None => (r, event)
                         end in
      let captureWriter := MkCaptureStatus [] 200 in
      let captureWriter := foldl capture captureWriter (h r) in
      let event := Event_Set event "duration" seconds in
      let event := Event_Set event "status-code" (ofInt (status captureWriter)) in
      (ResponseWriter captureWriter,
       '(_, c) ← RegisterEvent c event; Done c)
  end.

(** ** Arithmetic of integers and strings *)

Lemma thresholds_exact :
  eventsThreshold * 100 = maxEventsPerCall * 90
  ∧ sizeThreshold * 100 = maxSizePerCall * 90.
Proof. split; reflexivity. Qed.

Lemma wrap_small z : minInt ≤ z ≤ maxInt → wrap z = z.
Proof.
  unfold wrap, minInt, maxInt. intros Hz.
  rewrite Z.mod_small; lia.
Qed.

Lemma len_nonneg s : 0 ≤ len s.
Proof. unfold len. lia. Qed.

Lemma len_app s t : len (s +:+ t) = len s + len t.
Proof.
  unfold len. induction s as [|a s IH]; simpl.
  - reflexivity.
  - lia.
Qed.

Lemma len_String a s : len (String a s) = 1 + len s.
Proof. unfold len. simpl. lia. Qed.

Lemma bytesOf_nonneg q : 0 ≤ bytesOf q.
Proof. induction q as [|r q IH]; simpl; [lia|]. pose proof (len_nonneg r). lia. Qed.

Lemma bytesOf_app q1 q2 : bytesOf (q1 ++ q2) = bytesOf q1 + bytesOf q2.
Proof. induction q1 as [|r q1 IH]; simpl; lia. Qed.

Lemma len_Join r q sep :
  len (strings_Join (r :: q) sep) = bytesOf (r :: q) + Z.of_nat (length q) * len sep.
Proof.
  unfold strings_Join. revert r. induction q as [|r' q IH]; intros r.
  - simpl. lia.
  - change (String.concat sep (r :: r' :: q))
      with (r +:+ sep +:+ String.concat sep (r' :: q)).
    rewrite !len_app, IH. simpl bytesOf. simpl length. lia.
Qed.

(** A batch is as long as its records, the commas between them and the
    two brackets. *)
Lemma len_formBatch q :
  q ≠ [] → len (formBatch q) = bytesOf q + Z.of_nat (length q) + 1.
Proof.
  destruct q as [|r q]; [done|]. intros _. unfold formBatch.
  rewrite !len_app, len_Join. change (len "[") with 1. change (len "]") with 1.
  change (len ",") with 1. simpl length. lia.
Qed.

(** ** The Aggregator *)

Lemma try_send_inv {A} (ch : chan A) x r :
  try_send ch x = Done r →
  closed ch = false
  ∧ ((length (buf ch) < cap ch)%nat ∧ r = (Chan (buf ch ++ [x]) (cap ch) false, true)
     ∨ (cap ch ≤ length (buf ch))%nat ∧ r = (ch, false)).
Proof.
  unfold try_send, send. destruct (closed ch); [done|].
  case_decide; intros [= <-]; (split; [done|]); [left|right]; split; (done || lia).
Qed.

Lemma makeBatch_empty c : eventQueue c = [] → makeBatch c = Done c.
Proof. intros Hq. unfold makeBatch. rewrite Hq. done. Qed.

(** What a completed [makeBatch] did. *)
Lemma makeBatch_inv c c' :
  makeBatch c = Done c' →
  (eventQueue c = [] ∧ c' = c)
  ∨ (eventQueue c ≠ [] ∧ closed (batches c) = false
     ∧ ∃ ch, c' = set_queueBytes (set_eventQueue (set_batches c ch) []) 0
       ∧ ((length (buf (batches c)) < cap (batches c))%nat
            ∧ ch = Chan (buf (batches c) ++ [formBatch (eventQueue c)])
                        (cap (batches c)) false
          ∨ (cap (batches c) ≤ length (buf (batches c)))%nat ∧ ch = batches c)).
Proof.
  unfold makeBatch. case_decide as Hlen.
  - intros [= <-]. left. split; [|done]. by destruct (eventQueue c).
  - intros H. right.
    assert (eventQueue c ≠ []) as Hne by (intros E; rewrite E in Hlen; done).
    split; [done|].
    destruct (try_send (batches c) (formBatch (eventQueue c))) as [[ch b]| |] eqn:Hs;
      simpl in H; [|done..].
    injection H as <-.
    apply try_send_inv in Hs as [Hopen Hs]. split; [done|].
    exists ch. split; [done|].
    destruct Hs as [[? [= -> _]]|[? [= -> _]]]; [left|right]; done.
Qed.

Lemma makeBatch_flushes c c' : makeBatch c = Done c' → eventQueue c' = [].
Proof. by intros [[? ->]|(_ & _ & ch & -> & _)]%makeBatch_inv. Qed.

Lemma makeBatch_never_blocks c : makeBatch c ≠ Blocked.
Proof.
  unfold makeBatch, try_send. case_decide; [done|].
  destruct (send _ _); done.
Qed.

Lemma makeBatch_total c : closed (batches c) = false → ∃ c', makeBatch c = Done c'.
Proof.
  intros Hopen. unfold makeBatch, try_send, send. case_decide; [by eexists|].
  rewrite Hopen. case_decide; by eexists.
Qed.

Lemma flushed_nonempty c : eventQueue c ≠ [] → flushed c = [eventQueue c].
Proof. unfold flushed. by destruct (eventQueue c). Qed.

Lemma flushed_empty c : eventQueue c = [] → flushed c = [].
Proof. unfold flushed. by intros ->. Qed.

Lemma batchShape_pending q :
  q ≠ [] → Z.of_nat (length q) ≤ eventsThreshold → bytesOf q ≤ sizeThreshold →
  batchShape q.
Proof.
  intros Hne Hn Hb. destruct (List.exists_last Hne) as [q0 [e ->]].
  exists q0, e. split; [done|]. rewrite length_app in Hn. rewrite bytesOf_app in Hb.
  pose proof (bytesOf_nonneg [e]). simpl in *. lia.
Qed.

Lemma makeBatch_pendingOk c c' :
  pendingOk c → makeBatch c = Done c' →
  pendingOk c' ∧ Forall batchShape (flushed c).
Proof.
  intros (Hb & Hn & Hs) [[Hq ->]|(Hne & _ & ch & -> & _)]%makeBatch_inv.
  - split; [done|]. rewrite flushed_empty; done.
  - split; [by repeat split|]. rewrite flushed_nonempty by done.
    constructor; [|done]. apply batchShape_pending; [done..|lia].
Qed.

(** One iteration of the loop keeps the pending records accounted for and
    within the thresholds, and every batch it forms has the shape
    [batchShape]. *)
Lemma loopBody_pendingOk c sel c' fs :
  pendingOk c →
  (∀ e, sel = GotEvent e → len e ≤ maxRecordLen) →
  loopBody c sel = Done (c', fs) →
  pendingOk c' ∧ Forall batchShape fs.
Proof.
  intros Hok Hlen. unfold loopBody. destruct sel as [e|].
  - specialize (Hlen e eq_refl). destruct Hok as (Hb & Hn & Hs).
    pose proof (len_nonneg e). pose proof (bytesOf_nonneg (eventQueue c)).
    assert (int_add (queueBytes c) (len e) = bytesOf (eventQueue c ++ [e])) as Hadd.
    { unfold int_add. rewrite wrap_small.
      - rewrite bytesOf_app. simpl. lia.
      - unfold maxRecordLen, maxInt, minInt in *. lia. }
    destruct (nearLimits _) eqn:Hnear.
    + destruct (makeBatch _) as [c1| |] eqn:Hmk; simpl; [|done..].
      intros [= <- <-].
      apply makeBatch_inv in Hmk as [[Hq _]|(Hne & _ & ch & -> & _)].
      { simpl in Hq. by destruct (eventQueue c). }
      split; [by repeat split|]. rewrite flushed_nonempty by done. simpl.
      constructor; [|done]. exists (eventQueue c), e. split; [done|]. lia.
    + intros [= <- <-]. split; [|done].
      unfold nearLimits in Hnear. simpl in Hnear.
      apply orb_false_iff in Hnear as [H1 H2].
      apply bool_decide_eq_false in H1, H2.
      repeat split; simpl; lia.
  - destruct (makeBatch c) as [c1| |] eqn:Hmk; simpl; [|done..].
    intros [= <- <-]. by apply makeBatch_pendingOk.
Qed.

(** ** The Dispatcher *)

Lemma set_unsent_eta c : set_unsent c (MkList (elems (unsent c)) (fresh (unsent c))) = c.
Proof. destruct c as [? ? ? ? ? ? ? ? [? ?] ?]. reflexivity. Qed.

Lemma sendBatch_frame c l w batch : sendBatch (set_unsent c l) w batch = sendBatch c w batch.
Proof. reflexivity. Qed.

Lemma passResults_frame c l w bs : passResults (set_unsent c l) w bs = passResults c w bs.
Proof.
  revert w. induction bs as [|b bs IH]; intros w; cbn [passResults]; [done|].
  rewrite sendBatch_frame. destruct (sendBatch c w b) as [ok w1]. by rewrite IH.
Qed.

(** Each call of [sendBatch] hands at most one request to [client.Do]. *)
Lemma sendBatch_wire c w batch ok w' :
  sendBatch c w batch = (ok, w') →
  (w' = w ∧ ok = false) ∨ (∃ a, w' = w ++ [a] ∧ attemptOf c batch a).
Proof.
  unfold sendBatch. fold (endpoint c).
  destruct (http_NewRequest _ _ _) as [req|err] eqn:Hreq.
  - intros H. right. eexists. split; [|by exists req].
    destruct (client_Do _ _ _) as [resp|]; [|by injection H].
    case_decide; [|by injection H].
    destruct (ReadAll resp); by injection H.
  - intros [= <- <-]. by left.
Qed.

Lemma passResults_wire c w bs oks w' :
  passResults c w bs = (oks, w') →
  length oks = length bs
  ∧ ∃ atts, w' = w ++ atts ∧ Forall (λ a, ∃ b, b ∈ bs ∧ attemptOf c b a) atts.
Proof.
  revert w oks w'. induction bs as [|b bs IH]; intros w oks w'; simpl.
  - intros [= <- <-]. split; [done|]. exists []. by rewrite app_nil_r.
  - destruct (sendBatch c w b) as [ok w1] eqn:Hs.
    destruct (passResults c w1 bs) as [oks' w2] eqn:Hp.
    intros [= <- <-]. apply IH in Hp as [Hlen (atts & -> & Hatts)].
    split; [simpl; lia|].
    assert (Forall (λ a, ∃ b0, b0 ∈ b :: bs ∧ attemptOf c b0 a) atts) as Hatts'.
    { eapply Forall_impl; [done|]. intros a (b0 & ? & ?). exists b0. split; [by right|done]. }
    apply sendBatch_wire in Hs as [[-> _]|(a & -> & Ha)].
    + by exists atts.
    + exists (a :: atts). split; [by rewrite <-app_assoc|].
      constructor; [|done]. exists b. split; [by left|done].
Qed.

Lemma passResults_cons c w b bs :
  passResults c w (b :: bs)
  = ((sendBatch c w b).1 :: (passResults c (sendBatch c w b).2 bs).1,
     (passResults c (sendBatch c w b).2 bs).2).
Proof.
  cbn [passResults]. destruct (sendBatch c w b) as [ok w1]. cbn [fst snd].
  destruct (passResults c w1 bs). reflexivity.
Qed.

Lemma keepFailed_cons e es ok oks :
  keepFailed (e :: es) (ok :: oks)
  = if ok then keepFailed es oks else e :: keepFailed es oks.
Proof. reflexivity. Qed.

Lemma keepFailed_sublist es oks : keepFailed es oks `sublist_of` es.
Proof.
  revert oks. induction es as [|e es IH]; intros [|[] oks]; simpl;
    auto using sublist_nil_l, sublist_skip, sublist_cons.
Qed.

Lemma after_middle pre e post :
  id e ∉ id <$> pre → after (id e) (pre ++ e :: post) = head post.
Proof.
  induction pre as [|x pre IH]; simpl; intros Hnin.
  - by rewrite decide_True.
  - rewrite decide_False.
    + apply IH. intros Hin. apply Hnin. by right.
    + intros Heq. apply Hnin. rewrite Heq. by left.
Qed.

Lemma filter_all {A} (P : A → Prop) `{∀ x, Decision (P x)} (l : list A) :
  Forall P l → filter P l = l.
Proof.
  induction 1 as [|x l Hx _ IH]; [done|]. by rewrite filter_cons_True, IH.
Qed.

Lemma Remove_middle pre e post :
  NoDup (id <$> pre ++ e :: post) →
  filter (λ x, id x ≠ id e) (pre ++ e :: post) = pre ++ post.
Proof.
  rewrite fmap_app, fmap_cons. intros (Hpre & Hdisj & Hpost)%NoDup_app.
  apply NoDup_cons in Hpost as [Hnin Hpost].
  rewrite filter_app, filter_cons_False by naive_solver.
  f_equal; apply filter_all, Forall_forall; intros x Hx Heq.
  - apply (Hdisj (id x)); [by apply list_elem_of_fmap_2|]. rewrite Heq. by left.
  - apply Hnin. rewrite <-Heq. by apply list_elem_of_fmap_2.
Qed.

Lemma Forall_sublist_elems {A} (P : A → Prop) (l k : list A) :
  l `sublist_of` k → Forall P k → Forall P l.
Proof.
  rewrite !Forall_forall. intros Hsub HP x Hx. apply HP. by eapply elem_of_sublist.
Qed.

Lemma sendUnsent_loop_end fuel c w : sendUnsent_loop fuel c w None = Some (c, w).
Proof. by destruct fuel. Qed.

(** The loop of [sendUnsent], started at an element of the list with fuel
    for the elements from there on, ends; it leaves the elements before
    the start alone and keeps, of the others, those whose delivery failed. *)
Lemma sendUnsent_loop_spec post : ∀ pre e fuel c w,
  elems (unsent c) = pre ++ e :: post →
  NoDup (id <$> pre ++ e :: post) →
  (length (e :: post) ≤ fuel)%nat →
  sendUnsent_loop fuel c w (Some e)
  = Some (set_unsent c
            (MkList (pre ++ keepFailed (e :: post)
                              (passResults c w (clist.Value <$> e :: post)).1)
                    (fresh (unsent c))),
          (passResults c w (clist.Value <$> e :: post)).2).
Proof.
  induction post as [|e' post IH]; intros pre e fuel c w Hel Hnd Hfuel;
    (destruct fuel as [|fuel]; [simpl in Hfuel; lia|]);
    cbn [sendUnsent_loop]; unfold Next;
    (rewrite Hel, after_middle; last first);
    try (rewrite fmap_app in Hnd; apply NoDup_app in Hnd as (_ & Hd & _);
         intros Hin; apply (Hd _ Hin); simpl; by left);
    rewrite fmap_cons, passResults_cons;
    destruct (sendBatch c w (clist.Value e)) as [ok w1] eqn:Hs;
    cbn [fst snd]; rewrite keepFailed_cons.
  - rewrite sendUnsent_loop_end. cbn [keepFailed]. do 2 f_equal. destruct ok.
    + unfold Remove. by rewrite Hel, Remove_middle.
    + rewrite <-Hel. by rewrite set_unsent_eta.
  - cbn [head]. destruct ok.
    + rewrite (IH pre).
      * by rewrite passResults_frame.
      * unfold Remove. cbn [unsent set_unsent elems]. by rewrite Hel, Remove_middle.
      * rewrite !fmap_app, !fmap_cons in *.
        apply NoDup_app in Hnd as (? & Hd & Hpost). apply NoDup_app.
        apply NoDup_cons in Hpost as [_ ?]. split_and!; [done| |done].
        intros x Hx Hin. apply (Hd x Hx). by right.
      * simpl in Hfuel. simpl. lia.
    + rewrite (IH (pre ++ [e])).
      * by rewrite <-app_assoc.
      * by rewrite <-app_assoc.
      * by rewrite <-app_assoc.
      * simpl in Hfuel. simpl. lia.
Qed.

(** [sendUnsent] always ends, and it leaves in the list exactly the
    elements whose delivery failed, where they were. *)
Lemma sendUnsent_spec c w :
  NoDup (id <$> elems (unsent c)) →
  sendUnsent c w
  = Some (set_unsent c
            (MkList (keepFailed (elems (unsent c))
                       (passResults c w (clist.Value <$> elems (unsent c))).1)
                    (fresh (unsent c))),
          (passResults c w (clist.Value <$> elems (unsent c))).2).
Proof.
  intros Hnd. unfold sendUnsent, Front, Len.
  destruct (elems (unsent c)) as [|e post] eqn:Hel.
  - simpl. rewrite <-Hel. by rewrite set_unsent_eta.
  - simpl head. by rewrite (sendUnsent_loop_spec post [] e).
Qed.

(** ** Effects of the Aggregator on the connection *)

Lemma makeBatch_effect c c' : makeBatch c = Done c' → aggEffect c c' (flushed c).
Proof.
  intros [[Hq ->]|(Hne & Hopen & ch & -> & Hch)]%makeBatch_inv; unfold aggEffect.
  - rewrite flushed_empty by done. split_and!; try done. by left.
  - rewrite flushed_nonempty by done. simpl.
    destruct Hch as [[Hroom ->]|[Hfull ->]]; simpl; split_and!; try done.
    + right. exists (eventQueue c). split_and!; try done. by right.
    + right. exists (eventQueue c). split_and!; try done. by left.
Qed.

Lemma loopBody_effect c sel c' fs :
  loopBody c sel = Done (c', fs) → aggEffect c c' fs.
Proof.
  unfold loopBody. destruct sel as [e|].
  - destruct (nearLimits _).
    + destruct (makeBatch _) as [c1| |] eqn:Hmk; simpl; [|done..].
      intros [= <- <-]. apply makeBatch_effect in Hmk. unfold aggEffect in *.
      simpl in *. done.
    + intros [= <- <-]. unfold aggEffect. simpl. split_and!; try done. by left.
  - destruct (makeBatch c) as [c1| |] eqn:Hmk; simpl; [|done..].
    intros [= <- <-]. by apply makeBatch_effect.
Qed.

Lemma RegisterEvent_inv c e r c' :
  RegisterEvent c e = Done (r, c') →
  (∃ err, json_Marshal (values e) = inr err
          ∧ r = Some ("could not marshal event: " +:+ err) ∧ c' = c)
  ∨ (∃ asjson, json_Marshal (values e) = inl asjson ∧ r = None
               ∧ closed (events c) = false
               ∧ (length (buf (events c)) < cap (events c))%nat
               ∧ c' = set_events c (Chan (buf (events c) ++ [asjson])
                                         (cap (events c)) false)).
Proof.
  unfold RegisterEvent. destruct (json_Marshal (values e)) as [j|err].
  - unfold send. destruct (closed (events c)) eqn:Hc; [done|].
    case_decide; [|done]. simpl. intros [= <- <-]. right. by exists j.
  - intros [= <- <-]. left. by exists err.
Qed.

Lemma recv_inv {A} (ch : chan A) v ch' :
  recv ch = Done (v, ch') →
  (∃ x rest, buf ch = x :: rest ∧ v = Some x ∧ ch' = Chan rest (cap ch) (closed ch))
  ∨ (buf ch = [] ∧ closed ch = true ∧ v = None ∧ ch' = ch).
Proof.
  unfold recv. destruct (buf ch) as [|x rest] eqn:Hb.
  - destruct (closed ch); [|done]. intros [= <- <-]. by right.
  - intros [= <- <-]. left. by exists x, rest.
Qed.

Lemma send_inv {A} (ch : chan A) x ch' :
  send ch x = Done ch' →
  closed ch = false ∧ (length (buf ch) < cap ch)%nat
  ∧ ch' = Chan (buf ch ++ [x]) (cap ch) false.
Proof.
  unfold send. destruct (closed ch); [done|]. case_decide; [|done].
  by intros [= <-].
Qed.

Lemma close_inv {A} (ch : chan A) ch' :
  close ch = Done ch' → closed ch = false ∧ ch' = Chan (buf ch) (cap ch) true.
Proof. unfold close. destruct (closed ch); [done|]. by intros [= <-]. Qed.

(** [sendUnsent] changes nothing but the [unsent] list. *)
Lemma sendUnsent_loop_frame fuel : ∀ c w elem c' w',
  sendUnsent_loop fuel c w elem = Some (c', w') → c' = set_unsent c (unsent c').
Proof.
  induction fuel as [|fuel IH]; intros c w [e|] c' w'; simpl; try done.
  - intros [= <- <-]. by destruct c.
  - destruct (sendBatch c w (clist.Value e)) as [[] w1]; intros H%IH.
    + rewrite H at 1. by destruct c.
    + done.
  - intros [= <- <-]. by destruct c.
Qed.

Lemma sendUnsent_frame c w c' w' :
  sendUnsent c w = Some (c', w') → ∃ l, c' = set_unsent c l.
Proof. intros H%sendUnsent_loop_frame. by exists (unsent c'). Qed.

(** ** Invariants of the running system *)

Lemma reachable_ind account key (P : Sys → Prop) :
  P (initial account key) →
  (∀ s s', reachable account key s → P s → step s s' → P s') →
  ∀ s, reachable account key s → P s.
Proof.
  intros Hinit Hstep. unfold reachable in *.
  apply rtc_ind_r; [done|]. intros s s' Hs Hst HP. by apply (Hstep s).
Qed.

(** Replaces the premises of a transition by what they say about the
    connection before and after. *)
Ltac step_facts :=
  repeat match goal with
  | H : RegisterEvent _ _ = Done _ |- _ =>
      apply RegisterEvent_inv in H
        as [(? & ? & ? & ?)|(? & ? & ? & ? & ? & ?)]
  | H : recv _ = Done _ |- _ =>
      apply recv_inv in H as [(? & ? & ? & ? & ?)|(? & ? & ? & ?)]
  | H : send _ _ = Done _ |- _ => apply send_inv in H as (? & ? & ?)
  | H : close _ = Done _ |- _ => apply close_inv in H as (? & ?)
  | H : loopBody _ _ = Done _ |- _ => apply loopBody_effect in H
  | H : makeBatch _ = Done _ |- _ =>
      pose proof (makeBatch_flushes _ _ H); apply makeBatch_effect in H
  | H : sendUnsent _ _ = Some _ |- _ => apply sendUnsent_frame in H as [? ?]
  | H : aggEffect _ _ _ |- _ =>
      destruct H as (? & ? & ? & ? & ? & ? & ? & ? & ? & ?)
  end; simplify_eq/=.

Lemma inv_handoff account key s : reachable account key s → handoffOk s.
Proof.
  revert s. apply reachable_ind.
  - split; simpl; unfold sendQueueSize; lia.
  - intros s s' _ [Hcap Hlen] Hstep. unfold handoffOk in *.
    inversion Hstep; subst; step_facts; try done;
      repeat match goal with
      | H : _ ∨ _ |- _ => destruct H
      | H : _ ∧ _ |- _ => destruct H
      | H : ∃ _, _ |- _ => destruct H
      end; simplify_eq/=;
      repeat match goal with
      | H : batches ?c' = _ |- context [batches ?c'] => rewrite H
      | H : buf (batches ?c') = _ |- context [buf (batches ?c')] => rewrite H
      | H : cap (batches ?c') = _ |- context [cap (batches ?c')] => rewrite H
      | H : buf ?ch = _, H' : context [buf ?ch] |- _ => rewrite H in H'
      end; simpl in *; rewrite ?length_app; simpl; try (split; [done|]); try lia.
Qed.

Lemma wf_PushBack l v : wf l → wf (PushBack l v).
Proof.
  intros [Hnd Hlt]. split; simpl.
  - rewrite fmap_app. apply NoDup_app. split_and!; [done| |apply NoDup_singleton].
    intros i (e & -> & He)%list_elem_of_fmap [= Hi]%list_elem_of_singleton.
    rewrite Forall_forall in Hlt. specialize (Hlt e He). simpl in Hi. lia.
  - apply Forall_app. split.
    + eapply Forall_impl; [done|]. simpl. lia.
    + constructor; [simpl; lia|done].
Qed.

Lemma wf_sublist l es : wf l → es `sublist_of` elems l → wf (MkList es (fresh l)).
Proof.
  intros [Hnd Hlt] Hsub. split; simpl.
  - eapply sublist_NoDup; [done|]. by apply fmap_sublist.
  - rewrite Forall_forall in *. intros e He. apply Hlt. by eapply elem_of_sublist.
Qed.

(** One pass of [sendUnsent] over a well formed list: it ends, changes
    only the list, and leaves there the elements whose delivery failed. *)
Lemma sendUnsent_pass c w c' w' :
  wf (unsent c) → sendUnsent c w = Some (c', w') →
  ∃ oks,
    passResults c w (clist.Value <$> elems (unsent c)) = (oks, w')
    ∧ c' = set_unsent c (MkList (keepFailed (elems (unsent c)) oks) (fresh (unsent c)))
    ∧ wf (unsent c').
Proof.
  intros Hwf. rewrite sendUnsent_spec by apply Hwf.
  destruct (passResults _ _ _) as [oks w2] eqn:Hp. simpl. intros [= <- <-].
  exists oks. split_and!; [done..|]. simpl.
  apply wf_sublist; [done|]. apply keepFailed_sublist.
Qed.

Lemma inv_backlog account key s : reachable account key s → backlogOk s.
Proof.
  revert s. apply reachable_ind.
  - split_and!; [split; simpl; constructor|constructor..].
  - intros s s' _ (Hwf & Hall & Hne) Hstep. unfold backlogOk, backlog in *.
    rewrite Forall_app in Hall. destruct Hall as [Hun Hbuf].
    inversion Hstep; subst; simpl in *.
    (* sendBatches: one more batch, then a pass *)
    7: { apply recv_inv in H as [(b & rest & Hb & [= <-] & ->)|(_ & _ & [=] & _)].
         apply sendUnsent_pass in H0 as (oks & _ & -> & Hwf'); simpl;
           [|by apply wf_PushBack].
         split_and!; [done| |done].
         rewrite Hb in Hbuf. apply Forall_cons in Hbuf as [Hb1 Hrest].
         apply Forall_app. split; [|done].
         apply Forall_fmap. eapply Forall_sublist_elems; [apply keepFailed_sublist|].
         simpl. apply Forall_app. split; [by rewrite <-Forall_fmap|].
         by constructor. }
    (* the final pass *)
    8: { apply sendUnsent_pass in H as (oks & _ & -> & Hwf'); simpl; [|done].
         split_and!; [done| |done]. apply Forall_app. split; [|done].
         apply Forall_fmap. eapply Forall_sublist_elems; [apply keepFailed_sublist|].
         by rewrite <-Forall_fmap. }
    all: step_facts; try (split_and!; [done|apply Forall_app; by split|done]).
    all: repeat match goal with
         | H : _ ∨ _ |- _ => destruct H
         | H : _ ∧ _ |- _ => destruct H
         | H : ∃ _, _ |- _ => destruct H
         end; simplify_eq/=;
         repeat match goal with
         | H : unsent ?c' = _ |- context [unsent ?c'] => rewrite H
         | H : batches ?c' = _ |- context [batches ?c'] => rewrite H
         | H : buf (batches ?c') = _ |- context [buf (batches ?c')] => rewrite H
         | H : buf ?ch = _, H' : context [buf ?ch] |- _ => rewrite H in H'
         | H : flushed ?c = _ |- context [flushed ?c] => rewrite H
         end; rewrite ?app_nil_r;
         (split; [done|]); rewrite ?Forall_app; split_and?;
         try (eapply Forall_impl; [done|];
              intros b (q & Hq & ->); exists q; split; [set_solver|done]);
         try (constructor; [|done]; eexists; split; [|done]; set_solver);
         try done; try by constructor.
Qed.

Lemma inv_identity account key s : reachable account key s → identityOk account key s.
Proof.
  revert s. apply reachable_ind.
  - split_and!; simpl; auto.
  - intros s s' _ (Hacc & Hkey & Ht) Hstep. unfold identityOk in *.
    inversion Hstep; subst; simpl in *; step_facts; try done;
      repeat match goal with
      | H : NewRelicAccountId ?c' = _ |- context [NewRelicAccountId ?c'] => rewrite H
      | H : InsightsAPIKey ?c' = _ |- context [InsightsAPIKey ?c'] => rewrite H
      | H : httpTimeout ?c' = _ |- context [httpTimeout ?c'] => rewrite H
      end; auto.
Qed.

Lemma deliveryOf_mono account key fs fs' a :
  deliveryOf account key fs a → deliveryOf account key (fs ++ fs') a.
Proof.
  intros (q & req & Hq & ?). exists q, req. split; [|done].
  apply elem_of_app. by left.
Qed.

(** The requests a pass puts on the wire are deliveries of the batches
    of the list. *)
Lemma pass_deliveries account key fs c w oks w' :
  NewRelicAccountId c = account → InsightsAPIKey c = key →
  httpTimeout c = defaultHttpTimeout ∨ httpTimeout c = fastHttpTimeout →
  Forall (λ b, ∃ q, q ∈ fs ∧ b = formBatch q) (clist.Value <$> elems (unsent c)) →
  passResults c w (clist.Value <$> elems (unsent c)) = (oks, w') →
  ∃ atts, w' = w ++ atts
          ∧ Forall (deliveryOf account key fs) atts
          ∧ Forall (λ a, clientTimeout a = httpTimeout c) atts.
Proof.
  intros Hacc Hkey Ht Hall (_ & atts & -> & Hatts)%passResults_wire.
  exists atts. split; [done|]. rewrite Forall_forall in Hall.
  split; (eapply Forall_impl; [done|]); simpl;
    intros a (b & Hb & req & Hreq & ->); simpl; [|done].
  destruct (Hall b Hb) as (q & Hq & ->).
  exists q, req. unfold endpoint in Hreq. rewrite Hacc in Hreq.
  rewrite Hkey. by split_and!.
Qed.

Lemma inv_wire account key s :
  reachable account key s → Forall (deliveryOf account key (formed s)) (wire s).
Proof.
  revert s. apply reachable_ind.
  - constructor.
  - intros s s' Hs Hw Hstep.
    destruct (inv_backlog _ _ _ Hs) as (Hwf & Hall & _).
    destruct (inv_identity _ _ _ Hs) as (Hacc & Hkey & Ht).
    unfold backlog in Hall. apply Forall_app in Hall as [Hun Hbuf].
    inversion Hstep; subst; simpl in *;
      try done;
      try (eapply Forall_impl; [done|]; intros; by apply deliveryOf_mono).
    + apply recv_inv in H as [(b & rest & Hb & [= <-] & ->)|(_ & _ & [=] & _)].
      apply sendUnsent_pass in H0 as (oks & Hp & _ & _); [|by apply wf_PushBack].
      eapply (pass_deliveries _ _ fs) in Hp as (atts & -> & Hatts & _);
        simpl; try done.
      * apply Forall_app. by split.
      * rewrite fmap_app. apply Forall_app. split; [done|].
        rewrite Hb in Hbuf. apply Forall_cons in Hbuf as [Hb1 _]. by constructor.
    + apply sendUnsent_pass in H as (oks & Hp & _ & _); [|done].
      eapply (pass_deliveries _ _ fs) in Hp as (atts & -> & Hatts & _);
        simpl; auto.
      apply Forall_app. by split.
Qed.

Lemma finalPassDone_frame s s' :
  unsent (conn s') = unsent (conn s) → wire s' = wire s →
  finalPassDone s → finalPassDone s'.
Proof. unfold finalPassDone. by intros -> ->. Qed.

Lemma final_pass_done c w c' w' a m fs d :
  wf (unsent c) → closed (batches c) = true → buf (batches c) = [] →
  sendUnsent (set_httpTimeout c fastHttpTimeout) w = Some (c', w') →
  finalPassDone (MkSys c' w' fs a d m).
Proof.
  intros Hwf Hclosed Hbuf Hsend.
  pose proof Hsend as (oks & Hp & Hc' & _)%sendUnsent_pass; [|done].
  exists (set_httpTimeout c fastHttpTimeout), w. split_and!; try done.
  - rewrite Hsend. simpl. do 2 f_equal. rewrite Hc'. by destruct c.
  - apply passResults_wire in Hp as (_ & atts & -> & Hatts). exists atts.
    split; [done|]. eapply Forall_impl; [done|].
    by intros a0 (b & _ & req & _ & ->).
Qed.

(** Uses the implications among the hypotheses whose premises hold, and
    splits the conjunctions and disjunctions that come out. *)
Ltac chain :=
  repeat match goal with
  | H : _ ∨ _ |- _ => destruct H
  | H : _ ∧ _ |- _ => destruct H
  | H : ?A → _ |- _ =>
      let HA := fresh in
      assert A as HA
        by first [assumption | congruence | left; congruence
                 | right; left; congruence | right; right; congruence
                 | right; congruence];
      specialize (H HA); clear HA
  end.

Lemma inv_protocol account key s : reachable account key s → protocolOk s.
Proof.
  revert s. apply reachable_ind.
  - unfold protocolOk. simpl. split_and!; try done; intros; intuition congruence.
  - intros s s' Hs Hinv Hstep.
    destruct (inv_backlog _ _ _ Hs) as [Hwf _].
    destruct Hinv as (P1 & P2 & P3 & P4 & P5 & P6 & P7 & P8 & P9 & P10 & P11 & P12).
    inversion Hstep; subst; unfold protocolOk; simpl in *.
    9: { destruct P9 as [Hcl Hb]; [done|].
         pose proof (final_pass_done _ _ _ _ a m fs AtBatchesDone Hwf Hcl Hb H) as Hfin.
         apply sendUnsent_frame in H as [l ->]. simpl.
         split_and!; try done; intros; intuition congruence. }
    all: step_facts;
      repeat match goal with
      | H : events ?c' = _ |- _ => rewrite H
      | H : eventsDone ?c' = _ |- _ => rewrite H
      | H : batchesDone ?c' = _ |- _ => rewrite H
      | H : closed (batches ?c') = _ |- _ => rewrite H
      | H : buf ?ch = _, H' : context [buf ?ch] |- _ => rewrite H in H'
      | H : closed ?ch = _, H' : context [closed ?ch] |- _ => rewrite H in H'
      end.
    all: split_and!; try done; intros;
      try (eapply finalPassDone_frame; [| |apply P11; eassumption]; simpl; congruence);
      try congruence; chain; try congruence; try done;
      try (by left); try (by right).
Qed.

Lemma inv_records account key s :
  recordsFit → reachable account key s → recordsOk s.
Proof.
  intros Hfit. revert s. apply reachable_ind.
  - split_and!; simpl; try done; by split_and!.
  - intros s s' _ (Hpend & Hev & Hfs) Hstep. unfold recordsOk in *.
    inversion Hstep; subst; simpl in *.
    + (* RegisterEvent *)
      apply RegisterEvent_inv in H as [(? & ? & ? & ->)|(j & Hj & _ & _ & _ & ->)];
        [done|]. simpl. split_and!; [done| |done].
      apply Forall_app. split; [done|]. constructor; [|done]. by eapply Hfit.
    + (* an event arrives *)
      apply recv_inv in H as [(e' & rest & Hb & [= <-] & ->)|(_ & _ & [=] & _)].
      rewrite Hb in Hev. apply Forall_cons in Hev as [He Hrest].
      pose proof H0 as Heff%loopBody_effect.
      apply loopBody_pendingOk in H0 as [Hpend' Hfs']; [| done |by intros ? [= <-]].
      destruct Heff as (_ & _ & -> & _). simpl.
      split_and!; [done..|]. apply Forall_app. by split.
    + (* the ticker fires *)
      pose proof H as Heff%loopBody_effect.
      apply loopBody_pendingOk in H as [Hpend' Hfs']; [|done..].
      destruct Heff as (_ & _ & -> & _).
      split_and!; [done..|]. apply Forall_app. by split.
    + apply recv_inv in H as [(? & ? & ? & [=] & _)|(_ & _ & _ & ->)].
      by destruct c.
    + (* the final flush *)
      pose proof H as Heff%makeBatch_effect.
      apply makeBatch_pendingOk in H as [Hpend' Hfs']; [|done].
      destruct Heff as (_ & _ & -> & _).
      split_and!; [done..|]. apply Forall_app. by split.
    + done.
    + by apply sendUnsent_frame in H0 as [l ->].
    + done.
    + by apply sendUnsent_frame in H as [l ->].
    + done.
    + by apply close_inv in H as [_ ->].
    + done.
    + done.
    + done.
Qed.

Lemma flushed_records (P : string → Prop) c :
  Forall P (eventQueue c) → Forall (Forall P) (flushed c).
Proof.
  unfold flushed. destruct (eventQueue c) as [|r q]; [constructor|].
  intros Hq. constructor; [exact Hq|constructor].
Qed.

(** The records pending after an iteration, and the records of the batches
    it formed, are among those pending before and the one received. *)
Lemma loopBody_records (P : string → Prop) c sel c' fs :
  Forall P (eventQueue c) → (∀ e, sel = GotEvent e → P e) →
  loopBody c sel = Done (c', fs) →
  Forall P (eventQueue c') ∧ Forall (Forall P) fs.
Proof.
  intros Hq He. unfold loopBody. destruct sel as [e|].
  - assert (Forall P (eventQueue c ++ [e])) as Hq'.
    { apply Forall_app. split; [done|]. constructor; [by apply He|done]. }
    destruct (nearLimits _).
    + destruct (makeBatch _) as [c1| |] eqn:Hmk; simpl; [|done..].
      intros [= <- <-]. split.
      * apply makeBatch_flushes in Hmk. rewrite Hmk. constructor.
      * by apply flushed_records.
    + intros [= <- <-]. by split.
  - destruct (makeBatch c) as [c1| |] eqn:Hmk; simpl; [|done..].
    intros [= <- <-]. split.
    + apply makeBatch_flushes in Hmk. rewrite Hmk. constructor.
    + by apply flushed_records.
Qed.

Lemma inv_provenance account key s : reachable account key s → provenanceOk s.
Proof.
  revert s. apply reachable_ind.
  - split_and!; constructor.
  - intros s s' _ (Hev & Hq & Hfs) Hstep. unfold provenanceOk in *.
    inversion Hstep; subst; simpl in *.
    + apply RegisterEvent_inv in H as [(? & ? & ? & ->)|(j & Hj & _ & _ & _ & ->)];
        [done|]. simpl. split_and!; [|done..].
      apply Forall_app. split; [done|]. constructor; [by exists e|done].
    + apply recv_inv in H as [(e' & rest & Hb & [= <-] & ->)|(_ & _ & [=] & _)].
      rewrite Hb in Hev. apply Forall_cons in Hev as [He Hrest].
      pose proof H0 as Heff%loopBody_effect.
      apply (loopBody_records marshalled) in H0 as [Hq' Hfs'];
        [|done|by intros ? [= <-]].
      destruct Heff as (_ & _ & -> & _). simpl.
      split_and!; [done..|]. apply Forall_app. by split.
    + pose proof H as Heff%loopBody_effect.
      apply (loopBody_records marshalled) in H as [Hq' Hfs']; [|done..].
      destruct Heff as (_ & _ & -> & _).
      split_and!; [done..|]. apply Forall_app. by split.
    + apply recv_inv in H as [(? & ? & ? & [=] & _)|(_ & _ & _ & ->)]. done.
    + pose proof H as Heff%makeBatch_effect.
      pose proof (makeBatch_flushes _ _ H) as Hnil.
      destruct Heff as (_ & _ & -> & _). rewrite Hnil.
      split_and!; [done|constructor|]. apply Forall_app. split; [done|].
      by apply flushed_records.
    + done.
    + by apply sendUnsent_frame in H0 as [l ->].
    + done.
    + by apply sendUnsent_frame in H as [l ->].
    + done.
    + by apply close_inv in H as [_ ->].
    + done.
    + done.
    + done.
Qed.

(** ** The Aggregator: claims C3, C7 and C10 *)

(** Replaces the limits by their values. *)
Ltac constants :=
  change eventsThreshold with 900 in *;
  change sizeThreshold with 4500000 in *;
  change maxLastRecord with 499098 in *;
  change maxEventsPerCall with 1000 in *;
  change maxSizePerCall with 5000000 in *.

Lemma batchShape_bounds q :
  batchShape q →
  q ≠ []
  ∧ Z.of_nat (length q) ≤ maxEventsPerCall
  ∧ ∀ e, last q = Some e → len e ≤ maxLastRecord →
         len (formBatch q) ≤ maxSizePerCall.
Proof.
  intros (q0 & e0 & -> & Hn & Hb).
  assert (q0 ++ [e0] ≠ []) as Hne by (by destruct q0).
  split_and!; [done| |].
  - rewrite length_app. simpl. constants. lia.
  - intros e. rewrite last_snoc. intros [= <-] He.
    rewrite len_formBatch, bytesOf_app, length_app by done. simpl.
    constants. lia.
Qed.

Lemma loopBody_early_flush c e c' fs :
  loopBody c (GotEvent e) = Done (c', fs) →
  eventsThreshold < Z.of_nat (length (eventQueue c ++ [e]))
  ∨ sizeThreshold < int_add (queueBytes c) (len e) →
  fs = [eventQueue c ++ [e]] ∧ eventQueue c' = [] ∧ queueBytes c' = 0.
Proof.
  unfold loopBody. intros Hbody Hover.
  destruct (nearLimits _) eqn:Hnear in Hbody; last first.
  { unfold nearLimits in Hnear. simpl in Hnear.
    apply orb_false_iff in Hnear as [H1%bool_decide_eq_false H2%bool_decide_eq_false].
    destruct Hover; contradiction. }
  destruct (makeBatch _) as [c1| |] eqn:Hmk; simpl in Hbody; [|done..].
  injection Hbody as <- <-.
  apply makeBatch_inv in Hmk as [[Hq _]|(Hne & _ & ch & -> & _)].
  { simpl in Hq. by destruct (eventQueue c). }
  rewrite flushed_nonempty by done. done.
Qed.

(** C3 (as amended).  Whenever a record arrives that takes the pending
    count above 90% of [maxEventsPerCall] or the pending bytes above 90% of
    [maxSizePerCall], the same iteration flushes; so the pending records
    are within both thresholds at every reachable state, and every batch
    ever formed has at most [maxEventsPerCall] records.  Its byte length is
    at most [maxSizePerCall] when its last record is at most
    [maxLastRecord] (499,098) bytes long. *)
Theorem early_flush_bounds account key s :
  recordsFit → reachable account key s →
  (∀ c e c' fs,
      loopBody c (GotEvent e) = Done (c', fs) →
      eventsThreshold < Z.of_nat (length (eventQueue c ++ [e]))
      ∨ sizeThreshold < int_add (queueBytes c) (len e) →
      fs = [eventQueue c ++ [e]] ∧ eventQueue c' = [] ∧ queueBytes c' = 0)
  ∧ Z.of_nat (length (eventQueue (conn s))) ≤ eventsThreshold
  ∧ queueBytes (conn s) ≤ sizeThreshold
  ∧ ∀ q, q ∈ formed s →
         Z.of_nat (length q) ≤ maxEventsPerCall
         ∧ ∀ e, last q = Some e → len e ≤ maxLastRecord →
                len (formBatch q) ≤ maxSizePerCall.
Proof.
  intros Hfit Hs. destruct (inv_records _ _ _ Hfit Hs) as ((_ & Hn & Hb) & _ & Hfs).
  split_and!; [apply loopBody_early_flush|done..|].
  intros q Hq. rewrite Forall_forall in Hfs.
  by destruct (batchShape_bounds q (Hfs q Hq)) as (_ & ? & ?).
Qed.

(** C7.  [makeBatch] on an empty pending sequence returns at once with the
    connection as it was and forms no batch; and in every reachable state
    every batch of the backlog, in the channel or in the [unsent] list, was
    formed from a pending sequence that was not empty. *)
Theorem empty_flush_is_noop account key s :
  reachable account key s →
  (∀ c, eventQueue c = [] → makeBatch c = Done c ∧ flushed c = [])
  ∧ Forall (λ q, q ≠ []) (formed s)
  ∧ ∀ b, b ∈ backlog (conn s) → ∃ q, q ≠ [] ∧ q ∈ formed s ∧ b = formBatch q.
Proof.
  intros Hs. destruct (inv_backlog _ _ _ Hs) as (_ & Hall & Hne).
  split_and!; [|done|].
  - intros c Hq. split; [by apply makeBatch_empty|by apply flushed_empty].
  - intros b Hb. rewrite Forall_forall in Hall. rewrite Forall_forall in Hne.
    destruct (Hall b Hb) as (q & Hq & ->). exists q. split_and!; auto.
Qed.

(** C10.  At every reachable state [queueBytes] is the sum of the byte
    lengths of the records in [eventQueue]; a flush of pending records
    leaves the queue empty and the counter at zero, whether the batch went
    into the channel or was dropped because the channel was full. *)
Theorem queueBytes_is_pending_bytes account key s :
  recordsFit → reachable account key s →
  queueBytes (conn s) = bytesOf (eventQueue (conn s))
  ∧ (∀ c', makeBatch (conn s) = Done c' →
           eventQueue c' = [] ∧ queueBytes c' = 0)
  ∧ (closed (batches (conn s)) = false →
     (cap (batches (conn s)) ≤ length (buf (batches (conn s))))%nat →
     eventQueue (conn s) ≠ [] →
     makeBatch (conn s) = Done (set_queueBytes (set_eventQueue (conn s) []) 0)).
Proof.
  intros Hfit Hs. destruct (inv_records _ _ _ Hfit Hs) as ((Hb & _) & _).
  split_and!; [done| |].
  - intros c' [[Hq ->]|(_ & _ & ch & -> & _)]%makeBatch_inv; [|done].
    split; [done|]. by rewrite Hb, Hq.
  - intros Hopen Hfull Hne. unfold makeBatch, try_send, send.
    rewrite decide_False by (by destruct (eventQueue (conn s))).
    rewrite Hopen, decide_False by lia. reflexivity.
Qed.

(** X26.  At every reachable state the hand-off channel [batches] holds at
    most [sendQueueSize] (20) batches; [makeBatch] never parks the
    Aggregator, and when the channel is at capacity it drops the batch it
    has just formed and resets the pending records. *)
Theorem handoff_is_bounded account key s :
  reachable account key s →
  (length (buf (batches (conn s))) ≤ sendQueueSize)%nat
  ∧ (∀ c, makeBatch c ≠ Blocked)
  ∧ ((sendQueueSize ≤ length (buf (batches (conn s))))%nat →
     closed (batches (conn s)) = false →
     eventQueue (conn s) ≠ [] →
     makeBatch (conn s) = Done (set_queueBytes (set_eventQueue (conn s) []) 0)).
Proof.
  intros Hs. destruct (inv_handoff _ _ _ Hs) as [Hcap Hlen].
  split_and!; [done|apply makeBatch_never_blocks|].
  intros Hfull Hopen Hne. unfold makeBatch, try_send, send.
  rewrite decide_False by (by destruct (eventQueue (conn s))).
  rewrite Hopen, decide_False by lia. reflexivity.
Qed.

(** ** The Dispatcher: claims C9 and C4 *)

Lemma keepFailed_elem es : ∀ oks i e,
  NoDup (id <$> es) → length oks = length es → es !! i = Some e →
  e ∈ keepFailed es oks ↔ oks !! i = Some false.
Proof.
  induction es as [|x es IH]; intros [|ok oks] i e Hnd Hlen Hi; try done.
  rewrite fmap_cons in Hnd. apply NoDup_cons in Hnd as [Hx Hnd].
  injection Hlen as Hlen. rewrite keepFailed_cons.
  assert (∀ y, y ∈ keepFailed es oks → id y ≠ id x) as Hother.
  { intros y Hy Heq. apply Hx. rewrite <-Heq. apply list_elem_of_fmap_2.
    eapply elem_of_sublist; [done|apply keepFailed_sublist]. }
  destruct i as [|i]; simpl in *.
  - injection Hi as ->. destruct ok.
    + split; [|done]. intros He. by destruct (Hother e He).
    + split; [done|]. intros _. by left.
  - assert (e ≠ x) as Hne.
    { intros ->. apply Hx. apply list_elem_of_fmap_2. by eapply list_elem_of_lookup_2. }
    rewrite <-(IH oks i e) by done. destruct ok; [done|].
    rewrite elem_of_cons. split; [by intros [?|?]|by right].
Qed.

(** X27.  One pass of [sendUnsent] over a well formed list ends; whatever
    [sendBatch] returns for the batches, it changes nothing but the list,
    the element at each position stays exactly when [sendBatch] returned
    [false] for it, and the elements that stay keep their order. *)
Theorem sendUnsent_keeps_failed_in_place c w :
  wf (unsent c) →
  ∃ c' w' oks,
    sendUnsent c w = Some (c', w')
    ∧ passResults c w (clist.Value <$> elems (unsent c)) = (oks, w')
    ∧ length oks = Len (unsent c)
    ∧ c' = set_unsent c (unsent c')
    ∧ elems (unsent c') = keepFailed (elems (unsent c)) oks
    ∧ elems (unsent c') `sublist_of` elems (unsent c)
    ∧ ∀ i e, elems (unsent c) !! i = Some e →
             e ∈ elems (unsent c') ↔ oks !! i = Some false.
Proof.
  intros Hwf. pose proof (sendUnsent_spec c w (proj1 Hwf)) as Hsend.
  destruct (passResults c w (clist.Value <$> elems (unsent c))) as [oks w'] eqn:Hp.
  simpl in Hsend. eexists _, w', oks. split; [exact Hsend|].
  pose proof Hp as [Hlen _]%passResults_wire. rewrite length_fmap in Hlen.
  split_and!; try done; simpl.
  - apply keepFailed_sublist.
  - intros i e Hi. apply keepFailed_elem; [apply Hwf|done..].
Qed.

(** C9.  Given that [http.NewRequest] builds the request it is asked for,
    every request handed to [client.Do] in any run is a POST to
    https://insights-collector.newrelic.com/v1/accounts/<account>/events
    with the header X-Insert-Key set to the API key and the header
    Content-Type set to application/json, and its body is a batch that
    [makeBatch] formed: the records of a pending sequence, which was not
    empty, each the JSON text of a registered event, joined by commas
    between square brackets. *)
Theorem delivery_request_shape account key s :
  newRequestSpec → reachable account key s →
  ∀ a, a ∈ wire s →
    Method (request a) = "POST"
    ∧ URL (request a)
      = "https://insights-collector.newrelic.com/v1/accounts/"
        +:+ fmt_d account +:+ "/events"
    ∧ Header (request a) !! "X-Insert-Key" = Some key
    ∧ Header (request a) !! "Content-Type" = Some "application/json"
    ∧ ∃ q, q ≠ [] ∧ q ∈ formed s ∧ Forall marshalled q
           ∧ Body (request a) = "[" +:+ strings_Join q "," +:+ "]".
Proof.
  intros Hspec Hs a Ha.
  pose proof (inv_wire _ _ _ Hs) as Hw. rewrite Forall_forall in Hw.
  destruct (Hw a Ha) as (q & req & Hq & Hreq & -> & _).
  destruct (Hspec _ _ _ _ Hreq) as (Hm & Hu & Hb).
  destruct (inv_backlog _ _ _ Hs) as (_ & _ & Hne). rewrite Forall_forall in Hne.
  destruct (inv_provenance _ _ _ Hs) as (_ & _ & Hpr). rewrite Forall_forall in Hpr.
  simpl. split_and!; try done.
  - rewrite lookup_insert_ne by done. apply lookup_insert_eq.
  - apply lookup_insert_eq.
  - exists q. split_and!; auto.
Qed.

Lemma sendBatch_attempt c w b : (sendBatch c w b).2 = w ++ attemptsFor c [b].
Proof.
  unfold sendBatch. fold (endpoint c). cbn [attemptsFor].
  destruct (http_NewRequest _ _ _) as [req|err]; [|by rewrite app_nil_r].
  destruct (client_Do _ _ _) as [resp|]; [|done].
  case_decide; [|done]. by destruct (ReadAll resp).
Qed.

Lemma attemptsFor_cons c b bs :
  attemptsFor c (b :: bs) = attemptsFor c [b] ++ attemptsFor c bs.
Proof. cbn [attemptsFor]. by destruct (http_NewRequest _ _ _). Qed.

Lemma passResults_attemptsFor c bs : ∀ w,
  (passResults c w bs).2 = w ++ attemptsFor c bs.
Proof.
  induction bs as [|b bs IH]; intros w.
  - by rewrite app_nil_r.
  - rewrite passResults_cons. cbn [snd].
    rewrite IH, sendBatch_attempt, (attemptsFor_cons c b bs). by rewrite <-app_assoc.
Qed.

Lemma attemptsFor_timeout c bs :
  Forall (λ a, clientTimeout a = httpTimeout c) (attemptsFor c bs).
Proof.
  induction bs as [|b bs IH]; cbn [attemptsFor]; [constructor|].
  destruct (http_NewRequest _ _ _); [by constructor|done].
Qed.

(** Once the Aggregator has made its final flush no batch is formed. *)
Lemma step_after_final_flush s s' :
  step s s' →
  aggregator s = AtEventsDone ∨ aggregator s = AggregatorExited →
  formed s' = formed s
  ∧ (aggregator s' = AtEventsDone ∨ aggregator s' = AggregatorExited).
Proof.
  intros Hstep Ha.
  inversion Hstep; subst; simpl in *; try (split; [done|]); try done;
    try (by destruct Ha); by right.
Qed.

Lemma inv_final_flush account key s :
  reachable account key s →
  aggregator s = AtEventsDone ∨ aggregator s = AggregatorExited →
  ∃ s0, reachable account key s0 ∧ rtc step s0 s ∧ finalFlushAt s0 s.
Proof.
  revert s.
  apply (reachable_ind account key
           (λ s, aggregator s = AtEventsDone ∨ aggregator s = AggregatorExited →
                 ∃ s0, reachable account key s0 ∧ rtc step s0 s ∧ finalFlushAt s0 s)).
  - by intros [?|?].
  - intros s s' Hs IH Hstep Ha'.
    assert (aggregator s = AtFinalFlush ∨ aggregator s ≠ AtFinalFlush) as [Hflush|Hnot]
      by (destruct (aggregator s); auto).
    + exists s. split; [done|]. split; [by apply rtc_once|].
      destruct (inv_protocol _ _ _ Hs) as (_ & _ & _ & _ & _ & P6 & _).
      destruct (inv_handoff _ _ _ Hs) as [Hcap _].
      destruct P6 as [Hclosed Hbuf]; [by rewrite Hflush|].
      inversion Hstep; subst; simpl in *; try done;
        try (destruct Ha' as [?|?]; congruence).
      unfold finalFlushAt. simpl. split_and!; try done.
      exists c'. split; [done|]. split; [by eapply makeBatch_flushes|].
      intros Hne Hroom.
      match goal with
      | H : makeBatch _ = Done _ |- _ =>
          apply makeBatch_inv in H as [[Hq _]|(_ & _ & ch & -> & Hch)]
      end; [done|].
      rewrite Hcap in Hch. destruct Hch as [[_ ->]|[Hfull _]]; [done|lia].
    + assert (aggregator s = AtEventsDone ∨ aggregator s = AggregatorExited) as Ha.
      { inversion Hstep; subst; simpl in *;
          first [done | by destruct Ha' | by left | congruence]. }
      destruct (IH Ha) as (s0 & Hs0 & Hrun & H1 & H2 & H3 & H4 & Hf).
      exists s0. split; [done|]. split; [by eapply rtc_r|].
      destruct (step_after_final_flush _ _ Hstep Ha) as [Hformed _].
      unfold finalFlushAt. rewrite Hformed. by split_and!.
Qed.

(** Once the Aggregator is gone and the Dispatcher has made its final pass,
    nothing is formed, nothing is sent and the [unsent] list stays as it
    is. *)
Lemma step_after_final_pass s s' :
  step s s' →
  aggregator s = AggregatorExited →
  dispatcher s = AtBatchesDone ∨ dispatcher s = DispatcherExited →
  formed s' = formed s ∧ wire s' = wire s
  ∧ unsent (conn s') = unsent (conn s)
  ∧ (dispatcher s' = AtBatchesDone ∨ dispatcher s' = DispatcherExited).
Proof.
  intros Hstep Ha Hd.
  inversion Hstep; subst; simpl in *; try done; try (by destruct Hd);
    step_facts; split_and!; try done; by right.
Qed.

Lemma inv_final_pass account key s :
  reachable account key s →
  dispatcher s = AtBatchesDone ∨ dispatcher s = DispatcherExited →
  ∃ s1, reachable account key s1 ∧ rtc step s1 s ∧ finalPassAt s1 s.
Proof.
  revert s.
  apply (reachable_ind account key
           (λ s, dispatcher s = AtBatchesDone ∨ dispatcher s = DispatcherExited →
                 ∃ s1, reachable account key s1 ∧ rtc step s1 s ∧ finalPassAt s1 s)).
  - by intros [?|?].
  - intros s s' Hs IH Hstep Hd'.
    destruct (inv_protocol _ _ _ Hs) as (_ & _ & _ & _ & P5 & _ & _ & P8 & P9 & _).
    assert (dispatcher s ≠ AtRange → aggregator s = AggregatorExited) as Hgone.
    { intros Hd. destruct (P9 Hd) as [Hclosed _].
      apply P5. destruct (P8 Hclosed); auto. }
    assert (dispatcher s = AtFinalPass ∨ dispatcher s ≠ AtFinalPass) as [Hpass|Hnot]
      by (destruct (dispatcher s); auto).
    + exists s. split; [done|]. split; [by apply rtc_once|].
      destruct (P9 ltac:(by rewrite Hpass)) as [Hclosed Hbuf].
      destruct (inv_backlog _ _ _ Hs) as ([Hnd _] & _).
      pose proof (Hgone ltac:(by rewrite Hpass)) as Ha.
      inversion Hstep; subst; simpl in *; try done;
        try (destruct Hd' as [?|?]; congruence).
      match goal with
      | H : sendUnsent _ _ = Some _ |- _ =>
          rewrite sendUnsent_spec in H by done; injection H as <- <-
      end.
      unfold finalPassAt, backlog. simpl. rewrite Hbuf, app_nil_r.
      split_and!; try done.
      * apply passResults_attemptsFor.
      * apply (attemptsFor_timeout (set_httpTimeout c fastHttpTimeout)).
    + assert (dispatcher s = AtBatchesDone ∨ dispatcher s = DispatcherExited) as Hd.
      { inversion Hstep; subst; simpl in *;
          first [done | by destruct Hd' | by left | congruence]. }
      assert (aggregator s = AggregatorExited) as Ha.
      { apply Hgone. by destruct Hd as [-> | ->]. }
      destruct (IH Hd) as (s1 & Hs1 & Hrun & H1 & H2 & H3 & H4 & H5 & H6 & H7 & H8).
      exists s1. split; [done|]. split; [by eapply rtc_r|].
      destruct (step_after_final_pass _ _ Hstep Ha Hd) as (Hf & Hw & Hu & _).
      unfold finalPassAt. rewrite Hf, Hw, Hu. by split_and!.
Qed.

(** C4.  Once [StopAndFlush] is under way the [events] channel is closed; it
    closes [batches] only once the Aggregator has exited with nothing
    pending; and when [StopAndFlush] has returned, both goroutines have
    exited, no record is pending or on its way and the [batches] channel is
    drained.  The run that led there went through a state [s0] in which the
    Aggregator, its input closed and drained, made its final flush: the
    pending records, if any, became a batch, which went into the [batches]
    channel unless that was full.  It then went through a state [s1] in
    which the Dispatcher, its input closed and drained and the Aggregator
    gone, began its final pass: with the 2-second timeout it handed to
    [client.Do] one request for every batch of the backlog, which was then
    the whole [unsent] list, front to back, and it left in the list the
    batches whose delivery failed.  Nothing was formed or sent after
    that. *)
Theorem StopAndFlush_drains account key s :
  reachable account key s →
  (stop s ≠ NotStopping → closed (events (conn s)) = true)
  ∧ (closed (batches (conn s)) = true →
     aggregator s = AggregatorExited
     ∧ eventQueue (conn s) = [] ∧ buf (events (conn s)) = [])
  ∧ (stop s = Returned →
     aggregator s = AggregatorExited ∧ dispatcher s = DispatcherExited
     ∧ eventQueue (conn s) = [] ∧ buf (events (conn s)) = []
     ∧ buf (batches (conn s)) = []
     ∧ finalPassDone s
     ∧ ∃ s0 s1,
         reachable account key s0 ∧ rtc step s0 s1 ∧ rtc step s1 s
         ∧ finalFlushAt s0 s1 ∧ finalPassAt s1 s).
Proof.
  intros Hs.
  destruct (inv_protocol _ _ _ Hs)
    as (_ & _ & _ & _ & P5 & P6 & P7 & P8 & P9 & P10 & P11 & P12).
  assert (stop s = AtWaitBatches ∨ stop s = Returned →
          aggregator s = AggregatorExited
          ∧ eventQueue (conn s) = [] ∧ buf (events (conn s)) = []) as Hagg.
  { intros Hstop. assert (aggregator s = AggregatorExited) as Ha by tauto.
    split_and!; [done|tauto|]. apply P6. by rewrite Ha. }
  split; [done|]. split; [tauto|]. intros Hret.
  destruct Hagg as (? & ? & ?); [tauto|].
  pose proof (P10 Hret) as Hd.
  destruct P9 as [_ ?]; [by rewrite Hd|].
  pose proof (P11 (or_intror Hd)) as Hfin.
  split_and!; try done.
  destruct (inv_final_pass _ _ _ Hs (or_intror Hd)) as (s1 & Hs1 & Hrun1 & Hpass).
  pose proof Hpass as (_ & Ha1 & _).
  destruct (inv_final_flush _ _ _ Hs1 (or_intror Ha1)) as (s0 & Hs0 & Hrun0 & Hflush).
  by exists s0, s1.
Qed.

(** ** RegisterEvent: claim C8 *)

(** C8.  When [json.Marshal] fails on the values of an event,
    [RegisterEvent] returns the error, wrapped, and leaves the connection
    as it was: nothing is sent on a channel.  When [json.Marshal] succeeds,
    [RegisterEvent] returns no error whenever it returns, having sent the
    record on [events]; and it does return when the channel is open and
    has room. *)
Theorem RegisterEvent_reports_unencodable c e :
  (∀ err, json_Marshal (values e) = inr err →
     RegisterEvent c e = Done (Some ("could not marshal event: " +:+ err), c))
  ∧ (∀ asjson, json_Marshal (values e) = inl asjson →
       let c1 := set_events c (Chan (buf (events c) ++ [asjson])
                                     (cap (events c)) false) in
       (∀ r c', RegisterEvent c e = Done (r, c') → r = None ∧ c' = c1)
       ∧ (closed (events c) = false →
          (length (buf (events c)) < cap (events c))%nat →
          RegisterEvent c e = Done (None, c1))).
Proof.
  split.
  - intros err Herr. unfold RegisterEvent. by rewrite Herr.
  - intros asjson Hjson c1. split.
    + intros r c' [(err & Herr & _)|(j & Hj & -> & _ & _ & ->)]%RegisterEvent_inv.
      * congruence.
      * rewrite Hjson in Hj. by injection Hj as <-.
    + intros Hopen Hroom. unfold RegisterEvent, send.
      rewrite Hjson, Hopen, decide_True by done. reflexivity.
Qed.

(** ** One batch per tick: claim C6 *)

Lemma loopBody_quiet c r :
  queueBytes c = bytesOf (eventQueue c) →
  Z.of_nat (length (eventQueue c ++ [r])) ≤ eventsThreshold →
  bytesOf (eventQueue c ++ [r]) ≤ sizeThreshold →
  loopBody c (GotEvent r) = Done (withPending c [r], []).
Proof.
  intros Hb Hn Hs. unfold loopBody, withPending. cbv zeta.
  change (queueBytes (set_eventQueue c (eventQueue c ++ [r]))) with (queueBytes c).
  pose proof (len_nonneg r). pose proof (bytesOf_nonneg (eventQueue c)).
  rewrite bytesOf_app in Hs. simpl in Hs.
  assert (int_add (queueBytes c) (len r) = queueBytes c + bytesOf [r]) as ->.
  { unfold int_add. rewrite wrap_small; [simpl; lia|].
    unfold minInt, maxInt. change sizeThreshold with 4500000 in Hs. lia. }
  destruct (nearLimits _) eqn:Hnear; [|done].
  unfold nearLimits in Hnear. simpl in Hnear.
  apply orb_true_iff in Hnear as [H1%bool_decide_eq_true|H2%bool_decide_eq_true]; lia.
Qed.

Lemma aggregate_ingest rs : ∀ c tail,
  queueBytes c = bytesOf (eventQueue c) →
  Z.of_nat (length (eventQueue c ++ rs)) ≤ eventsThreshold →
  bytesOf (eventQueue c ++ rs) ≤ sizeThreshold →
  aggregate c ((GotEvent <$> rs) ++ tail) = aggregate (withPending c rs) tail.
Proof.
  induction rs as [|r rs IH]; intros c tail Hb Hn Hs.
  - unfold withPending. simpl. rewrite app_nil_r, Z.add_0_r. by destruct c.
  - pose proof (bytesOf_nonneg rs).
    rewrite fmap_cons. simpl. rewrite loopBody_quiet; [|done| |].
    + simpl. rewrite IH.
      * replace (withPending (withPending c [r]) rs) with (withPending c (r :: rs)).
        { by destruct (aggregate _ tail) as [[c2 fs2]| |]. }
        unfold withPending. simpl. rewrite <-app_assoc. simpl. f_equal. lia.
      * unfold withPending. simpl. by rewrite bytesOf_app, Hb.
      * unfold withPending. simpl. by rewrite <-app_assoc.
      * unfold withPending. simpl. by rewrite <-app_assoc.
    + rewrite !length_app in *. simpl in *. lia.
    + rewrite !bytesOf_app in *. simpl in *. lia.
Qed.

(** C6 (as amended).  Let the Aggregator start with nothing pending and
    receive the records [rs], which stay within both thresholds, and then
    a tick.  The records form no batch as they arrive.  When [rs] is not
    empty the tick forms exactly one batch, made of all of [rs] in arrival
    order, and offers it to the [batches] channel; when [rs] is empty the
    tick forms no batch.  Either way nothing is pending afterwards, and the
    [events] channel is as it was: a record that waits there when the tick
    fires is not in the batch. *)
Theorem one_batch_per_tick c rs :
  eventQueue c = [] → queueBytes c = 0 → closed (batches c) = false →
  Z.of_nat (length rs) ≤ eventsThreshold → bytesOf rs ≤ sizeThreshold →
  aggregate c (GotEvent <$> rs) = Done (withPending c rs, [])
  ∧ ∃ c', aggregate c ((GotEvent <$> rs) ++ [Ticked])
          = Done (c', if decide (rs = []) then [] else [rs])
          ∧ eventQueue c' = [] ∧ queueBytes c' = 0
          ∧ (rs ≠ [] →
             ∃ sent, try_send (batches c) (formBatch rs) = Done (batches c', sent))
          ∧ events c' = events c.
Proof.
  intros Hq Hb Hopen Hn Hs.
  assert (aggregate c ((GotEvent <$> rs) ++ []) = aggregate (withPending c rs) [])
    as Hin by (apply aggregate_ingest; rewrite Hq; done).
  rewrite app_nil_r in Hin. split; [done|].
  destruct (makeBatch_total (withPending c rs)) as [c' Hmk]; [done|].
  exists c'. rewrite aggregate_ingest by (rewrite Hq; done).
  simpl. unfold loopBody. rewrite Hmk. simpl. rewrite app_nil_r.
  assert (eventQueue (withPending c rs) = rs) as Hpend by (simpl; by rewrite Hq).
  pose proof (makeBatch_effect _ _ Hmk) as (_ & _ & Hev & _). simpl in Hev.
  apply makeBatch_inv in Hmk as [[Hnil ->]|(Hne & _ & ch & -> & Hch)].
  - rewrite Hpend in Hnil. subst rs. simpl. rewrite flushed_empty by done.
    rewrite Hq, Hb. by split_and!.
  - rewrite Hpend in Hne, Hch. rewrite flushed_nonempty, Hpend by (by rewrite Hpend).
    rewrite decide_False by done. split_and!; try done.
    intros _. simpl. unfold try_send, send. simpl in Hch. rewrite Hopen.
    destruct Hch as [[Hroom ->]|[Hfull ->]].
    + exists true. by rewrite decide_True.
    + exists false. rewrite decide_False by lia. by destruct (batches c).
Qed.

(** ** More on the Aggregator *)



(** X2.  The byte length of the batch the pending records would make is the
    byte counter plus one byte for every record and one more: [queueBytes]
    leaves the commas and the brackets out. *)
Theorem batch_length_exceeds_queueBytes account key s :
  recordsFit → reachable account key s → eventQueue (conn s) ≠ [] →
  len (formBatch (eventQueue (conn s)))
  = queueBytes (conn s) + Z.of_nat (length (eventQueue (conn s))) + 1.
Proof.
  intros Hfit Hs Hne. destruct (inv_records _ _ _ Hfit Hs) as ((Hb & _) & _).
  by rewrite len_formBatch, Hb.
Qed.

(** ** More on the backlog and the Dispatcher *)

(** X3.  The batches that wait for delivery wait in the order in which
    they were formed, and none waits twice: at every reachable state the
    batches of the [unsent] list followed by those in the [batches] channel
    are, in this order, a subsequence of the batches formed so far. *)
Theorem backlog_in_formation_order account key s :
  reachable account key s →
  backlog (conn s) `sublist_of` (formBatch <$> formed s).
Proof.
  revert s.
  apply (reachable_ind account key
           (λ s, backlog (conn s) `sublist_of` (formBatch <$> formed s))); [done|].
  intros s s' Hs Hsub Hstep. destruct (inv_backlog _ _ _ Hs) as (Hwf & _).
  unfold backlog in *. inversion Hstep; subst; simpl in *.
  7: { apply recv_inv in H as [(b & rest & Hb & [= <-] & ->)|(_ & _ & [=] & _)].
       apply sendUnsent_pass in H0 as (oks & _ & -> & _); [|by apply wf_PushBack].
       simpl. rewrite Hb in Hsub. etrans; [|exact Hsub].
       replace (((clist.Value <$> elems (unsent c)) ++ batch :: rest))
         with ((clist.Value <$> elems (unsent c) ++ [Elem (fresh (unsent c)) batch])
               ++ rest) by (by rewrite fmap_app, <-app_assoc).
       apply sublist_app; [|done]. apply fmap_sublist, keepFailed_sublist. }
  8: { apply sendUnsent_pass in H as (oks & _ & -> & _); [|done]. simpl.
       etrans; [|exact Hsub]. apply sublist_app; [|done].
       apply fmap_sublist, keepFailed_sublist. }
  all: step_facts; try done;
    repeat match goal with
    | H : _ ∨ _ |- _ => destruct H
    | H : _ ∧ _ |- _ => destruct H
    | H : ∃ _, _ |- _ => destruct H
    end; simplify_eq/=;
    repeat match goal with
    | H : unsent ?c' = _ |- context [unsent ?c'] => rewrite H
    | H : batches ?c' = _ |- context [batches ?c'] => rewrite H
    | H : buf (batches ?c') = _ |- context [buf (batches ?c')] => rewrite H
    | H : buf ?ch = _, H' : context [buf ?ch] |- _ => rewrite H in H'
    | H : flushed ?c = _ |- context [flushed ?c] => rewrite H
    end; rewrite ?app_nil_r, ?fmap_app; try done.
  all: try (by apply sublist_inserts_r).
  all: rewrite app_assoc; by apply sublist_app.
Qed.

(** X4.  Until the [batches] channel is closed and drained the Dispatcher
    works with the default timeout: while [sendBatches] is in its [range]
    loop, or about to make its final pass, [httpTimeout] is 10 seconds and so
    is the timeout of every request made so far. *)
Theorem normal_passes_use_default_timeout account key s :
  reachable account key s →
  dispatcher s = AtRange ∨ dispatcher s = AtFinalPass →
  httpTimeout (conn s) = defaultHttpTimeout
  ∧ Forall (λ a, clientTimeout a = defaultHttpTimeout) (wire s).
Proof.
  revert s.
  apply (reachable_ind account key
           (λ s, dispatcher s = AtRange ∨ dispatcher s = AtFinalPass →
                 httpTimeout (conn s) = defaultHttpTimeout
                 ∧ Forall (λ a, clientTimeout a = defaultHttpTimeout) (wire s)));
    [by split|].
  intros s s' Hs IH Hstep. destruct (inv_backlog _ _ _ Hs) as (Hwf & _).
  inversion Hstep; subst; simpl in *.
  7: { intros _. destruct IH as [Ht Hw]; [by left|].
       apply recv_inv in H as [(b & rest & Hb & [= <-] & ->)|(_ & _ & [=] & _)].
       apply sendUnsent_pass in H0 as (oks & Hp & -> & _); [|by apply wf_PushBack].
       simpl. split; [done|].
       apply passResults_wire in Hp as (_ & atts & -> & Hatts).
       apply Forall_app. split; [done|]. eapply Forall_impl; [done|].
       intros a0 (b0 & _ & req & _ & ->). simpl. done. }
  8: { intros [?|?]; done. }
  all: step_facts; intros Hd; try (destruct IH as [Ht Hw]; [done|]);
    try (destruct IH as [Ht Hw]; [by left|]); try (by destruct Hd);
    split; try done; congruence.
Qed.

(** ** Progress of the three threads of control *)

Lemma inv_progress account key s : reachable account key s → progressOk s.
Proof.
  revert s. apply reachable_ind.
  - unfold progressOk. simpl. split_and!; try done; try lia; intros; chain; done.
  - intros s s' Hs Hinv Hstep.
    destruct (inv_protocol _ _ _ Hs)
      as (P1 & P2 & P3 & P4 & P5 & P6 & P7 & P8 & P9 & P10 & _ & P12).
    destruct Hinv as (Q1 & Q2 & Q3 & Q4 & Q5 & Q6 & Q7 & Q8 & Q9 & Q10).
    inversion Hstep; subst; unfold progressOk; simpl in *.
    all: step_facts;
      repeat match goal with
      | H : events ?c' = _ |- _ => rewrite H
      | H : eventsDone ?c' = _ |- _ => rewrite H
      | H : batchesDone ?c' = _ |- _ => rewrite H
      | H : closed (batches ?c') = _ |- _ => rewrite H
      | H : buf ?ch = _, H' : context [buf ?ch] |- _ => rewrite H in H'
      | H : closed ?ch = _, H' : context [closed ?ch] |- _ => rewrite H in H'
      end.
    all: split_and!; try done; intros; simpl in *; rewrite ?length_app; simpl;
      try lia; try congruence; chain; try congruence; try done; try lia.
    + rewrite H. simpl. lia.
    + by destruct (buf (eventsDone c)).
    + by destruct (buf (batchesDone c)).
Qed.

(** ** Passes of the Dispatcher *)

Lemma sendBatch_built c w batch req :
  http_NewRequest "POST" (endpoint c) batch = inl req →
  (sendBatch c w batch).2
  = w ++ [MkAttempt (Header_Set (Header_Set req "X-Insert-Key" (InsightsAPIKey c))
                                "Content-Type" "application/json")
                    (httpTimeout c)].
Proof.
  intros Hreq. unfold sendBatch. fold (endpoint c). rewrite Hreq.
  destruct (client_Do _ _ _) as [resp|]; [|done].
  case_decide; [|done]. by destruct (ReadAll resp).
Qed.

Lemma passResults_attempts c bs : ∀ w,
  (∀ b, b ∈ bs → ∃ req, http_NewRequest "POST" (endpoint c) b = inl req
                        ∧ Body req = b) →
  ∃ atts, (passResults c w bs).2 = w ++ atts
          ∧ (λ a, Body (request a)) <$> atts = bs
          ∧ Forall (λ a, clientTimeout a = httpTimeout c) atts.
Proof.
  induction bs as [|b bs IH]; intros w Hbuilt.
  - exists []. by rewrite app_nil_r.
  - destruct (Hbuilt b) as (req & Hreq & Hbody); [by left|].
    rewrite passResults_cons. cbn [snd]. rewrite (sendBatch_built _ _ _ _ Hreq).
    destruct (IH (w ++ [MkAttempt
                          (Header_Set (Header_Set req "X-Insert-Key" (InsightsAPIKey c))
                                      "Content-Type" "application/json")
                          (httpTimeout c)])) as (atts & -> & Hbodies & Ht).
    { intros b' Hb'. apply Hbuilt. by right. }
    eexists (_ :: atts). rewrite <-app_assoc. split_and!; [done| |by constructor].
    rewrite fmap_cons. simpl. by rewrite Hbody, Hbodies.
Qed.

(** X5.  In one pass [sendUnsent] makes exactly one delivery attempt for
    every batch of the list, front to back, each with the timeout of the
    connection, provided [http.NewRequest] builds each request with the body
    it is given. *)
Theorem pass_attempts_every_batch_once c w :
  wf (unsent c) →
  (∀ b, b ∈ clist.Value <$> elems (unsent c) →
        ∃ req, http_NewRequest "POST" (endpoint c) b = inl req ∧ Body req = b) →
  ∃ c' atts,
    sendUnsent c w = Some (c', w ++ atts)
    ∧ (λ a, Body (request a)) <$> atts = clist.Value <$> elems (unsent c)
    ∧ Forall (λ a, clientTimeout a = httpTimeout c) atts.
Proof.
  intros [Hnd _] Hbuilt. rewrite sendUnsent_spec by done.
  destruct (passResults_attempts c _ w Hbuilt) as (atts & -> & Hbodies & Ht).
  by eexists _, atts.
Qed.

Lemma passResults_all (ok : bool) c bs : ∀ w,
  (∀ w' b, b ∈ bs → (sendBatch c w' b).1 = ok) →
  (passResults c w bs).1 = replicate (length bs) ok.
Proof.
  induction bs as [|b bs IH]; intros w Hall; [done|].
  rewrite passResults_cons. simpl. rewrite Hall by (by left).
  rewrite IH; [done|]. intros w' b' Hb'. apply Hall. by right.
Qed.

Lemma keepFailed_none_failed es : keepFailed es (replicate (length es) true) = [].
Proof. induction es as [|e es IH]; simpl; done. Qed.

Lemma keepFailed_all es : keepFailed es (replicate (length es) false) = es.
Proof. induction es as [|e es IH]; simpl; [done|]. by rewrite IH. Qed.

(** X6.  While the collector is out of reach, so that every call of
    [client.Do] returns an error, a pass of [sendUnsent] leaves the
    connection, and with it the whole [unsent] list, as it was: every batch
    waits for the next pass. *)
Theorem pass_keeps_all_when_unreachable c w :
  wf (unsent c) →
  (∀ n t req, ∃ err, client_Do n t req = inr err) →
  ∃ w', sendUnsent c w = Some (c, w').
Proof.
  intros [Hnd _] Hdown. eexists. rewrite sendUnsent_spec by done.
  rewrite (passResults_all false), length_fmap, keepFailed_all, set_unsent_eta; [done|].
  intros w' b _. unfold sendBatch.
  destruct (http_NewRequest _ _ _) as [req|]; [|done].
  by destruct (Hdown (length w') (httpTimeout c)
                 (Header_Set (Header_Set req "X-Insert-Key" (InsightsAPIKey c))
                             "Content-Type" "application/json")) as [err ->].
Qed.

(** X7.  When every request can be built and the collector answers each
    with status 200, a pass of [sendUnsent] empties the [unsent] list. *)
Theorem pass_empties_list_when_all_accepted c w :
  wf (unsent c) →
  (∀ b, b ∈ clist.Value <$> elems (unsent c) →
        ∃ req, http_NewRequest "POST" (endpoint c) b = inl req) →
  (∀ n t req, ∃ resp, client_Do n t req = inl resp ∧ StatusCode resp = 200) →
  ∃ c' w', sendUnsent c w = Some (c', w') ∧ elems (unsent c') = [].
Proof.
  intros [Hnd _] Hbuilt Hok. eexists _, _. rewrite sendUnsent_spec by done.
  split; [done|]. simpl.
  rewrite (passResults_all true), length_fmap, keepFailed_none_failed; [done|].
  intros w' b Hb. unfold sendBatch. fold (endpoint c).
  destruct (Hbuilt b Hb) as [req ->].
  destruct (Hok (length w') (httpTimeout c)
              (Header_Set (Header_Set req "X-Insert-Key" (InsightsAPIKey c))
                          "Content-Type" "application/json")) as (resp & -> & Hst).
  by rewrite decide_False by (by intros ?).
Qed.

(** X24.  A batch the collector rejects is not tried again: when every
    request can be built and every response has a body that can be read,
    whatever its status, a pass of [sendUnsent] empties the [unsent]
    list. *)
Theorem pass_drops_rejected_batches c w :
  wf (unsent c) →
  (∀ b, b ∈ clist.Value <$> elems (unsent c) →
        ∃ req, http_NewRequest "POST" (endpoint c) b = inl req) →
  (∀ n t req, ∃ resp body, client_Do n t req = inl resp ∧ ReadAll resp = inl body) →
  ∃ c' w', sendUnsent c w = Some (c', w') ∧ elems (unsent c') = [].
Proof.
  intros [Hnd _] Hbuilt Hok. eexists _, _. rewrite sendUnsent_spec by done.
  split; [done|]. simpl.
  rewrite (passResults_all true), length_fmap, keepFailed_none_failed; [done|].
  intros w' b Hb. unfold sendBatch. fold (endpoint c).
  destruct (Hbuilt b Hb) as [req ->].
  destruct (Hok (length w') (httpTimeout c)
              (Header_Set (Header_Set req "X-Insert-Key" (InsightsAPIKey c))
                          "Content-Type" "application/json")) as (resp & body & -> & Hbody).
  rewrite Hbody. by case_decide.
Qed.

(** X25.  A response with a status other than 200 and a body that cannot
    be read keeps the batch for a later pass: when every response is of
    this kind, a pass of [sendUnsent] leaves the connection, and with it the
    [unsent] list, as it was. *)
Theorem pass_keeps_batches_on_unreadable_rejection c w :
  wf (unsent c) →
  (∀ n t req, ∃ resp err,
     client_Do n t req = inl resp ∧ StatusCode resp ≠ 200 ∧ ReadAll resp = inr err) →
  ∃ w', sendUnsent c w = Some (c, w').
Proof.
  intros [Hnd _] Hbad. eexists. rewrite sendUnsent_spec by done.
  rewrite (passResults_all false), length_fmap, keepFailed_all, set_unsent_eta; [done|].
  intros w' b _. unfold sendBatch.
  destruct (http_NewRequest _ _ _) as [req|]; [|done].
  destruct (Hbad (length w') (httpTimeout c)
              (Header_Set (Header_Set req "X-Insert-Key" (InsightsAPIKey c))
                          "Content-Type" "application/json"))
    as (resp & err & -> & Hst & Hbody).
  rewrite decide_True by exact Hst. by rewrite Hbody.
Qed.

(** ** Calls at the wrong moment *)

(** X8.  [RegisterEvent] with an encodable event panics once [StopAndFlush]
    is under way, as it sends on the closed [events] channel; before that it
    parks the caller for as long as ten records wait in the channel, which
    never holds more. *)
Theorem RegisterEvent_parks_or_panics account key s e asjson :
  reachable account key s → json_Marshal (values e) = inl asjson →
  (stop s ≠ NotStopping → RegisterEvent (conn s) e = Panic)
  ∧ (stop s = NotStopping → length (buf (events (conn s))) = 10%nat →
     RegisterEvent (conn s) e = Blocked)
  ∧ (length (buf (events (conn s))) ≤ 10)%nat.
Proof.
  intros Hs Hjson.
  destruct (inv_protocol _ _ _ Hs) as (_ & _ & _ & _ & _ & _ & _ & _ & _ & _ & _ & P12).
  destruct (inv_progress _ _ _ Hs) as (Q1 & Q2 & Q3 & _).
  unfold RegisterEvent, send. rewrite Hjson. split_and!; [| |done].
  - intros Hstop. by rewrite (P12 Hstop).
  - intros Hstop Hfull. rewrite (Q3 Hstop), Q1, Hfull. by rewrite decide_False by lia.
Qed.

(** X9.  A second call of [StopAndFlush] panics at its first statement:
    once the first call is under way, whether or not it has returned,
    [close(c.events)] finds the channel closed. *)
Theorem second_StopAndFlush_panics account key s :
  reachable account key s → stop s ≠ NotStopping →
  close (events (conn s)) = Panic.
Proof.
  intros Hs Hstop.
  destruct (inv_protocol _ _ _ Hs) as (_ & _ & _ & _ & _ & _ & _ & _ & _ & _ & _ & P12).
  unfold close. by rewrite (P12 Hstop).
Qed.

Lemma loopBody_total c sel :
  closed (batches c) = false → ∃ c' fs, loopBody c sel = Done (c', fs).
Proof.
  intros Hopen. unfold loopBody. destruct sel as [e|].
  - destruct (nearLimits _); [|by eexists _, _].
    destruct (makeBatch_total
                (set_queueBytes (set_eventQueue c (eventQueue c ++ [e]))
                   (int_add (queueBytes (set_eventQueue c (eventQueue c ++ [e])))
                            (len e)))) as [c' Hmk]; [done|].
    rewrite Hmk. by eexists _, _.
  - destruct (makeBatch_total c Hopen) as [c' ->]. by eexists _, _.
Qed.

Lemma batches_open_while_aggregating account key s :
  reachable account key s → aggregator s ≠ AggregatorExited →
  closed (batches (conn s)) = false.
Proof.
  intros Hs Hagg.
  destruct (inv_protocol _ _ _ Hs) as (_ & _ & _ & _ & P5 & _ & _ & P8 & _).
  destruct (closed (batches (conn s))) eqn:Hc; [|done].
  destruct Hagg. apply P5. destruct P8 as [->| ->]; auto.
Qed.

(** X10.  Neither goroutine of the pipeline ever panics or finds itself
    unable to go on: wherever the Aggregator stands, the statement it is
    about to run completes (the [batches] channel is still open whenever
    [makeBatch] runs, and [eventsDone] has room for its signal), and so
    does every pass of the Dispatcher and the sending of its signal. *)
Theorem pipeline_goroutines_never_panic account key s :
  reachable account key s →
  (aggregator s = AtSelect → ∀ sel, ∃ c' fs, loopBody (conn s) sel = Done (c', fs))
  ∧ (aggregator s = AtFinalFlush → ∃ c', makeBatch (conn s) = Done c')
  ∧ (aggregator s = AtEventsDone → ∃ ch, send (eventsDone (conn s)) true = Done ch)
  ∧ (∀ batch, ∃ r,
       sendUnsent (set_unsent (conn s) (PushBack (unsent (conn s)) batch)) (wire s)
       = Some r)
  ∧ (∃ r, sendUnsent (set_httpTimeout (conn s) fastHttpTimeout) (wire s) = Some r)
  ∧ (dispatcher s = AtBatchesDone → ∃ ch, send (batchesDone (conn s)) true = Done ch).
Proof.
  intros Hs.
  destruct (inv_protocol _ _ _ Hs) as (P1 & P2 & _).
  destruct (inv_progress _ _ _ Hs) as (_ & _ & _ & Q4 & Q5 & Q6 & Q7 & _).
  destruct (inv_backlog _ _ _ Hs) as (Hwf & _).
  split_and!.
  - intros Ha sel. apply loopBody_total.
    apply (batches_open_while_aggregating _ _ _ Hs). by rewrite Ha.
  - intros Ha. apply makeBatch_total.
    apply (batches_open_while_aggregating _ _ _ Hs). by rewrite Ha.
  - intros Ha. unfold send. rewrite P1, Q4, Q6 by (by rewrite Ha).
    rewrite decide_True by (simpl; lia). by eexists.
  - intros batch. eexists. apply sendUnsent_spec. simpl.
    apply (wf_PushBack _ batch Hwf).
  - eexists. apply sendUnsent_spec. simpl. apply Hwf.
  - intros Hd. unfold send. rewrite P2, Q5, Q7 by (by rewrite Hd).
    rewrite decide_True by (simpl; lia). by eexists.
Qed.

(** ** Shutdown always completes *)

Lemma reachable_trans account key s s' :
  reachable account key s → rtc step s s' → reachable account key s'.
Proof. apply rtc_trans. Qed.

(** The Aggregator takes what is left in the closed [events] channel and
    leaves its loop. *)
Lemma aggregator_drains account key n : ∀ s,
  reachable account key s → aggregator s = AtSelect → stop s ≠ NotStopping →
  length (buf (events (conn s))) = n →
  ∃ s', rtc step s s' ∧ aggregator s' = AtFinalFlush ∧ stop s' = stop s.
Proof.
  induction n as [|n IH]; intros s Hs Ha Hstop Hlen.
  - destruct (inv_protocol _ _ _ Hs)
      as (_ & _ & _ & _ & _ & _ & _ & _ & _ & _ & _ & P12).
    specialize (P12 Hstop). destruct s as [c w fs a d m]. simpl in *. subst a.
    exists (MkSys (set_events c (events c)) w fs AtFinalFlush d m).
    split; [|done]. apply rtc_once, step_events_closed.
    unfold recv. destruct (buf (events c)); [|done]. by rewrite P12.
  - pose proof (batches_open_while_aggregating _ _ _ Hs) as Hopen.
    destruct s as [c w fs a d m]. simpl in *. subst a.
    destruct (buf (events c)) as [|e rest] eqn:Hbuf; [done|]. injection Hlen as Hlen.
    destruct (loopBody_total
                (set_events c (Chan rest (cap (events c)) (closed (events c))))
                (GotEvent e)) as (c' & fs' & Hbody); [by apply Hopen|].
    assert (step (MkSys c w fs AtSelect d m) (MkSys c' w (fs ++ fs') AtSelect d m))
      as Hstep.
    { eapply step_event; [|exact Hbody]. unfold recv. by rewrite Hbuf. }
    destruct (IH (MkSys c' w (fs ++ fs') AtSelect d m)) as (s' & Hrun & Ha' & Hm');
      [by eapply rtc_r|done|done| |].
    { simpl. apply loopBody_effect in Hbody as (_ & _ & -> & _). done. }
    exists s'. split; [by eapply rtc_l|done].
Qed.

Lemma aggregator_exits account key s :
  reachable account key s → stop s ≠ NotStopping →
  ∃ s', rtc step s s' ∧ aggregator s' = AggregatorExited ∧ stop s' = stop s.
Proof.
  intros Hs Hstop.
  assert (∃ s1, rtc step s s1 ∧ stop s1 = stop s
                ∧ (aggregator s1 = AtFinalFlush ∨ aggregator s1 = AtEventsDone
                   ∨ aggregator s1 = AggregatorExited)) as (s1 & Hrun1 & Hm1 & Ha1).
  { destruct (aggregator s) eqn:Ha.
    - destruct (aggregator_drains account key _ s Hs Ha Hstop eq_refl)
        as (s1 & ? & ? & ?). exists s1. auto.
    - exists s. rewrite Ha. auto using rtc_refl.
    - exists s. rewrite Ha. auto using rtc_refl.
    - exists s. rewrite Ha. auto using rtc_refl. }
  pose proof (reachable_trans _ _ _ _ Hs Hrun1) as Hs1.
  assert (∃ s2, rtc step s1 s2 ∧ stop s2 = stop s1
                ∧ (aggregator s2 = AtEventsDone ∨ aggregator s2 = AggregatorExited))
    as (s2 & Hrun2 & Hm2 & Ha2).
  { destruct Ha1 as [Ha1|Ha1]; [|exists s1; auto using rtc_refl].
    destruct (pipeline_goroutines_never_panic _ _ _ Hs1) as (_ & Hflush & _).
    destruct (Hflush Ha1) as [c' Hmk].
    destruct s1 as [c w fs a d m]. simpl in *. subst a.
    exists (MkSys c' w (fs ++ flushed c) AtEventsDone d m).
    split; [|auto]. by apply rtc_once, step_final_flush. }
  pose proof (reachable_trans _ _ _ _ Hs1 Hrun2) as Hs2.
  assert (∃ s3, rtc step s2 s3 ∧ stop s3 = stop s2
                ∧ aggregator s3 = AggregatorExited) as (s3 & Hrun3 & Hm3 & Ha3).
  { destruct Ha2 as [Ha2|Ha2]; [|exists s2; auto using rtc_refl].
    destruct (pipeline_goroutines_never_panic _ _ _ Hs2) as (_ & _ & Hsig & _).
    destruct (Hsig Ha2) as [ch Hsend].
    destruct s2 as [c w fs a d m]. simpl in *. subst a.
    exists (MkSys (set_eventsDone c ch) w fs AggregatorExited d m).
    split; [|auto]. by apply rtc_once, step_events_done. }
  exists s3. split_and!; [|done|congruence].
  etrans; [exact Hrun1|]. etrans; [exact Hrun2|exact Hrun3].
Qed.

(** The Dispatcher takes what is left in the closed [batches] channel and
    leaves its loop. *)
Lemma dispatcher_drains account key n : ∀ s,
  reachable account key s → dispatcher s = AtRange →
  stop s = AtWaitBatches ∨ stop s = Returned →
  length (buf (batches (conn s))) = n →
  ∃ s', rtc step s s' ∧ dispatcher s' = AtFinalPass ∧ stop s' = stop s.
Proof.
  induction n as [|n IH]; intros s Hs Hd Hstop Hlen.
  - destruct (inv_progress _ _ _ Hs) as (_ & _ & _ & _ & _ & _ & _ & _ & _ & Q10).
    specialize (Q10 Hstop). destruct s as [c w fs a d m]. simpl in *. subst d.
    exists (MkSys (set_batches c (batches c)) w fs a AtFinalPass m).
    split; [|done]. apply rtc_once, step_batches_closed.
    unfold recv. destruct (buf (batches c)); [|done]. by rewrite Q10.
  - destruct (inv_backlog _ _ _ Hs) as (Hwf & _).
    destruct s as [c w fs a d m]. simpl in *. subst d.
    destruct (buf (batches c)) as [|b rest] eqn:Hbuf; [done|]. injection Hlen as Hlen.
    destruct (sendUnsent
                (set_unsent (set_batches c (Chan rest (cap (batches c))
                                                 (closed (batches c))))
                   (PushBack (unsent c) b)) w) as [[c' w']|] eqn:Hpass; last first.
    { rewrite sendUnsent_spec in Hpass; [done|]. apply (wf_PushBack _ b Hwf). }
    assert (step (MkSys c w fs a AtRange m) (MkSys c' w' fs a AtRange m)) as Hstep.
    { eapply step_batch; [|exact Hpass]. unfold recv. by rewrite Hbuf. }
    destruct (IH (MkSys c' w' fs a AtRange m)) as (s' & Hrun & Hd' & Hm');
      [by eapply rtc_r|done|done| |].
    { simpl. by apply sendUnsent_frame in Hpass as [l ->]. }
    exists s'. split; [by eapply rtc_l|done].
Qed.

Lemma dispatcher_exits account key s :
  reachable account key s → stop s = AtWaitBatches ∨ stop s = Returned →
  ∃ s', rtc step s s' ∧ dispatcher s' = DispatcherExited ∧ stop s' = stop s.
Proof.
  intros Hs Hstop.
  assert (∃ s1, rtc step s s1 ∧ stop s1 = stop s
                ∧ (dispatcher s1 = AtFinalPass ∨ dispatcher s1 = AtBatchesDone
                   ∨ dispatcher s1 = DispatcherExited)) as (s1 & Hrun1 & Hm1 & Hd1).
  { destruct (dispatcher s) eqn:Hd.
    - destruct (dispatcher_drains account key _ s Hs Hd Hstop eq_refl)
        as (s1 & ? & ? & ?). exists s1. auto.
    - exists s. rewrite Hd. auto using rtc_refl.
    - exists s. rewrite Hd. auto using rtc_refl.
    - exists s. rewrite Hd. auto using rtc_refl. }
  pose proof (reachable_trans _ _ _ _ Hs Hrun1) as Hs1.
  assert (∃ s2, rtc step s1 s2 ∧ stop s2 = stop s1
                ∧ (dispatcher s2 = AtBatchesDone ∨ dispatcher s2 = DispatcherExited))
    as (s2 & Hrun2 & Hm2 & Hd2).
  { destruct Hd1 as [Hd1|Hd1]; [|exists s1; auto using rtc_refl].
    destruct (pipeline_goroutines_never_panic _ _ _ Hs1)
      as (_ & _ & _ & _ & [[c' w'] Hpass] & _).
    destruct s1 as [c w fs a d m]. simpl in *. subst d.
    exists (MkSys c' w' fs a AtBatchesDone m).
    split; [|auto]. by apply rtc_once, step_final_pass. }
  pose proof (reachable_trans _ _ _ _ Hs1 Hrun2) as Hs2.
  assert (∃ s3, rtc step s2 s3 ∧ stop s3 = stop s2
                ∧ dispatcher s3 = DispatcherExited) as (s3 & Hrun3 & Hm3 & Hd3).
  { destruct Hd2 as [Hd2|Hd2]; [|exists s2; auto using rtc_refl].
    destruct (pipeline_goroutines_never_panic _ _ _ Hs2)
      as (_ & _ & _ & _ & _ & Hsig).
    destruct (Hsig Hd2) as [ch Hsend].
    destruct s2 as [c w fs a d m]. simpl in *. subst d.
    exists (MkSys (set_batchesDone c ch) w fs a DispatcherExited m).
    split; [|auto]. by apply rtc_once, step_batches_done. }
  exists s3. split_and!; [|done|congruence].
  etrans; [exact Hrun1|]. etrans; [exact Hrun2|exact Hrun3].
Qed.

(** X11.  Shutdown cannot get stuck: from every reachable state, whatever
    the goroutines were doing and whatever the collector answers, there is a
    run in which [StopAndFlush] is called, if it was not yet, and returns. *)
Theorem StopAndFlush_can_always_return account key s :
  reachable account key s → ∃ s', rtc step s s' ∧ stop s' = Returned.
Proof.
  intros Hs.
  (* close(c.events) *)
  assert (∃ s1, rtc step s s1 ∧ stop s1 ≠ NotStopping) as (s1 & Hrun1 & Hm1).
  { assert (stop s = NotStopping ∨ stop s ≠ NotStopping) as [Hm|?]
      by (destruct (stop s); auto); [|exists s; auto using rtc_refl].
    destruct (inv_progress _ _ _ Hs) as (_ & _ & Q3 & _). specialize (Q3 Hm).
    destruct s as [c w fs a d m]. simpl in *. subst m.
    exists (MkSys (set_events c (Chan (buf (events c)) (cap (events c)) true))
              w fs a d AtWaitEvents).
    split; [|done]. apply rtc_once, step_close_events. unfold close. by rewrite Q3. }
  pose proof (reachable_trans _ _ _ _ Hs Hrun1) as Hs1.
  (* the Aggregator exits *)
  destruct (aggregator_exits _ _ _ Hs1 Hm1) as (s2 & Hrun2 & Ha2 & Hm2).
  pose proof (reachable_trans _ _ _ _ Hs1 Hrun2) as Hs2.
  rewrite <-Hm2 in Hm1.
  (* <-c.eventsDone; close(c.batches) *)
  assert (∃ s3, rtc step s2 s3 ∧ (stop s3 = AtWaitBatches ∨ stop s3 = Returned))
    as (s3 & Hrun3 & Hm3).
  { assert (∃ s', rtc step s2 s'
                  ∧ (stop s' = AtCloseBatches ∨ stop s' = AtWaitBatches
                     ∨ stop s' = Returned)) as (s' & Hrun & Hm').
    { destruct (stop s2) eqn:Hm;
        try solve [exists s2; rewrite Hm; auto using rtc_refl].
      - done.
      - destruct (inv_progress _ _ _ Hs2) as (_ & _ & _ & _ & _ & _ & _ & Q8 & _).
        specialize (Q8 Ha2). rewrite Hm in Q8. specialize (Q8 (or_intror eq_refl)).
        destruct s2 as [c w fs a d m]. simpl in *. subst m.
        destruct (buf (eventsDone c)) as [|v rest] eqn:Hbuf; [done|].
        exists (MkSys (set_eventsDone c (Chan rest (cap (eventsDone c))
                                                   (closed (eventsDone c))))
                  w fs a d AtCloseBatches).
        split; [|auto]. apply rtc_once. eapply step_wait_events.
        unfold recv. by rewrite Hbuf. }
    pose proof (reachable_trans _ _ _ _ Hs2 Hrun) as Hs'.
    destruct Hm' as [Hm'|Hm']; [|exists s'; auto].
    destruct (inv_protocol _ _ _ Hs') as (_ & _ & _ & _ & _ & _ & _ & P8 & _).
    assert (closed (batches (conn s')) = false) as Hopen.
    { destruct (closed (batches (conn s'))); [|done].
      destruct P8 as [?|?]; congruence. }
    destruct s' as [c w fs a d m]. simpl in *. subst m.
    exists (MkSys (set_batches c (Chan (buf (batches c)) (cap (batches c)) true))
              w fs a d AtWaitBatches).
    split; [|auto]. etrans; [exact Hrun|].
    apply rtc_once, step_close_batches. unfold close. by rewrite Hopen. }
  pose proof (reachable_trans _ _ _ _ Hs2 Hrun3) as Hs3.
  (* the Dispatcher exits *)
  destruct (dispatcher_exits _ _ _ Hs3 Hm3) as (s4 & Hrun4 & Hd4 & Hm4).
  pose proof (reachable_trans _ _ _ _ Hs3 Hrun4) as Hs4.
  rewrite <-Hm4 in Hm3.
  (* <-c.batchesDone *)
  assert (∃ s5, rtc step s4 s5 ∧ stop s5 = Returned) as (s5 & Hrun5 & Hm5).
  { destruct Hm3 as [Hm|Hm]; [|exists s4; auto using rtc_refl].
    destruct (inv_progress _ _ _ Hs4) as (_ & _ & _ & _ & _ & _ & _ & _ & Q9 & _).
    specialize (Q9 Hd4). rewrite Hm in Q9. specialize (Q9 ltac:(done)).
    destruct s4 as [c w fs a d m]. simpl in *. subst m.
    destruct (buf (batchesDone c)) as [|v rest] eqn:Hbuf; [done|].
    exists (MkSys (set_batchesDone c (Chan rest (cap (batchesDone c))
                                                 (closed (batchesDone c))))
              w fs a d Returned).
    split; [|done]. apply rtc_once. eapply step_wait_batches.
    unfold recv. by rewrite Hbuf. }
  exists s5. split; [|done].
  etrans; [exact Hrun1|]. etrans; [exact Hrun2|]. etrans; [exact Hrun3|].
  etrans; [exact Hrun4|exact Hrun5].
Qed.

(** ** Events from requests *)

Lemma skip_table `{!Libraries Value} (ps : list string) (m : gmap string bool) (k : string) :
  foldl (λ m p, <[strings_ToLower p := true]> m) m ps !! k
  = if decide (k ∈ strings_ToLower <$> ps) then Some true else m !! k.
Proof.
  revert m. induction ps as [|p ps IH]; intros m; [reflexivity|].
  cbn [foldl]. rewrite IH. rewrite fmap_cons.
  destruct (decide (k ∈ strings_ToLower <$> ps)) as [Hin|Hnin].
  - rewrite decide_True by (right; exact Hin). reflexivity.
  - destruct (decide (k = strings_ToLower p)) as [->|Hne].
    + rewrite decide_True by left. apply lookup_insert_eq.
    + rewrite decide_False.
      * apply lookup_insert_ne. congruence.
      * intros [Heq|Hin]%elem_of_cons; [exact (Hne Heq)|exact (Hnin Hin)].
Qed.

(** X12.  [Start] makes the skip table out of the lower-cased names of
    [QueryParamsToSkip] and nothing else: a key is in [skipParams] exactly
    when it is [strings.ToLower] of one of the names, and then with [true];
    what [skipParams] held before [Start] is forgotten. *)
Theorem Start_skip_table `{!Libraries Value} (o : Options) (k : string) :
  skipParams (Start_options o) !! k
  = if decide (k ∈ strings_ToLower <$> QueryParamsToSkip o) then Some true else None.
Proof. unfold Start_options. cbn [skipParams]. apply skip_table. Qed.

Lemma param_name_inj (k1 k2 : string) : "p:" +:+ k1 = "p:" +:+ k2 → k1 = k2.
Proof. intros Heq. injection Heq as Heq. exact Heq. Qed.

Lemma setParam_comm `{!Libraries Value} o qvalues k1 k2 e :
  setParam o qvalues k1 (setParam o qvalues k2 e)
  = setParam o qvalues k2 (setParam o qvalues k1 e).
Proof.
  unfold setParam. repeat case_decide; try reflexivity.
  destruct (decide (k1 = k2)) as [->|Hne]; [reflexivity|].
  unfold Event_Set. cbn [values]. f_equal.
  apply insert_insert_ne. intros Heq%param_name_inj. congruence.
Qed.

(** X13.  The event does not depend on the order in which Go visits the
    keys of the query: the loop of lines 152-157 run over the keys in any
    two orders gives the same event. *)
Theorem params_any_order `{!Libraries Value} o qvalues (keys keys' : list string) :
  keys ≡ₚ keys' →
  ∀ e, setParams o qvalues keys e = setParams o qvalues keys' e.
Proof.
  unfold setParams. induction 1 as [|k l l' _ IH|k1 k2 l|l1 l2 l3 _ IH1 _ IH2];
    intros e; cbn [foldl].
  - reflexivity.
  - apply IH.
  - rewrite setParam_comm. reflexivity.
  - rewrite IH1. apply IH2.
Qed.

Lemma setFields_values (entries : list (string * Value)) : ∀ e,
  NoDup entries.*1 →
  values (setFields entries e) = list_to_map entries ∪ values e.
Proof.
  unfold setFields. induction entries as [|[k v] entries IH]; intros e Hnd.
  - cbn. by rewrite (left_id_L ∅ (∪)).
  - rewrite fmap_cons in Hnd. apply NoDup_cons in Hnd as [Hk Hnd].
    cbn [foldl fst snd] in *.
    rewrite IH by exact Hnd. unfold Event_Set. cbn [values list_to_map foldr fst snd].
    rewrite <- insert_union_r by (by apply not_elem_of_list_to_map_1).
    apply insert_union_l.
Qed.

(** X14.  Nor does it depend on the order in which Go visits the flattened
    fields of a POST body: the loop of lines 184-186 run over the entries of
    the map in any order leaves the event with the flattened fields on top
    of the fields it had, a flattened field replacing a field of the same
    name. *)
Theorem fields_any_order (flat : gmap string Value) (entries : list (string * Value)) e :
  entries ≡ₚ map_to_list flat →
  values (setFields entries e) = flat ∪ values e.
Proof.
  intros Hperm. rewrite setFields_values.
  - rewrite (list_to_map_proper (M := gmap string) entries (map_to_list flat)).
    + by rewrite list_to_map_to_list.
    + rewrite Hperm. apply NoDup_fst_map_to_list.
    + exact Hperm.
  - rewrite Hperm. apply NoDup_fst_map_to_list.
Qed.

Lemma setParams_snoc `{!Libraries Value} o qvalues keys k e :
  setParams o qvalues (keys ++ [k]) e = setParam o qvalues k (setParams o qvalues keys e).
Proof. unfold setParams. by rewrite foldl_app. Qed.

Lemma setParams_other `{!Libraries Value} o qvalues keys name : ∀ e,
  (∀ key, key ∈ keys → name ≠ "p:" +:+ key) →
  values (setParams o qvalues keys e) !! name = values e !! name.
Proof.
  induction keys as [|k keys IH] using rev_ind; intros e Hname; [reflexivity|].
  rewrite setParams_snoc. unfold setParam at 1. case_decide.
  - apply IH. intros key Hin. apply Hname, elem_of_app. by left.
  - unfold Event_Set. cbn [values]. rewrite lookup_insert_ne.
    + apply IH. intros key Hin. apply Hname, elem_of_app. by left.
    + intros Heq. eapply Hname; [|symmetry; exact Heq].
      apply elem_of_app. right. by left.
Qed.

Lemma setParams_skipped `{!Libraries Value} o qvalues keys key : ∀ e,
  is_Some (skipParams o !! strings_ToLower key) →
  values (setParams o qvalues keys e) !! ("p:" +:+ key) = values e !! ("p:" +:+ key).
Proof.
  induction keys as [|k keys IH] using rev_ind; intros e Hskip; [reflexivity|].
  rewrite setParams_snoc. unfold setParam at 1. case_decide; [by apply IH|].
  unfold Event_Set. cbn [values]. rewrite lookup_insert_ne; [by apply IH|].
  intros Heq%param_name_inj. congruence.
Qed.

Lemma setParams_set `{!Libraries Value} o qvalues keys key : ∀ e,
  key ∈ keys → ¬ is_Some (skipParams o !! strings_ToLower key) →
  values (setParams o qvalues keys e) !! ("p:" +:+ key)
  = Some (ofString (Values_Get qvalues key)).
Proof.
  induction keys as [|k keys IH] using rev_ind; intros e Hin Hskip.
  - by apply elem_of_nil in Hin.
  - rewrite setParams_snoc. unfold setParam at 1.
    destruct (decide (key = k)) as [->|Hne].
    + rewrite decide_False by exact Hskip.
      unfold Event_Set. cbn [values]. apply lookup_insert_eq.
    + assert (key ∈ keys) as Hin'.
      { apply elem_of_app in Hin as [Hin|Hin]; [exact Hin|].
        apply list_elem_of_singleton in Hin. congruence. }
      case_decide; [by apply IH|].
      unfold Event_Set. cbn [values]. rewrite lookup_insert_ne; [by apply IH|].
      intros Heq%param_name_inj. congruence.
Qed.

Lemma query_keys (qvalues : gmap string (list string)) (key : string) :
  key ∈ (map_to_list qvalues).*1 ↔ is_Some (qvalues !! key).
Proof.
  rewrite list_elem_of_fmap. split.
  - intros ([k v] & -> & Hin). apply elem_of_map_to_list in Hin. by eexists.
  - intros [v Hv]. exists (key, v). split; [reflexivity|].
    by apply elem_of_map_to_list.
Qed.

Lemma eventOfQuery_param `{!Libraries Value} c o now r key :
  values (eventOfQuery c o now r) !! ("p:" +:+ key)
  = if decide (is_Some (ReqQuery r !! key)
               ∧ ¬ is_Some (skipParams o !! strings_ToLower key))
    then Some (ofString (Values_Get (ReqQuery r) key)) else None.
Proof.
  unfold eventOfQuery. cbv zeta. set (e0 := Event_Set _ "method" _).
  assert (values e0 !! ("p:" +:+ key) = None) as Hnone.
  { subst e0. unfold NewEvent, Event_Set. cbv zeta.
    destruct (decide (NewRelicAppId o ≠ 0)); cbn [values];
      repeat (rewrite lookup_insert_ne by discriminate); apply lookup_empty. }
  case_decide as Hcase.
  - destruct Hcase as [Hin Hskip].
    apply setParams_set; [by apply query_keys|exact Hskip].
  - destruct (decide (is_Some (skipParams o !! strings_ToLower key))) as [Hskip|Hskip].
    + rewrite setParams_skipped by exact Hskip. apply Hnone.
    + rewrite setParams_other; [apply Hnone|].
      intros key' Hin Heq%param_name_inj. subst key'.
      apply Hcase. split; [by apply query_keys|exact Hskip].
Qed.

(** X15.  What the query of a request puts into the event: for every key
    of the query that is not to be skipped (its lower-cased name is not in
    [skipParams]), the field [p:<key>] holds the first value of the key, or
    the empty string when the key has no value; for every other key there
    is no field [p:<key>].  The fields [accountId], [eventType],
    [timestamp], [host], [url] and [method] are there whatever the query
    holds, [appId] exactly when [NewRelicAppId] is not 0, and there is no
    field besides these. *)
Theorem query_event_fields `{!Libraries Value} c o now r :
  let e := eventOfQuery c o now r in
  (∀ key, values e !! ("p:" +:+ key)
          = if decide (is_Some (ReqQuery r !! key)
                       ∧ ¬ is_Some (skipParams o !! strings_ToLower key))
            then Some (ofString (Values_Get (ReqQuery r) key)) else None)
  ∧ values e !! "accountId" = Some (ofInt (NewRelicAccountId c))
  ∧ values e !! "appId"
    = (if decide (NewRelicAppId o = 0) then None else Some (ofInt (NewRelicAppId o)))
  ∧ values e !! "eventType" = Some (ofString "Transaction")
  ∧ values e !! "timestamp" = Some (ofInt64 now)
  ∧ values e !! "host" = Some (ofString (host o))
  ∧ values e !! "url" = Some (ofString (ReqPath r))
  ∧ values e !! "method" = Some (ofString (ReqMethod r))
  ∧ ∀ name, is_Some (values e !! name) →
            name ∈ ["accountId"; "appId"; "eventType"; "timestamp"; "host"; "url"; "method"]
            ∨ ∃ key, name = "p:" +:+ key.
Proof.
  intros e. subst e. unfold eventOfQuery. cbv zeta.
  set (e0 := Event_Set _ "method" _).
  assert (∀ name, (∀ key, name ≠ "p:" +:+ key) →
            values (setParams o (ReqQuery r) (map_to_list (ReqQuery r)).*1 e0) !! name
            = values e0 !! name) as Hother.
  { intros name Hname. apply setParams_other. intros key _. apply Hname. }
  split_and!.
  - apply eventOfQuery_param.
  - rewrite Hother by discriminate. subst e0. unfold NewEvent, Event_Set. cbv zeta.
    destruct (decide (NewRelicAppId o ≠ 0)); cbn [values];
      repeat (rewrite lookup_insert_ne by discriminate); apply lookup_insert_eq.
  - rewrite Hother by discriminate. subst e0. unfold NewEvent, Event_Set. cbv zeta.
    destruct (decide (NewRelicAppId o ≠ 0)) as [Hne|Heq]; cbn [values];
      repeat (rewrite lookup_insert_ne by discriminate).
    + rewrite decide_False by exact Hne. apply lookup_insert_eq.
    + rewrite decide_True by (by apply dec_stable). apply lookup_empty.
  - rewrite Hother by discriminate. subst e0. unfold NewEvent, Event_Set. cbv zeta.
    destruct (decide (NewRelicAppId o ≠ 0)); cbn [values];
      repeat (rewrite lookup_insert_ne by discriminate); apply lookup_insert_eq.
  - rewrite Hother by discriminate. subst e0. unfold NewEvent, Event_Set. cbv zeta.
    destruct (decide (NewRelicAppId o ≠ 0)); cbn [values];
      repeat (rewrite lookup_insert_ne by discriminate); apply lookup_insert_eq.
  - rewrite Hother by discriminate. subst e0. unfold NewEvent, Event_Set. cbv zeta.
    destruct (decide (NewRelicAppId o ≠ 0)); cbn [values];
      repeat (rewrite lookup_insert_ne by discriminate); apply lookup_insert_eq.
  - rewrite Hother by discriminate. subst e0. unfold Event_Set. cbn [values].
    rewrite lookup_insert_ne by discriminate. apply lookup_insert_eq.
  - rewrite Hother by discriminate. subst e0. unfold Event_Set. cbn [values].
    apply lookup_insert_eq.
  - intros name Hsome.
    destruct (decide (name ∈ ["accountId"; "appId"; "eventType"; "timestamp";
                              "host"; "url"; "method"])) as [Hin|Hnin]; [by left|].
    right.
    destruct (decide (Exists (λ key, name = "p:" +:+ key) (map_to_list (ReqQuery r)).*1))
      as [(key & _ & Hkey)%Exists_exists|Hno]; [by exists key|].
    rewrite Exists_exists in Hno.
    exfalso. rewrite setParams_other in Hsome.
    + subst e0. unfold NewEvent, Event_Set in Hsome. cbv zeta in Hsome.
      rewrite !elem_of_cons, elem_of_nil in Hnin.
      destruct (decide (NewRelicAppId o ≠ 0)); cbn [values] in Hsome;
        repeat (rewrite lookup_insert_ne in Hsome by (intros <-; tauto));
        rewrite lookup_empty in Hsome; by destruct Hsome.
    + intros key Hin Heq. apply Hno. by exists key.
Qed.

Lemma fields_any_order_aux (flat : gmap string Value) e :
  values (setFields (map_to_list flat) e) = flat ∪ values e.
Proof.
  rewrite setFields_values by apply NoDup_fst_map_to_list.
  by rewrite list_to_map_to_list.
Qed.

Lemma query_event_names `{!Libraries Value} c o now r name :
  (∀ key, name ≠ "p:" +:+ key) →
  values (eventOfQuery c o now r) !! name
  = values (Event_Set (Event_Set (NewEvent c o now) "url" (ofString (ReqPath r)))
              "method" (ofString (ReqMethod r))) !! name.
Proof. intros Hname. apply setParams_other. intros key _. apply Hname. Qed.

Lemma query_event_no_body `{!Libraries Value} c o now r :
  values (eventOfQuery c o now r) !! "body" = None.
Proof.
  rewrite query_event_names by discriminate.
  unfold NewEvent, Event_Set. cbv zeta.
  destruct (decide (NewRelicAppId o ≠ 0)); cbn [values];
    repeat (rewrite lookup_insert_ne by discriminate); apply lookup_empty.
Qed.

(** X16.  [MakeEventFromRequest] fails in one case only, a POST request
    whose body cannot be read; and a request that is not a POST gives the
    event of its query and is left as it was, its body not read. *)
Theorem MakeEventFromRequest_fails_on_unreadable_body `{!Libraries Value} c o now r :
  ((∃ msg r', MakeEventFromRequest c o now r = (inr msg, r'))
   ↔ ReqMethod r = "POST" ∧ ∃ err rd, ioutil_ReadAll (ReqBody r) = (inr err, rd))
  ∧ (∀ err rd, ReqMethod r = "POST" → ioutil_ReadAll (ReqBody r) = (inr err, rd) →
       (MakeEventFromRequest c o now r).1
       = inr ("failed to read request body: " +:+ err))
  ∧ (ReqMethod r ≠ "POST" →
       MakeEventFromRequest c o now r = (inl (eventOfQuery c o now r), r)).
Proof.
  unfold MakeEventFromRequest. cbv zeta. split_and!.
  - split.
    + intros (msg & r' & Hmake). case_decide as Hpost; [|discriminate].
      split; [exact Hpost|].
      destruct (ioutil_ReadAll (ReqBody r)) as [[bodybuf|err] rd]; [|by eexists _, _].
      exfalso. destruct (FlattenPosts o); [|discriminate].
      destruct (json_Unmarshal bodybuf) as [nested|]; [|discriminate].
      destruct (flatten_Flatten nested "p:" (FlattenStyle o)); discriminate.
    + intros (Hpost & err & rd & Hread). rewrite decide_True by exact Hpost.
      rewrite Hread. by eexists _, _.
  - intros err rd Hpost Hread. rewrite decide_True by exact Hpost.
    rewrite Hread. reflexivity.
  - intros Hpost. by rewrite decide_False by exact Hpost.
Qed.

(** X17.  A POST body that is not flattened goes into the field [body],
    whole: when [FlattenPosts] is off, and also when it is on but the body
    is not JSON or cannot be flattened, the event is the event of the query
    with [body] set to the bytes read.  The request gets a fresh body that
    yields the same bytes again, so the handler served afterwards can still
    read it; nothing else of the request changes. *)
Theorem POST_body_kept_whole `{!Libraries Value} c o now r bodybuf rd :
  ReqMethod r = "POST" →
  ioutil_ReadAll (ReqBody r) = (inl bodybuf, rd) →
  FlattenPosts o = false
  ∨ (∃ err, json_Unmarshal bodybuf = inr err)
  ∨ (∃ nested err, json_Unmarshal bodybuf = inl nested
                   ∧ flatten_Flatten nested "p:" (FlattenStyle o) = inr err) →
  ∃ e r',
    MakeEventFromRequest c o now r = (inl e, r')
    ∧ values e = <["body" := ofString bodybuf]> (values (eventOfQuery c o now r))
    ∧ (ioutil_ReadAll (ReqBody r')).1 = inl bodybuf
    ∧ ReqPath r' = ReqPath r ∧ ReqMethod r' = ReqMethod r ∧ ReqQuery r' = ReqQuery r.
Proof.
  intros Hpost Hread Hcase. unfold MakeEventFromRequest. cbv zeta.
  rewrite decide_True by exact Hpost. rewrite Hread.
  destruct Hcase as [Hoff|[[err Herr]|(nested & err & Hnested & Herr)]].
  - rewrite Hoff. eexists _, _. split; [reflexivity|]. by split_and!.
  - destruct (FlattenPosts o); rewrite ?Herr;
      (eexists _, _; split; [reflexivity|]; by split_and!).
  - destruct (FlattenPosts o); rewrite ?Hnested, ?Herr;
      (eexists _, _; split; [reflexivity|]; by split_and!).
Qed.

(** X18.  A POST body that is flattened goes into the event field by
    field: with [FlattenPosts] on and a body that decodes and flattens to
    [flat], the event holds every field of [flat] and, under the names
    [flat] does not use, the fields of the event of the query.  A flattened
    field so replaces a field of the same name, and there is no field
    [body] unless [flat] has one.  The request gets its body back as in the
    other case. *)
Theorem POST_body_flattened `{!Libraries Value} c o now r bodybuf rd nested flat :
  ReqMethod r = "POST" →
  ioutil_ReadAll (ReqBody r) = (inl bodybuf, rd) →
  FlattenPosts o = true →
  json_Unmarshal bodybuf = inl nested →
  flatten_Flatten nested "p:" (FlattenStyle o) = inl flat →
  ∃ e r',
    MakeEventFromRequest c o now r = (inl e, r')
    ∧ values e = flat ∪ values (eventOfQuery c o now r)
    ∧ values e !! "body" = flat !! "body"
    ∧ (ioutil_ReadAll (ReqBody r')).1 = inl bodybuf.
Proof.
  intros Hpost Hread Hon Hnested Hflat. unfold MakeEventFromRequest. cbv zeta.
  rewrite decide_True by exact Hpost. rewrite Hread, Hon, Hnested, Hflat.
  eexists _, _. split; [reflexivity|].
  assert (values (setFields (map_to_list flat) (eventOfQuery c o now r))
          = flat ∪ values (eventOfQuery c o now r)) as Hvalues.
  { by apply fields_any_order_aux. }
  split; [exact Hvalues|]. split; [|reflexivity].
  rewrite Hvalues. rewrite lookup_union, query_event_no_body.
  by destruct (flat !! "body").
Qed.

Lemma capture_run (calls : list WriterCall) : ∀ cs,
  ResponseWriter (foldl capture cs calls) = ResponseWriter cs ++ calls
  ∧ status (foldl capture cs calls) = lastStatus calls (status cs).
Proof.
  induction calls as [|call calls IH]; intros cs; cbn [foldl lastStatus].
  - by rewrite app_nil_r.
  - destruct (IH (capture cs call)) as [-> ->].
    destruct call as [st|data]; cbn [capture WriteHeader ResponseWriter status];
      by rewrite <- app_assoc.
Qed.

(** X19.  The handler that [Middleware] returns is transparent to the
    client and reports what the wrapped handler did: the calls that reach
    the writer are exactly the calls of the wrapped handler, in their
    order; and the event it registers is the event of the request, after
    the mutator if there is one, with [duration] set and with
    [status-code] set to the status of the last [WriteHeader] of the
    wrapped handler, or to 200 if it never calls [WriteHeader].  The
    mutator cannot set either field to something else. *)
Theorem Middleware_reports_handler `{!Libraries Value} c o h fn now seconds r event r1 :
  MakeEventFromRequest c o now r = (inl event, r1) →
  let (r2, event2) := match fn with
                      | Some fn => fn r1 event
                      | None => (r1, event)
                      end in
  let sent := MkEvent (<["status-code" := ofInt (lastStatus (h r2) 200)]>
                         (<["duration" := seconds]> (values event2))) in
  Middleware c o h fn now seconds r
  = (h r2, '(_, c') ← RegisterEvent c sent; Done c')
  ∧ values sent !! "status-code" = Some (ofInt (lastStatus (h r2) 200))
  ∧ values sent !! "duration" = Some seconds.
Proof.
  intros Hmake. unfold Middleware. rewrite Hmake.
  assert (∀ r2 event2,
            (ResponseWriter (foldl capture (MkCaptureStatus [] 200) (h r2)),
             '(_, c') ← RegisterEvent c
                (Event_Set (Event_Set event2 "duration" seconds) "status-code"
                   (ofInt (status (foldl capture (MkCaptureStatus [] 200) (h r2)))));
             Done c')
            = (h r2,
               '(_, c') ← RegisterEvent c
                  (MkEvent (<["status-code" := ofInt (lastStatus (h r2) 200)]>
                              (<["duration" := seconds]> (values event2))));
               Done c')) as Hrun.
  { intros r2 event2.
    destruct (capture_run (h r2) (MkCaptureStatus [] 200)) as [Hw Hst].
    cbn [ResponseWriter status app] in Hw, Hst. by rewrite Hw, Hst. }
  destruct fn as [fn|]; [destruct (fn r1 event) as [r2 event2]|]; cbv zeta;
    (split_and!;
     [apply Hrun
     |cbn [values]; apply lookup_insert_eq
     |cbn [values]; rewrite lookup_insert_ne by discriminate; apply lookup_insert_eq]).
Qed.

(** X20.  When the event cannot be made, [Middleware] still serves the
    request: the wrapped handler runs on the writer itself, no event is
    registered and the connection is untouched. *)
Theorem Middleware_serves_without_event `{!Libraries Value} c o h fn now seconds r err rd :
  ReqMethod r = "POST" → ioutil_ReadAll (ReqBody r) = (inr err, rd) →
  Middleware c o h fn now seconds r
  = (h (MkHttpRequest (ReqPath r) (ReqMethod r) (ReqQuery r) rd), Done c).
Proof.
  intros Hpost Hread. unfold Middleware, MakeEventFromRequest. cbv zeta.
  rewrite decide_True by exact Hpost. rewrite Hread. reflexivity.
Qed.

(** X21.  [Middleware] drops the error of [RegisterEvent]: when the event
    cannot be encoded, the request is served as if nothing had happened,
    and the connection is untouched. *)
Theorem Middleware_drops_marshal_error `{!Libraries Value} c o h fn now seconds r event r1 :
  MakeEventFromRequest c o now r = (inl event, r1) →
  (∀ vs, is_Some (vs !! "status-code") → ∃ err, json_Marshal vs = inr err) →
  (Middleware c o h fn now seconds r).2 = Done c.
Proof.
  intros Hmake Hfail. unfold Middleware. rewrite Hmake.
  assert (∀ r2 event2,
            ('(_, c') ← RegisterEvent c
                (Event_Set (Event_Set event2 "duration" seconds) "status-code"
                   (ofInt (status (foldl capture (MkCaptureStatus [] 200) (h r2)))));
             Done c') = Done c) as Hrun.
  { intros r2 event2. unfold RegisterEvent.
    destruct (Hfail (values (Event_Set (Event_Set event2 "duration" seconds) "status-code"
                       (ofInt (status (foldl capture (MkCaptureStatus [] 200) (h r2)))))))
      as [err ->]; [|reflexivity].
    unfold Event_Set. cbn [values]. rewrite lookup_insert_eq. by eexists. }
  destruct fn as [fn|]; [destruct (fn r1 event) as [r2 event2]|]; apply Hrun.
Qed.

(** X22.  A request served after [StopAndFlush] has begun brings the
    server goroutine down: the wrapped handler has written its response,
    and then registering the event panics on the closed channel. *)
Theorem Middleware_panics_after_shutdown `{!Libraries Value} account key s o h fn now
    seconds r event r1 :
  reachable account key s → stop s ≠ NotStopping →
  MakeEventFromRequest (conn s) o now r = (inl event, r1) →
  (∀ vs, is_Some (vs !! "status-code") → ∃ asjson, json_Marshal vs = inl asjson) →
  (Middleware (conn s) o h fn now seconds r).2 = Panic.
Proof.
  intros Hs Hstop Hmake Hok.
  destruct (inv_protocol _ _ _ Hs) as (_ & _ & _ & _ & _ & _ & _ & _ & _ & _ & _ & P12).
  unfold Middleware. rewrite Hmake.
  assert (∀ r2 event2,
            ('(_, c') ← RegisterEvent (conn s)
                (Event_Set (Event_Set event2 "duration" seconds) "status-code"
                   (ofInt (status (foldl capture (MkCaptureStatus [] 200) (h r2)))));
             Done c') = Panic) as Hrun.
  { intros r2 event2. unfold RegisterEvent.
    destruct (Hok (values (Event_Set (Event_Set event2 "duration" seconds) "status-code"
                     (ofInt (status (foldl capture (MkCaptureStatus [] 200) (h r2)))))))
      as [asjson ->].
    { unfold Event_Set. cbn [values]. rewrite lookup_insert_eq. by eexists. }
    unfold send. by rewrite (P12 Hstop). }
  destruct fn as [fn|]; [destruct (fn r1 event) as [r2 event2]|]; apply Hrun.
Qed.

(** X23.  Skipping is blind to case, after [Start]: a key of the query is
    left out of the event exactly when its lower-cased name is the
    lower-cased name of an entry of [QueryParamsToSkip]; every other key of
    the query is reported with its first value. *)
Theorem skipped_params_ignore_case `{!Libraries Value} c o now r key :
  values (eventOfQuery c (Start_options o) now r) !! ("p:" +:+ key)
  = if decide (is_Some (ReqQuery r !! key)
               ∧ strings_ToLower key ∉ strings_ToLower <$> QueryParamsToSkip o)
    then Some (ofString (Values_Get (ReqQuery r) key)) else None.
Proof.
  rewrite eventOfQuery_param.
  assert (is_Some (skipParams (Start_options o) !! strings_ToLower key)
          ↔ strings_ToLower key ∈ strings_ToLower <$> QueryParamsToSkip o) as Hskip.
  { unfold Start_options. cbn [skipParams]. rewrite skip_table, lookup_empty.
    case_decide as Hin; split; intros H; try done; by destruct H. }
  destruct (decide (is_Some (ReqQuery r !! key)
                    ∧ ¬ is_Some (skipParams (Start_options o) !! strings_ToLower key)))
    as [[Hin Hno]|Hno];
    destruct (decide (is_Some (ReqQuery r !! key)
                      ∧ strings_ToLower key ∉ strings_ToLower <$> QueryParamsToSkip o))
      as [[Hin' Hno']|Hno']; try reflexivity; exfalso.
  - apply Hno'. split; [exact Hin|]. intros Hx. apply Hno, Hskip, Hx.
  - apply Hno. split; [exact Hin'|]. intros Hx. apply Hno', Hskip, Hx.
Qed.

(** ** Runs of the Aggregator inside the system *)

Lemma set_events_same c ch :
  events c = Chan [] (cap (events c)) false →
  set_events (set_events c ch) (Chan [] (cap (events c)) false) = c.
Proof. destruct c as [? ? ? ? ev ? ? ? ? ?]. simpl. by intros ->. Qed.

(** What the Aggregator does on its own it also does in the system: with
    the [events] channel open and empty, the system can register and hand
    over each record, and let each tick fire, in the given order. *)
Lemma aggregator_run sels : ∀ c w fs d c' fs',
  Forall marshalled (recordsOf sels) →
  events c = Chan [] (cap (events c)) false → (0 < cap (events c))%nat →
  aggregate c sels = Done (c', fs') →
  rtc step (MkSys c w fs AtSelect d NotStopping)
           (MkSys c' w (fs ++ fs') AtSelect d NotStopping).
Proof.
  induction sels as [|sel sels IH]; intros c w fs d c' fs' Hrs Hev Hcap; simpl.
  - intros [= <- <-]. rewrite app_nil_r. apply rtc_refl.
  - destruct (loopBody c sel) as [[c1 fs1]| |] eqn:Hbody; simpl; [|done..].
    destruct (aggregate c1 sels) as [[c2 fs2]| |] eqn:Hagg; simpl; [|done..].
    intros [= <- <-].
    pose proof (loopBody_effect _ _ _ _ Hbody) as (_ & _ & Hev1 & _).
    rewrite app_assoc.
    destruct sel as [r|]; cbn [recordsOf] in Hrs.
    + apply Forall_cons in Hrs as [[e He] Hrs].
      eapply rtc_l.
      { eapply (step_register _ _ _ _ _ _ e). unfold RegisterEvent, send.
        rewrite He, Hev. simpl. rewrite decide_True by done. reflexivity. }
      eapply rtc_l.
      { eapply step_event; [reflexivity|]. simpl.
        rewrite set_events_same by done. exact Hbody. }
      apply IH; [done|by rewrite Hev1..|done].
    + eapply rtc_l; [by eapply step_tick|].
      apply IH; [done|by rewrite Hev1..|done].
Qed.

End Pipeline.

(** ** The statements exercised on the stand-ins *)

Example sampleMarshal_ex :
  sampleMarshal ∅ = inl "{}"
  ∧ sampleMarshal {[ "ok" := VBool true ]}
    = inl ("{" +:+ dquote +:+ "ok" +:+ dquote +:+ ":true}")
  ∧ sampleMarshal {[ "ok" := VChan ]} = inr "json: unsupported type: chan int".
Proof. split_and!; vm_compute; reflexivity. Qed.

(** Takes one transition with the given rule, computing its premises one
    after the other. *)
Ltac take rule :=
  eapply rtc_l; [eapply rule; [> (vm_compute; reflexivity) ..]|].

(** A whole life of the pipeline: one event is registered, batched on the
    tick and delivered, then [StopAndFlush] runs to its end. *)
Lemma demo_run :
  ∃ s, reachable sampleValue sampleMarshal acceptRequest (respondWith 200) 42 "key" s
       ∧ stop s = Returned
       ∧ formed s = [["{}"]]
       ∧ length (wire s) = 1%nat.
Proof.
  eexists. split.
  - unfold reachable.
    eapply rtc_l;
      [eapply step_register with (e := MkEvent _ ∅); vm_compute; reflexivity|].
    take step_event. take step_tick. take step_batch.
    take step_close_events. take step_events_closed. take step_final_flush.
    take step_events_done. take step_wait_events. take step_close_batches.
    take step_batches_closed. take step_final_pass. take step_batches_done.
    take step_wait_batches. apply rtc_refl.
  - split_and!; reflexivity.
Defined.

Lemma sampleMarshal_fits : recordsFit sampleValue sampleMarshal.
Proof.
  intros vs asjson. unfold sampleMarshal.
  destruct (vs !! "ok") as [[[]|]|]; intros [= <-]; by vm_compute.
Qed.

Lemma acceptRequest_spec : newRequestSpec acceptRequest.
Proof. by intros method url body req [= <-]. Qed.

Lemma recordsOf_events rs : recordsOf (GotEvent <$> rs) = rs.
Proof. induction rs as [|r rs IH]; [reflexivity|]. cbn. by rewrite IH. Qed.

Lemma empty_event_marshalled : marshalled sampleValue sampleMarshal "{}".
Proof. exists (MkEvent _ ∅). reflexivity. Qed.

(** Nine hundred and one records arrive between two ticks: the last one
    takes the pending count over the threshold of 900 and the Aggregator
    flushes at once, without a tick. *)
Lemma demo_early_flush :
  ∃ s, reachable sampleValue sampleMarshal acceptRequest (respondWith 200) 42 "key" s
       ∧ formed s = [replicate 901 "{}"]
       ∧ eventQueue (conn s) = [] ∧ queueBytes (conn s) = 0
       ∧ buf (batches (conn s)) = [formBatch (replicate 901 "{}")].
Proof.
  eexists (MkSys _ [] ([] ++ _) AtSelect AtRange NotStopping). split.
  - unfold reachable, initial.
    apply (aggregator_run _ _ _ _ (GotEvent <$> replicate 901 "{}")).
    + rewrite recordsOf_events. apply Forall_replicate, empty_event_marshalled.
    + reflexivity.
    + vm_compute. lia.
    + vm_compute. reflexivity.
  - split_and!; vm_compute; reflexivity.
Defined.

(** Twenty rounds of one record and one tick with the Dispatcher not yet
    running, then one more record: the [batches] channel is full and a
    record is pending. *)
Lemma demo_full_channel :
  ∃ s, reachable sampleValue sampleMarshal acceptRequest (respondWith 200) 42 "key" s
       ∧ buf (batches (conn s)) = replicate 20 "[{}]"
       ∧ cap (batches (conn s)) = 20%nat
       ∧ closed (batches (conn s)) = false
       ∧ eventQueue (conn s) = ["{}"] ∧ queueBytes (conn s) = 2.
Proof.
  eexists (MkSys _ [] ([] ++ _) AtSelect AtRange NotStopping). split.
  - unfold reachable, initial.
    apply (aggregator_run _ _ _ _
             (mjoin (replicate 20 [GotEvent "{}"; Ticked]) ++ [GotEvent "{}"])).
    + apply Forall_forall. intros r Hr. vm_compute in Hr.
      repeat (apply elem_of_cons in Hr as [->|Hr]; [apply empty_event_marshalled|]).
      by apply elem_of_nil in Hr.
    + reflexivity.
    + vm_compute. lia.
    + vm_compute. reflexivity.
  - split_and!; vm_compute; reflexivity.
Defined.

(** [StopAndFlush] with a record pending and the collector out of reach:
    one record is registered and received, then [StopAndFlush] is called.
    The final flush makes the record into a batch; the Dispatcher takes it
    from the channel and fails to deliver it with the default timeout; the
    final pass tries it again with the 2-second timeout. *)
Lemma demo_shutdown :
  ∃ s, reachable sampleValue sampleMarshal acceptRequest refuseConnection 42 "key" s
       ∧ stop s = Returned
       ∧ formed s = [["{}"]]
       ∧ clientTimeout <$> wire s = [defaultHttpTimeout; fastHttpTimeout]
       ∧ clist.Value <$> elems (unsent (conn s)) = ["[{}]"].
Proof.
  eexists. split.
  - unfold reachable.
    eapply rtc_l;
      [eapply step_register with (e := MkEvent _ ∅); vm_compute; reflexivity|].
    take step_event.
    take step_close_events. take step_events_closed. take step_final_flush.
    take step_events_done. take step_wait_events. take step_batch.
    take step_close_batches. take step_batches_closed. take step_final_pass.
    take step_batches_done. take step_wait_batches. apply rtc_refl.
  - split_and!; reflexivity.
Defined.

(** Three batches of one record each, all different, of which the
    collector accepts the first and is out of reach afterwards: the second
    waits in the [unsent] list and the third in the channel. *)
Lemma demo_backlog :
  ∃ s, reachable sampleValue sampleMarshal acceptRequest reachableOnce 42 "key" s
       ∧ length (formed s) = 3%nat
       ∧ NoDup (formed s)
       ∧ backlog (conn s) = formBatch <$> drop 1 (formed s)
       ∧ length (elems (unsent (conn s))) = 1%nat
       ∧ length (buf (batches (conn s))) = 1%nat.
Proof.
  eexists. split.
  - unfold reachable.
    eapply rtc_l;
      [eapply step_register with (e := MkEvent _ ∅); vm_compute; reflexivity|].
    take step_event. take step_tick. take step_batch.
    eapply rtc_l;
      [eapply step_register with (e := MkEvent _ {[ "ok" := VBool true ]});
       vm_compute; reflexivity|].
    take step_event. take step_tick. take step_batch.
    eapply rtc_l;
      [eapply step_register with (e := MkEvent _ {[ "ok" := VBool false ]});
       vm_compute; reflexivity|].
    take step_event. take step_tick. apply rtc_refl.
  - split_and!; try reflexivity.
    apply (bool_decide_unpack _). vm_compute. reflexivity.
Defined.

(** X26 on the run that fills the channel: twenty batches wait there, and
    the flush of the pending record drops its batch, leaving the channel as
    it is. *)
Lemma handoff_is_bounded_witness :
  ∃ s, reachable sampleValue sampleMarshal acceptRequest (respondWith 200) 42 "key" s
       ∧ length (buf (batches (conn s))) = 20%nat
       ∧ eventQueue (conn s) = ["{}"]
       ∧ makeBatch (conn s) = Done (set_queueBytes (set_eventQueue (conn s) []) 0).
Proof.
  destruct demo_full_channel as (s & Hs & Hbuf & Hcap & Hopen & Hq & _). exists s.
  split; [exact Hs|]. split; [rewrite Hbuf; reflexivity|]. split; [exact Hq|].
  apply (proj2 (proj2 (handoff_is_bounded _ _ _ _ _ _ s Hs))).
  - rewrite Hbuf. unfold sendQueueSize. simpl. lia.
  - exact Hopen.
  - rewrite Hq. discriminate.
Defined.

(** C3 on the run of 901 records without a tick: the early flush has
    formed one batch of 901 records, nothing is pending, and the batch is
    within both limits. *)
Lemma early_flush_bounds_witness :
  ∃ s, reachable sampleValue sampleMarshal acceptRequest (respondWith 200) 42 "key" s
       ∧ formed s = [replicate 901 "{}"]
       ∧ eventQueue (conn s) = []
       ∧ ∀ q, q ∈ formed s →
              Z.of_nat (length q) ≤ maxEventsPerCall
              ∧ len (formBatch q) ≤ maxSizePerCall.
Proof.
  destruct demo_early_flush as (s & Hs & Hf & Hq & _). exists s.
  split; [exact Hs|]. split; [exact Hf|]. split; [exact Hq|].
  intros q Hin.
  destruct (proj2 (proj2 (proj2
              (early_flush_bounds _ _ _ _ _ _ s sampleMarshal_fits Hs))) q Hin)
    as [Hn Hb].
  split; [exact Hn|]. apply (Hb "{}").
  - rewrite Hf in Hin. apply list_elem_of_singleton in Hin. rewrite Hin.
    vm_compute. reflexivity.
  - vm_compute. discriminate.
Defined.

(** C4 on the shutdown with a record pending and the collector out of
    reach: [StopAndFlush] has returned, the final flush has made the
    pending record into a batch, and the final pass has tried it with the
    2-second timeout after the attempt with the default one. *)
Lemma StopAndFlush_drains_witness :
  ∃ s, reachable sampleValue sampleMarshal acceptRequest refuseConnection 42 "key" s
       ∧ stop s = Returned
       ∧ formed s = [["{}"]]
       ∧ clientTimeout <$> wire s = [defaultHttpTimeout; fastHttpTimeout]
       ∧ aggregator s = AggregatorExited ∧ dispatcher s = DispatcherExited
       ∧ ∃ s0 s1,
           reachable sampleValue sampleMarshal acceptRequest refuseConnection 42 "key" s0
           ∧ rtc (step sampleValue sampleMarshal acceptRequest refuseConnection) s0 s1
           ∧ rtc (step sampleValue sampleMarshal acceptRequest refuseConnection) s1 s
           ∧ finalFlushAt s0 s1
           ∧ finalPassAt acceptRequest refuseConnection s1 s.
Proof.
  destruct demo_shutdown as (s & Hs & Hret & Hf & Hw & _). exists s.
  split; [exact Hs|]. split; [exact Hret|]. split; [exact Hf|]. split; [exact Hw|].
  destruct (proj2 (proj2 (StopAndFlush_drains _ _ _ _ _ _ s Hs)) Hret)
    as (Ha & Hd & _ & _ & _ & _ & Hhist).
  exact (conj Ha (conj Hd Hhist)).
Defined.

(** C7 on the run above, and on a connection fresh from [Start]. *)
Lemma empty_flush_is_noop_witness :
  makeBatch (Start (newConnection 42 "key")) = Done (Start (newConnection 42 "key"))
  ∧ ∃ s, reachable sampleValue sampleMarshal acceptRequest (respondWith 200) 42 "key" s
         ∧ Forall (λ q, q ≠ []) (formed s).
Proof.
  destruct demo_run as (s & Hs & _).
  pose proof (empty_flush_is_noop _ _ _ _ _ _ s Hs) as (Hnoop & Hne & _).
  split.
  - exact (proj1 (Hnoop (Start (newConnection 42 "key")) eq_refl)).
  - exists s. exact (conj Hs Hne).
Defined.

(** C9 on the run above: the request on the wire is a POST. *)
Lemma delivery_request_shape_witness :
  ∃ s, reachable sampleValue sampleMarshal acceptRequest (respondWith 200) 42 "key" s
       ∧ wire s ≠ []
       ∧ ∀ a, a ∈ wire s →
              Method (request a) = "POST"
              ∧ Header (request a) !! "X-Insert-Key" = Some "key".
Proof.
  destruct demo_run as (s & Hs & _ & _ & Hlen). exists s.
  split; [exact Hs|]. split.
  - intros Hnil. rewrite Hnil in Hlen. discriminate Hlen.
  - intros a Ha.
    destruct (delivery_request_shape _ _ _ _ _ _ s acceptRequest_spec Hs a Ha)
      as (Hm & _ & Hk & _).
    exact (conj Hm Hk).
Defined.

(** C10 on the run that fills the channel: one record of two bytes is
    pending and the counter is 2; the flush drops the batch, as the channel
    is full, and resets both. *)
Lemma queueBytes_is_pending_bytes_witness :
  ∃ s, reachable sampleValue sampleMarshal acceptRequest (respondWith 200) 42 "key" s
       ∧ eventQueue (conn s) = ["{}"]
       ∧ queueBytes (conn s) = 2
       ∧ queueBytes (conn s) = bytesOf (eventQueue (conn s))
       ∧ length (buf (batches (conn s))) = 20%nat
       ∧ makeBatch (conn s) = Done (set_queueBytes (set_eventQueue (conn s) []) 0).
Proof.
  destruct demo_full_channel as (s & Hs & Hbuf & Hcap & Hopen & Hq & Hb). exists s.
  destruct (queueBytes_is_pending_bytes _ _ _ _ _ _ s sampleMarshal_fits Hs)
    as (Hbytes & _ & Hdrop).
  split; [exact Hs|]. split; [exact Hq|]. split; [exact Hb|].
  split; [exact Hbytes|]. split; [rewrite Hbuf; reflexivity|].
  apply Hdrop.
  - exact Hopen.
  - rewrite Hbuf, Hcap. simpl. lia.
  - rewrite Hq. discriminate.
Defined.

(** X27 on a list of three batches: the collector answers the first with
    status 500 and a readable body, for which [sendBatch] returns [true],
    accepts the second, and refuses the connection for the third.  Only the
    third stays. *)
Lemma sendUnsent_keeps_failed_in_place_witness :
  let c := set_unsent (Start (newConnection 42 "key"))
             (PushBack (PushBack (PushBack New "[1]") "[2]") "[3]") in
  ∃ c' w' oks,
    sendUnsent acceptRequest rejectsThenAccepts c [] = Some (c', w')
    ∧ oks = [true; true; false]
    ∧ clist.Value <$> elems (unsent c') = ["[3]"].
Proof.
  intros c.
  assert (wf (unsent c)) as Hwf.
  { split; [by apply (bool_decide_unpack _)|repeat constructor]. }
  destruct (sendUnsent_keeps_failed_in_place acceptRequest rejectsThenAccepts c [] Hwf)
    as (c' & w' & oks & Hsend & Hp & _ & _ & Hel & _).
  exists c', w', oks. split; [exact Hsend|].
  assert (oks = [true; true; false]) as Hoks.
  { vm_compute in Hp. by injection Hp as <- _. }
  split; [exact Hoks|]. rewrite Hel, Hoks. reflexivity.
Defined.

(** C6 on three records and a tick: one batch, the three records in order,
    and it is in the channel. *)
Lemma one_batch_per_tick_witness :
  ∃ c', aggregate (Start (newConnection 42 "key"))
          ((GotEvent <$> ["{}"; "{}"; "{}"]) ++ [Ticked])
        = Done (c', [["{}"; "{}"; "{}"]])
        ∧ eventQueue c' = [].
Proof.
  destruct (one_batch_per_tick (Start (newConnection 42 "key")) ["{}"; "{}"; "{}"])
    as (_ & c' & Hagg & Hq & _); try reflexivity; try (by vm_compute).
  exists c'. exact (conj Hagg Hq).
Defined.

(** C8 on an event with a channel value, which is refused, and on an empty
    event, which goes into the channel. *)
Lemma RegisterEvent_reports_unencodable_witness :
  let c := Start (newConnection 42 "key") in
  RegisterEvent sampleValue sampleMarshal c (MkEvent _ {[ "ok" := VChan ]})
  = Done (Some "could not marshal event: json: unsupported type: chan int", c)
  ∧ RegisterEvent sampleValue sampleMarshal c (MkEvent _ ∅)
    = Done (None, set_events c (Chan ["{}"] 10 false)).
Proof.
  intros c. split.
  - refine (proj1 (RegisterEvent_reports_unencodable _ sampleMarshal c
                     (MkEvent _ {[ "ok" := VChan ]})) _ _).
    by vm_compute.
  - refine (proj2 (proj2 (RegisterEvent_reports_unencodable _ sampleMarshal c
                            (MkEvent _ ∅)) "{}" _) _ _).
    + by vm_compute.
    + reflexivity.
    + vm_compute. lia.
Defined.

(** ** Where the code parts from the specification *)

(** C1 (a defect of the code).  A collector that answers 500 with a readable
    body: [sendBatch] reads the body, logs that the batch is queued for
    resend, and then returns [true] all the same, so that [sendUnsent]
    removes the batch from the list after a single attempt. *)
Theorem non200_batch_is_removed :
  let c := set_unsent (Start (newConnection 42 "key")) (PushBack New "[{}]") in
  (sendBatch acceptRequest (respondWith 500) c [] "[{}]").1 = true
  ∧ ∃ c' w', sendUnsent acceptRequest (respondWith 500) c [] = Some (c', w')
             ∧ elems (unsent c') = [] ∧ length w' = 1%nat.
Proof.
  intros c. split; [by vm_compute|].
  eexists _, _. split; [vm_compute; reflexivity|]. by split.
Qed.

(** C5 (a defect of the code).  A pass over three batches with a
    collector that answers the first with status 500 and a readable body,
    accepts the second and cannot be reached for the third: three requests
    are made and only the third batch stays.  The first delivery failed, its
    status not being 200, and yet its batch is removed with the one that
    was delivered: [sendBatch] returns [true] for it. *)
Theorem rejected_batch_is_not_kept :
  let c := set_unsent (Start (newConnection 42 "key"))
             (PushBack (PushBack (PushBack New "[1]") "[2]") "[3]") in
  (sendBatch acceptRequest rejectsThenAccepts c [] "[1]").1 = true
  ∧ ∃ c' w', sendUnsent acceptRequest rejectsThenAccepts c [] = Some (c', w')
             ∧ length w' = 3%nat
             ∧ clist.Value <$> elems (unsent c') = ["[3]"].
Proof.
  intros c. split; [by vm_compute|].
  eexists _, _. split; [vm_compute; reflexivity|]. by split.
Qed.

(** C6 as stated fails on a record that waits in the [events] channel when
    the tick fires.  [RegisterEvent] has returned for two events and the
    Aggregator has received the record of the first; the records ingested
    and not yet in a batch are the pending one followed by the one in the
    channel, and the batch that the tick forms holds the pending one
    only. *)
Lemma tick_misses_waiting_record :
  ¬ (∀ s c' fs,
       reachable sampleValue sampleMarshal acceptRequest (respondWith 200) 42 "key" s →
       aggregator s = AtSelect →
       loopBody (conn s) Ticked = Done (c', fs) →
       concat fs = eventQueue (conn s) ++ buf (events (conn s))).
Proof.
  intros Hclaim.
  assert (∃ s c' fs,
            reachable sampleValue sampleMarshal acceptRequest (respondWith 200) 42 "key" s
            ∧ aggregator s = AtSelect
            ∧ loopBody (conn s) Ticked = Done (c', fs)
            ∧ length (concat fs) = 1%nat
            ∧ length (eventQueue (conn s) ++ buf (events (conn s))) = 2%nat)
    as (s & c' & fs & Hs & Ha & Hbody & Hone & Htwo).
  { eexists _, _, _. split.
    - unfold reachable.
      eapply rtc_l;
        [eapply step_register with (e := MkEvent _ ∅); vm_compute; reflexivity|].
      eapply rtc_l;
        [eapply step_register with (e := MkEvent _ {[ "ok" := VBool true ]});
         vm_compute; reflexivity|].
      take step_event. apply rtc_refl.
    - split; [reflexivity|]. split; [vm_compute; reflexivity|].
      split; reflexivity. }
  rewrite (Hclaim s c' fs Hs Ha Hbody) in Hone. rewrite Htwo in Hone. discriminate.
Qed.

Lemma len_doubled n s : len (doubled n s) = 2 ^ Z.of_nat n * len s.
Proof.
  induction n as [|n IH].
  - simpl. lia.
  - cbn [doubled]. rewrite len_app, IH, Nat2Z.inj_succ, Z.pow_succ_r by lia. lia.
Qed.

Lemma len_bigRecord : len bigRecord = 8388619.
Proof. unfold bigRecord. rewrite !len_app, len_doubled. reflexivity. Qed.

(** An arriving record that takes the pending bytes over the threshold is
    flushed in the same iteration. *)
Lemma loopBody_flushes c e :
  closed (batches c) = false →
  sizeThreshold < int_add (queueBytes c) (len e) →
  ∃ c', loopBody c (GotEvent e) = Done (c', [eventQueue c ++ [e]]).
Proof.
  intros Hopen Hover.
  destruct (makeBatch_total
              (set_queueBytes (set_eventQueue c (eventQueue c ++ [e]))
                 (int_add (queueBytes c) (len e)))) as [c' Hmk]; [done|].
  exists c'. unfold loopBody. cbv zeta.
  change (queueBytes (set_eventQueue c (eventQueue c ++ [e]))) with (queueBytes c).
  replace (nearLimits _) with true.
  - rewrite Hmk. simpl. rewrite flushed_nonempty; [done|].
    simpl. by destruct (eventQueue c).
  - symmetry. unfold nearLimits. apply orb_true_iff. right.
    by apply bool_decide_eq_true.
Qed.

(** C3 as stated fails on a single long record: it is flushed at once, as a
    batch of more than [maxSizePerCall] bytes. *)
Lemma oversized_batch_is_formed :
  ¬ (∀ s, reachable sampleValue bigMarshal acceptRequest (respondWith 200) 42 "key" s →
          ∀ q, q ∈ formed s → len (formBatch q) ≤ maxSizePerCall).
Proof.
  intros Hclaim.
  pose (c1 := set_events (Start (newConnection 42 "key")) (Chan [] 10 false)).
  destruct (loopBody_flushes c1 bigRecord) as [c' Hbody]; [done| |].
  { change (queueBytes c1) with 0. unfold int_add. rewrite len_bigRecord. by vm_compute. }
  assert (reachable sampleValue bigMarshal acceptRequest (respondWith 200) 42 "key"
            (MkSys c' [] ([] ++ [eventQueue c1 ++ [bigRecord]])
               AtSelect AtRange NotStopping)) as Hs.
  { unfold reachable.
    eapply rtc_l; [eapply step_register with (e := MkEvent _ ∅); reflexivity|].
    eapply rtc_l; [eapply step_event; [reflexivity|exact Hbody]|].
    apply rtc_refl. }
  specialize (Hclaim _ Hs [bigRecord]).
  rewrite len_formBatch in Hclaim by done. simpl in Hclaim.
  rewrite len_bigRecord in Hclaim. unfold maxSizePerCall in Hclaim.
  assert ([bigRecord] ∈ [[bigRecord]]) as Hin by (by left).
  specialize (Hclaim Hin). lia.
Qed.

Lemma refused_results c w bs :
  (passResults acceptRequest refuseConnection c w bs).1 = replicate (length bs) false.
Proof.
  revert w. induction bs as [|b bs IH]; intros w; [done|].
  rewrite passResults_cons. simpl. by rewrite IH.
Qed.

Lemma keepFailed_all_failed es : keepFailed es (replicate (length es) false) = es.
Proof. induction es as [|e es IH]; simpl; [done|]. by rewrite IH. Qed.

(** With the collector out of reach a pass removes nothing. *)
Lemma refused_pass c w :
  wf (unsent c) →
  ∃ w', sendUnsent acceptRequest refuseConnection c w = Some (c, w').
Proof.
  intros [Hnd _]. eexists. rewrite sendUnsent_spec by done.
  rewrite refused_results, length_fmap, keepFailed_all_failed, set_unsent_eta.
  reflexivity.
Qed.

(** With the collector out of reach, every batch formed ends up in the
    [unsent] list and stays there: after [n] rounds of one event, one tick
    and one pass, [n] batches have been formed and the list holds them
    all. *)
Lemma refused_batches_pile_up n :
  ∃ es w,
    clist.Value <$> es = replicate n "[{}]" ∧ wf (MkList es n)
    ∧ reachable sampleValue sampleMarshal acceptRequest refuseConnection 42 "key"
        (MkSys (MkConnection 42 "key" [] 0 (Chan [] 10 false)
                  (Chan [] sendQueueSize false) (Chan [] 1 false) (Chan [] 1 false)
                  (MkList es n) defaultHttpTimeout)
               w (replicate n ["{}"]) AtSelect AtRange NotStopping).
Proof.
  induction n as [|n (es & w & Hes & Hwf & Hs)].
  - exists [], []. split_and!; [done|split; constructor|apply rtc_refl].
  - assert (reachable sampleValue sampleMarshal acceptRequest refuseConnection 42 "key"
        (MkSys (MkConnection 42 "key" [] 0 (Chan [] 10 false)
                  (Chan ["[{}]"] sendQueueSize false) (Chan [] 1 false)
                  (Chan [] 1 false) (MkList es n) defaultHttpTimeout)
               w ((replicate n ["{}"] ++ []) ++ [["{}"]])
               AtSelect AtRange NotStopping)) as Hs3.
    { eapply rtc_trans; [exact Hs|].
      eapply rtc_l;
        [eapply step_register with (e := MkEvent _ ∅); vm_compute; reflexivity|].
      take step_event. take step_tick. apply rtc_refl. }
    rewrite app_nil_r, <-replicate_S_end in Hs3.
    pose proof (wf_PushBack _ "[{}]" Hwf) as Hwf'.
    destruct (refused_pass
                (MkConnection 42 "key" [] 0 (Chan [] 10 false)
                   (Chan [] sendQueueSize false) (Chan [] 1 false) (Chan [] 1 false)
                   (PushBack (MkList es n) "[{}]") defaultHttpTimeout) w Hwf')
      as [w' Hpass].
    exists (es ++ [Elem n "[{}]"]), w'. split_and!.
    + rewrite fmap_app, Hes, replicate_S_end. reflexivity.
    + exact Hwf'.
    + eapply rtc_r; [exact Hs3|]. eapply step_batch; [reflexivity|exact Hpass].
Qed.

(** C2 (a defect of the code).  With the collector out of reach the
    Dispatcher moves every batch from the channel into the [unsent] list,
    which nothing bounds: after twenty-one rounds of one event, one tick and
    one pass, twenty-one batches have been formed, the list holds them all,
    none has been dropped, and the backlog is larger than
    [sendQueueSize]. *)
Theorem unsent_outgrows_sendQueueSize :
  ∃ s, reachable sampleValue sampleMarshal acceptRequest refuseConnection 42 "key" s
       ∧ formed s = replicate 21 ["{}"]
       ∧ clist.Value <$> elems (unsent (conn s)) = formBatch <$> formed s
       ∧ buf (batches (conn s)) = []
       ∧ (sendQueueSize < length (backlog (conn s)))%nat.
Proof.
  destruct (refused_batches_pile_up 21) as (es & w & Hes & _ & Hs).
  eexists. split; [exact Hs|]. unfold backlog. simpl.
  split; [reflexivity|]. split; [exact Hes|]. split; [reflexivity|].
  rewrite app_nil_r, Hes. unfold sendQueueSize. simpl. lia.
Qed.

(** ** The further properties on concrete runs *)

(** The pipeline with one record received by the Aggregator and waiting for
    the tick. *)
Lemma demo_pending :
  ∃ s, reachable sampleValue sampleMarshal acceptRequest (respondWith 200) 42 "key" s
       ∧ eventQueue (conn s) = ["{}"]
       ∧ stop s = NotStopping.
Proof.
  eexists. split.
  - unfold reachable.
    eapply rtc_l;
      [eapply step_register with (e := MkEvent _ ∅); vm_compute; reflexivity|].
    take step_event. apply rtc_refl.
  - split; reflexivity.
Defined.

(** The pipeline with one batch delivered and the Dispatcher back in its
    loop. *)
Lemma demo_delivered :
  ∃ s, reachable sampleValue sampleMarshal acceptRequest (respondWith 200) 42 "key" s
       ∧ dispatcher s = AtRange
       ∧ length (wire s) = 1%nat.
Proof.
  eexists. split.
  - unfold reachable.
    eapply rtc_l;
      [eapply step_register with (e := MkEvent _ ∅); vm_compute; reflexivity|].
    take step_event. take step_tick. take step_batch. apply rtc_refl.
  - split; reflexivity.
Defined.


(** X2 on the run with one record pending: the batch would be [[{}]], four
    bytes for a counter of two. *)
Lemma batch_length_exceeds_queueBytes_witness :
  ∃ s, reachable sampleValue sampleMarshal acceptRequest (respondWith 200) 42 "key" s
       ∧ len (formBatch (eventQueue (conn s)))
         = queueBytes (conn s) + Z.of_nat (length (eventQueue (conn s))) + 1.
Proof.
  destruct demo_pending as (s & Hs & Hq & _). exists s. split; [exact Hs|].
  apply (batch_length_exceeds_queueBytes _ _ _ _ _ _ s sampleMarshal_fits Hs).
  rewrite Hq. discriminate.
Defined.

(** X3 on the run with three batches of which the first is delivered:
    the second, in the [unsent] list, and the third, in the channel, wait
    in the order in which they were formed. *)
Lemma backlog_in_formation_order_witness :
  ∃ s, reachable sampleValue sampleMarshal acceptRequest reachableOnce 42 "key" s
       ∧ length (formed s) = 3%nat
       ∧ backlog (conn s) = formBatch <$> drop 1 (formed s)
       ∧ backlog (conn s) `sublist_of` (formBatch <$> formed s).
Proof.
  destruct demo_backlog as (s & Hs & Hlen & _ & Hwait & _). exists s.
  split; [exact Hs|]. split; [exact Hlen|]. split; [exact Hwait|].
  exact (backlog_in_formation_order _ _ _ _ _ _ s Hs).
Defined.

(** X4 on the run with one batch delivered. *)
Lemma normal_passes_use_default_timeout_witness :
  ∃ s, reachable sampleValue sampleMarshal acceptRequest (respondWith 200) 42 "key" s
       ∧ wire s ≠ []
       ∧ Forall (λ a, clientTimeout a = defaultHttpTimeout) (wire s).
Proof.
  destruct demo_delivered as (s & Hs & Hd & Hlen). exists s.
  split; [exact Hs|]. split.
  - intros Hnil. rewrite Hnil in Hlen. discriminate.
  - exact (proj2 (normal_passes_use_default_timeout _ _ _ _ _ _ s Hs (or_introl Hd))).
Defined.

(** X5 on a list of three batches: three attempts, in the order of the
    list. *)
Lemma pass_attempts_every_batch_once_witness :
  let c := set_unsent (Start (newConnection 42 "key"))
             (PushBack (PushBack (PushBack New "[1]") "[2]") "[3]") in
  ∃ c' atts,
    sendUnsent acceptRequest refuseConnection c [] = Some (c', atts)
    ∧ (λ a, Body (request a)) <$> atts = ["[1]"; "[2]"; "[3]"].
Proof.
  intros c.
  assert (wf (unsent c)) as Hwf.
  { split; [by apply (bool_decide_unpack _)|repeat constructor]. }
  destruct (pass_attempts_every_batch_once acceptRequest refuseConnection c [] Hwf)
    as (c' & atts & Hsend & Hbodies & _).
  { intros b _. eexists. split; reflexivity. }
  exists c', atts. split; [exact Hsend|]. exact Hbodies.
Defined.

(** X6 on the same list, with no connection to the collector. *)
Lemma pass_keeps_all_when_unreachable_witness :
  let c := set_unsent (Start (newConnection 42 "key"))
             (PushBack (PushBack (PushBack New "[1]") "[2]") "[3]") in
  ∃ w', sendUnsent acceptRequest refuseConnection c [] = Some (c, w').
Proof.
  intros c.
  assert (wf (unsent c)) as Hwf.
  { split; [by apply (bool_decide_unpack _)|repeat constructor]. }
  apply (pass_keeps_all_when_unreachable acceptRequest refuseConnection c [] Hwf).
  intros n t req. eexists. reflexivity.
Defined.

(** X7 on the same list, with a collector that accepts everything. *)
Lemma pass_empties_list_when_all_accepted_witness :
  let c := set_unsent (Start (newConnection 42 "key"))
             (PushBack (PushBack (PushBack New "[1]") "[2]") "[3]") in
  ∃ c' w', sendUnsent acceptRequest (respondWith 200) c [] = Some (c', w')
           ∧ elems (unsent c') = [].
Proof.
  intros c.
  assert (wf (unsent c)) as Hwf.
  { split; [by apply (bool_decide_unpack _)|repeat constructor]. }
  apply (pass_empties_list_when_all_accepted acceptRequest (respondWith 200) c [] Hwf).
  - intros b _. eexists. reflexivity.
  - intros n t req. eexists. split; reflexivity.
Defined.

(** X8 after shutdown: registering one more event panics. *)
Lemma RegisterEvent_parks_or_panics_witness :
  ∃ s, reachable sampleValue sampleMarshal acceptRequest (respondWith 200) 42 "key" s
       ∧ RegisterEvent _ sampleMarshal (conn s) (MkEvent _ ∅) = Panic.
Proof.
  destruct demo_run as (s & Hs & Hret & _). exists s. split; [exact Hs|].
  refine (proj1 (RegisterEvent_parks_or_panics _ _ _ _ _ _ s (MkEvent _ ∅) "{}" Hs _) _).
  - reflexivity.
  - rewrite Hret. discriminate.
Defined.

(** X9 after shutdown: closing [events] again panics. *)
Lemma second_StopAndFlush_panics_witness :
  ∃ s, reachable sampleValue sampleMarshal acceptRequest (respondWith 200) 42 "key" s
       ∧ close (events (conn s)) = Panic.
Proof.
  destruct demo_run as (s & Hs & Hret & _). exists s. split; [exact Hs|].
  apply (second_StopAndFlush_panics _ _ _ _ _ _ s Hs).
  rewrite Hret. discriminate.
Defined.

(** X10 on the run with one record pending: the final pass of the
    Dispatcher would complete. *)
Lemma pipeline_goroutines_never_panic_witness :
  ∃ s, reachable sampleValue sampleMarshal acceptRequest (respondWith 200) 42 "key" s
       ∧ ∃ r, sendUnsent acceptRequest (respondWith 200)
                (set_httpTimeout (conn s) fastHttpTimeout) (wire s) = Some r.
Proof.
  destruct demo_pending as (s & Hs & _). exists s. split; [exact Hs|].
  exact (proj1 (proj2 (proj2 (proj2 (proj2
    (pipeline_goroutines_never_panic _ _ _ _ _ _ s Hs)))))).
Defined.

(** X11 on the run with one record pending: shutdown can be carried
    through from there. *)
Lemma StopAndFlush_can_always_return_witness :
  ∃ s, reachable sampleValue sampleMarshal acceptRequest (respondWith 200) 42 "key" s
       ∧ stop s = NotStopping
       ∧ ∃ s', rtc (step sampleValue sampleMarshal acceptRequest (respondWith 200)) s s'
               ∧ stop s' = Returned.
Proof.
  destruct demo_pending as (s & Hs & _ & Hstop). exists s.
  split; [exact Hs|]. split; [exact Hstop|].
  exact (StopAndFlush_can_always_return _ _ _ _ _ _ s Hs).
Defined.

(** ** The request side on concrete requests *)

(** X13 on two keys in their two orders. *)
Lemma params_any_order_witness :
  let o := Start_options webValue (MkOptions 7 ["Token"] false 0 "" ∅) in
  let e := MkEvent webValue ∅ in
  setParams webValue o (ReqQuery getCart) ["id"; "empty"] e
  = setParams webValue o (ReqQuery getCart) ["empty"; "id"] e.
Proof.
  intros o e. apply (params_any_order webValue o (ReqQuery getCart)). apply perm_swap.
Defined.

(** X14 on two flattened fields visited in either order, one of them
    replacing the [url] of the event. *)
Lemma fields_any_order_witness :
  let e := MkEvent webValue {[ "url" := WString "/cart" ]} in
  let flat : gmap string webValue := {[ "p:n" := WInt 5; "url" := WString "/" ]} in
  values webValue (setFields webValue [("p:n", WInt 5); ("url", WString "/")] e) = flat ∪ values webValue e
  ∧ values webValue (setFields webValue [("url", WString "/"); ("p:n", WInt 5)] e) = flat ∪ values webValue e.
Proof.
  intros e flat. split; apply fields_any_order; vm_compute;
    first [apply perm_swap|apply Permutation_refl].
Defined.

(** X15 on [GET /cart?id=7&id=8&Token=x&empty] with [Token] skipped under
    the name [token]: [id] is reported with its first value, [empty] with
    the empty string, [Token] is not reported. *)
Lemma query_event_fields_witness :
  let c := Start (newConnection 42 "key") in
  let o := Start_options webValue (MkOptions 7 ["token"] false 0 "" ∅) in
  let e := eventOfQuery webValue c o 1700000000 getCart in
  values webValue e !! "p:id" = Some (WString "7")
  ∧ values webValue e !! "p:empty" = Some (WString "")
  ∧ values webValue e !! "p:Token" = None
  ∧ values webValue e !! "appId" = Some (WInt 7)
  ∧ values webValue e !! "host" = Some (WString "web-1").
Proof.
  intros c o e.
  destruct (query_event_fields webValue c o 1700000000 getCart)
    as (Hp & _ & Happ & _ & _ & Hhost & _).
  split_and!.
  - exact (Hp "id").
  - exact (Hp "empty").
  - exact (Hp "Token").
  - exact Happ.
  - exact Hhost.
Defined.

(** X16 on a GET request, and on a POST whose body breaks off. *)
Lemma MakeEventFromRequest_fails_on_unreadable_body_witness :
  let c := Start (newConnection 42 "key") in
  let o := Start_options webValue (MkOptions 7 ["token"] false 0 "" ∅) in
  MakeEventFromRequest webValue c o 1700000000 getCart
  = (inl (eventOfQuery webValue c o 1700000000 getCart), getCart)
  ∧ (MakeEventFromRequest webValue c o 1700000000
       (postCart (Unread (inr "unexpected EOF")))).1
    = inr "failed to read request body: unexpected EOF".
Proof.
  intros c o. split.
  - apply (MakeEventFromRequest_fails_on_unreadable_body webValue c o 1700000000 getCart).
    discriminate.
  - apply (proj1 (proj2 (MakeEventFromRequest_fails_on_unreadable_body webValue c o
                           1700000000 (postCart (Unread (inr "unexpected EOF")))))
             "unexpected EOF" (Unread (inr "unexpected EOF")));
      reflexivity.
Defined.

(** X17 on a POST with the body [hello], [FlattenPosts] off. *)
Lemma POST_body_kept_whole_witness :
  let c := Start (newConnection 42 "key") in
  let o := Start_options webValue (MkOptions 7 ["token"] false 0 "" ∅) in
  ∃ e r',
    MakeEventFromRequest webValue c o 1700000000 (postCart (Unread (inl "hello")))
    = (inl e, r')
    ∧ values webValue e !! "body" = Some (WString "hello")
    ∧ (ioutil_ReadAll (ReqBody r')).1 = inl "hello".
Proof.
  intros c o.
  destruct (POST_body_kept_whole webValue c o 1700000000
              (postCart (Unread (inl "hello"))) "hello" Drained)
    as (e & r' & Hmake & Hvalues & Hbody & _).
  - reflexivity.
  - reflexivity.
  - left. reflexivity.
  - exists e, r'. split; [exact Hmake|]. split; [|exact Hbody].
    rewrite Hvalues. apply lookup_insert_eq.
Defined.

(** X18 on a POST with the body [{"n":5}], [FlattenPosts] on. *)
Lemma POST_body_flattened_witness :
  let c := Start (newConnection 42 "key") in
  let o := Start_options webValue (MkOptions 7 ["token"] true 0 "" ∅) in
  let body := "{" +:+ dquote +:+ "n" +:+ dquote +:+ ":5}" in
  ∃ e r',
    MakeEventFromRequest webValue c o 1700000000 (postCart (Unread (inl body)))
    = (inl e, r')
    ∧ values webValue e !! "p:n" = Some (WInt 5)
    ∧ values webValue e !! "body" = None.
Proof.
  intros c o body.
  destruct (POST_body_flattened webValue c o 1700000000
              (postCart (Unread (inl body))) body Drained
              {[ "n" := WInt 5 ]} {[ "p:n" := WInt 5 ]})
    as (e & r' & Hmake & Hvalues & Hbody & _); try (vm_compute; reflexivity).
  exists e, r'. split; [exact Hmake|]. split.
  - rewrite Hvalues. apply lookup_union_Some_l. reflexivity.
  - rewrite Hbody. reflexivity.
Defined.

(** X19 on a handler that answers 404: the client gets what the handler
    wrote, and the event carries the status 404. *)
Lemma Middleware_reports_handler_witness :
  let c := Start (newConnection 42 "key") in
  let o := Start_options webValue (MkOptions 7 ["token"] false 0 "" ∅) in
  ∃ sent,
    Middleware webValue webMarshal c o notFound None 1700000000 (WFloat 3) getCart
    = ([CallWriteHeader 404; CallWrite "not found"],
       '(_, c') ← RegisterEvent webValue webMarshal c sent; Done c')
    ∧ values webValue sent !! "status-code" = Some (WInt 404).
Proof.
  intros c o.
  pose proof (Middleware_reports_handler webValue webMarshal c o notFound None
                1700000000 (WFloat 3) getCart
                (eventOfQuery webValue c o 1700000000 getCart) getCart eq_refl)
    as (Hrun & Hstatus & _).
  eexists. split; [exact Hrun|exact Hstatus].
Defined.

(** X20 on a POST whose body breaks off: the handler answers, the
    connection is as before. *)
Lemma Middleware_serves_without_event_witness :
  let c := Start (newConnection 42 "key") in
  let o := Start_options webValue (MkOptions 7 ["token"] false 0 "" ∅) in
  Middleware webValue webMarshal c o notFound None 1700000000 (WFloat 3)
    (postCart (Unread (inr "unexpected EOF")))
  = ([CallWriteHeader 404; CallWrite "not found"], Done c).
Proof.
  intros c o.
  apply (Middleware_serves_without_event webValue webMarshal c o notFound None
           1700000000 (WFloat 3) (postCart (Unread (inr "unexpected EOF")))
           "unexpected EOF" (Unread (inr "unexpected EOF")));
    reflexivity.
Defined.

(** X21 with an encoder that refuses every event. *)
Lemma Middleware_drops_marshal_error_witness :
  let c := Start (newConnection 42 "key") in
  let o := Start_options webValue (MkOptions 7 ["token"] false 0 "" ∅) in
  (Middleware webValue (λ _, inr "json: unsupported value") c o notFound None
     1700000000 (WFloat 3) getCart).2 = Done c.
Proof.
  intros c o.
  apply (Middleware_drops_marshal_error webValue (λ _, inr "json: unsupported value")
           c o notFound None 1700000000 (WFloat 3) getCart
           (eventOfQuery webValue c o 1700000000 getCart) getCart eq_refl).
  intros vs _. eexists. reflexivity.
Defined.

(** The pipeline right after [StopAndFlush] has closed [events]. *)
Lemma demo_stopping :
  ∃ s, reachable webValue webMarshal acceptRequest (respondWith 200) 42 "key" s
       ∧ stop s = AtWaitEvents.
Proof.
  eexists. split.
  - unfold reachable. take step_close_events. apply rtc_refl.
  - reflexivity.
Defined.

(** X22 on a request served while [StopAndFlush] waits for the
    Aggregator. *)
Lemma Middleware_panics_after_shutdown_witness :
  let o := Start_options webValue (MkOptions 7 ["token"] false 0 "" ∅) in
  ∃ s, reachable webValue webMarshal acceptRequest (respondWith 200) 42 "key" s
       ∧ (Middleware webValue webMarshal (conn s) o notFound None 1700000000
            (WFloat 3) getCart).2 = Panic.
Proof.
  intros o. destruct demo_stopping as (s & Hs & Hstop). exists s.
  split; [exact Hs|].
  apply (Middleware_panics_after_shutdown webValue webMarshal acceptRequest
           (respondWith 200) 42 "key" s o notFound None 1700000000 (WFloat 3) getCart
           (eventOfQuery webValue (conn s) o 1700000000 getCart) getCart Hs).
  - rewrite Hstop. discriminate.
  - reflexivity.
  - intros vs _. eexists. reflexivity.
Defined.

(** X24 on a list of three batches and a collector that answers 500 with a
    readable body. *)
Lemma pass_drops_rejected_batches_witness :
  let c := set_unsent (Start (newConnection 42 "key"))
             (PushBack (PushBack (PushBack New "[1]") "[2]") "[3]") in
  ∃ c' w', sendUnsent acceptRequest (respondWith 500) c [] = Some (c', w')
           ∧ elems (unsent c') = [].
Proof.
  intros c.
  assert (wf (unsent c)) as Hwf.
  { split; [by apply (bool_decide_unpack _)|repeat constructor]. }
  apply (pass_drops_rejected_batches acceptRequest (respondWith 500) c [] Hwf).
  - intros b _. eexists. reflexivity.
  - intros n t req. eexists _, _. split; reflexivity.
Defined.

(** X25 on the same list and a collector whose answer 500 breaks off. *)
Lemma pass_keeps_batches_on_unreadable_rejection_witness :
  let c := set_unsent (Start (newConnection 42 "key"))
             (PushBack (PushBack (PushBack New "[1]") "[2]") "[3]") in
  let broken (n : nat) (t : Z) (req : Request) : Response + string :=
    inl (MkResponse 500 (inr "unexpected EOF")) in
  ∃ w', sendUnsent acceptRequest broken c [] = Some (c, w').
Proof.
  intros c broken.
  assert (wf (unsent c)) as Hwf.
  { split; [by apply (bool_decide_unpack _)|repeat constructor]. }
  apply (pass_keeps_batches_on_unreadable_rejection acceptRequest broken c [] Hwf).
  intros n t req. eexists _, _. split; [reflexivity|]. split; [discriminate|reflexivity].
Defined.
